(** * llmwrappers: backend pool, hook chain and chat orchestrator

    A shallow embedding of the core pieces of the [llmwrappers] package
    and the properties its specification states about them:

    - [Engine]     embeds [llm_engine.py] (class [LLMEngine]): backend
                   selection, the retry loop, failure counting, eviction;
    - [Decorator]  embeds [llm_decorator.py] (class [LLMDecorator]): the
                   partition of keyword arguments and the two-phase hook;
    - [OAI]        embeds [oai_wrapper.py] (method [OAIWrapper.query] and its
                   local functions [handle_tool_call], [collect_response])
                   and the two helpers of [tools.py] it calls;
    - [Ancestor]   embeds [find_greatest_common_ancestor] of
                   [llm_engine.py], which gives the engine its class;
    - [Anthropic]  embeds the handling of system messages and the
                   streaming loop of [providers/anthropic.py].

    The [ExceptionQA] hook of [standalone_facade] is embedded as a hook
    of [Decorator].

    Python dictionaries used as mappings are [gmap]s (as the equality of
    dictionaries, a [gmap] knows no order of its items), Python integers
    are [Z], Python strings are [string]s, [None] is [option]'s [None].
    Exceptions are values of explicit error types; mutable state (the
    closure cells of [LLMEngine.__new__], [api_args["messages"]], the
    metrics counter) is passed explicitly. In [Engine] coroutines are
    run to completion one after the other: a call of the engine is not
    interleaved with another one; [Overlap] resumes the calls of an engine
    one await at a time, in any order. *)

From Stdlib Require Import Ascii String.
From stdpp Require Import base numbers option list gmap strings.

Local Open Scope Z_scope.

(** ** Python truthiness helpers used by the sources *)

(** [if s:] for [s : Optional[str]]: [None] and [''] are falsy. *)
Definition truthy (s : option string) : bool :=
  match s with
  | Some EmptyString => false
  | Some _ => true
  | None => false
  end.

(** [a or b] on optional strings. *)
Definition py_or (a b : option string) : option string :=
  if truthy a then a else b.

(** [a or ''] on an optional string. *)
Definition or_empty (a : option string) : string :=
  match py_or a (Some EmptyString) with
  | Some s => s
  | None => EmptyString
  end.

(** [''.join(l)] *)
Definition join (l : list string) : string := foldr String.append EmptyString l.

(** * llm_engine.py *)

Module Engine.

(** A backend (an [LLMWrapper] object) is known to the engine by its
    identity only: it is a dictionary key and a list element. *)
Definition backend := nat.
Bind Scope nat_scope with backend.

(** What awaiting [fn(...)] on a backend does: it returns a
    result, or raises an [Exception] (the exception object is named by a
    number, so that its identity can be followed). *)
Inductive outcome :=
  | Returns (r : nat)
  | Raises (e : nat).

(** The part of the outside world one selection and one call read: the
    rate limiter's [next_allowed()] of every backend; what the operation
    of a backend does when it is called; and, for the attribute name at
    hand, whether [inspect.iscoroutinefunction] holds of the attribute
    found on a backend (it does of an [async def] method that returns, it
    does not of an async generator method or of a plain method). *)
Record world := World {
  next_allowed : backend → Z;
  invoke : backend → outcome;
  iscoroutinefunction : backend → bool
}.

(** The exceptions an engine call can end with. *)
Inductive error :=
  | BackendError (e : nat)          (* an exception raised by a backend *)
  | NoWrappersAvailable             (* Exception("No wrappers available") *)
  | KeyError (b : backend)          (* _backoffs[selection], key missing *)
  | RaiseNone.                      (* raise last_exception, which is None *)

(** The closure cells of [LLMEngine.__new__]. *)
Record pool := Pool {
  _wrappers : list backend;
  _backoffs : gmap backend Z
}.

(** What a call does, in order. *)
Inductive event :=
  | Select (b : backend)            (* select_wrapper() returned b *)
  | Sleep (b : backend) (k : Z)     (* asyncio.sleep(random()*mult*exp**k) *)
  | Attempt (b : backend) (o : outcome)   (* await fn(...) in wrapper *)
  | Direct (b : backend) (o : outcome).   (* the unwrapped attribute is called *)

(** [_wrappers = list(wrappers)],
    [_backoffs = {wrapper: -1 for wrapper in _wrappers}] *)
Definition new (wrappers : list backend) : pool :=
  {| _wrappers := wrappers;
     _backoffs := list_to_map ((λ w, (w, -1)) <$> wrappers) |}.

(** [sorted(l, key=key)]: Python's sort is stable, and a stable sort has
    one possible output; this is the stable insertion sort. *)
Fixpoint insert_sorted {A} (key : A → Z) (x : A) (l : list A) : list A :=
  match l with
  | [] => [x]
  | y :: l' => if bool_decide (key x ≤ key y) then x :: y :: l'
               else y :: insert_sorted key x l'
  end.

Definition sorted {A} (key : A → Z) (l : list A) : list A :=
  foldr (insert_sorted key) [] l.

(** [select_wrapper] *)
Definition select_wrapper (w : world) (st : pool) : error + backend :=
  if bool_decide (length (_wrappers st) = 0%nat) then inl NoWrappersAvailable
  else match sorted (next_allowed w) (_wrappers st) with
       | b :: _ => inr b
       | [] => inl NoWrappersAvailable
       end.

(** [list.remove(x)]: drops the first occurrence. *)
Fixpoint remove_first (x : backend) (l : list backend) : list backend :=
  match l with
  | [] => []
  | y :: l' => if bool_decide (x = y) then l' else y :: remove_first x l'
  end.

(** The bookkeeping of the [except Exception] branch (lines 126-133):
    [if selection in _backoffs: _backoffs[selection] += 1], and when the
    new count [== max_retries], [_wrappers.remove(selection)] and
    [del _backoffs[selection]]. The selection was just taken from
    [_wrappers], so [remove] finds it. *)
Definition record_failure (max_retries : Z) (selection : backend) (st : pool) : pool :=
  match _backoffs st !! selection with
  | None => st
  | Some k =>
      let backoffs := <[selection := k + 1]> (_backoffs st) in
      if bool_decide (backoffs !! selection = Some max_retries)
      then {| _wrappers := remove_first selection (_wrappers st);
              _backoffs := delete selection backoffs |}
      else {| _wrappers := _wrappers st; _backoffs := backoffs |}
  end.

(** The [try] branch on success: [_backoffs[selection] = -1]. *)
Definition record_success (selection : backend) (st : pool) : pool :=
  {| _wrappers := _wrappers st;
     _backoffs := <[selection := -1]> (_backoffs st) |}.

(** What an iteration does between [select_wrapper()] and the call of the
    backend: [if _backoffs[selection] >= 0: await asyncio.sleep(...)]. *)
Definition selected (selection : backend) (k : Z) : list event :=
  Select selection :: (if bool_decide (0 ≤ k) then [Sleep selection k] else []).

(** The loop [for _ in range(_max_retries + 1)] of [wrapper], with [n]
    iterations left, the world of iteration [i] being [ws i]; then
    [raise last_exception]. *)
Fixpoint wrapper_loop (max_retries : Z) (n : nat) (ws : nat → world) (i : nat)
    (st : pool) (last_exception : option nat) : pool * list event * (error + nat) :=
  match n with
  | O => (st, [], inl (match last_exception with
                       | Some e => BackendError e
                       | None => RaiseNone
                       end))
  | S n' =>
      match select_wrapper (ws i) st with
      | inl err => (st, [], inl err)
      | inr selection =>
          match _backoffs st !! selection with
          | None => (st, [Select selection], inl (KeyError selection))
          | Some k =>
              let pre := selected selection k in
              match invoke (ws i) selection with
              | Returns r =>
                  (record_success selection st,
                   pre ++ [Attempt selection (Returns r)], inr r)
              | Raises e =>
                  let '(st', tr, res) :=
                    wrapper_loop max_retries n' ws (S i)
                      (record_failure max_retries selection st) (Some e) in
                  (st', pre ++ Attempt selection (Raises e) :: tr, res)
              end
          end
      end
  end.

(** [wrapper(...)], the coroutine built by [async_wrapper]. *)
Definition wrapper (max_retries : Z) (ws : nat → world) (st : pool)
    : pool * list event * (error + nat) :=
  wrapper_loop max_retries (Z.to_nat (max_retries + 1)) ws 0 st None.

(** What [__getattr__] returns: [async_wrapper(name)], or the attribute
    of the selected backend as it is. *)
Inductive attribute :=
  | Retrying (selection : backend)
  | Bound (selection : backend).

(** [__getattr__(name)], for the name of an operation: one selection, in
    world [w0], then the test on the attribute found. *)
Definition __getattr__ (w0 : world) (st : pool) : error + attribute :=
  match select_wrapper w0 st with
  | inl err => inl err
  | inr selection =>
      inr (if iscoroutinefunction w0 selection
           then Retrying selection else Bound selection)
  end.

(** An external call [engine.op(...)]: [__getattr__] looks the operation
    up; what it returns is called. The wrapper retries; the attribute of
    a backend handed out as it is runs once, and no counter is touched. *)
Definition call (max_retries : Z) (w0 : world) (ws : nat → world) (st : pool)
    : pool * list event * (error + nat) :=
  match __getattr__ w0 st with
  | inl err => (st, [], inl err)
  | inr (Retrying selection) =>
      let '(st', tr, res) := wrapper max_retries ws st in
      (st', Select selection :: tr, res)
  | inr (Bound selection) =>
      (st, [Select selection; Direct selection (invoke (ws 0%nat) selection)],
       match invoke (ws 0%nat) selection with
       | Returns r => inr r
       | Raises e => inl (BackendError e)
       end)
  end.

(** The invocations of a backend's operation in a trace. *)
Definition attempts (tr : list event) : list (backend * outcome) :=
  omap (λ ev, match ev with
              | Attempt b o | Direct b o => Some (b, o)
              | _ => None
              end) tr.

(** The failure counter of backend [b] as the attempts of the wrapper
    determine it: [-1] at construction and after a success, one more per
    failure. *)
Definition streak_step (b : backend) (k : Z) (ev : event) : Z :=
  match ev with
  | Attempt b' (Raises _) => if bool_decide (b' = b) then k + 1 else k
  | Attempt b' (Returns _) => if bool_decide (b' = b) then -1 else k
  | _ => k
  end.

Definition streak (b : backend) (tr : list event) : Z :=
  foldl (streak_step b) (-1) tr.

(** No attempt in the trace succeeded. *)
Definition failed (ev : event) : Prop :=
  match ev with
  | Attempt _ (Returns _) | Direct _ (Returns _) => False
  | _ => True
  end.

Definition all_failed (tr : list event) : Prop := Forall failed tr.

(** The event is about backend [b]. *)
Definition involves (b : backend) (ev : event) : Prop :=
  match ev with
  | Select b' | Sleep b' _ | Attempt b' _ | Direct b' _ => b' = b
  end.

(** Every pooled backend is pooled once and has a failure counter. *)
Definition pool_wf (st : pool) : Prop :=
  NoDup (_wrappers st) ∧ ∀ b, b ∈ _wrappers st → is_Some (_backoffs st !! b).

(** From the moment the counter [k] of backend [b] stands at
    [max_retries], no later event of the trace is about [b]. *)
Fixpoint quiet_after (max_retries : Z) (b : backend) (k : Z) (tr : list event) : Prop :=
  match tr with
  | [] => True
  | ev :: tr' => (k = max_retries → ¬ involves b ev)
                 ∧ quiet_after max_retries b (streak_step b k ev) tr'
  end.

(** How the pool stands to a backend whose counter, read off the trace,
    is [k]: pooled with that count, below [max_retries]; or gone from the
    list and from the dictionary, which for a backend the pool was built
    with means that the counter reached [max_retries]. *)
Definition tracked (max_retries : Z) (wrappers : list backend) (b : backend)
    (k : Z) (st : pool) : Prop :=
  (b ∈ _wrappers st ∧ _backoffs st !! b = Some k ∧ -1 ≤ k < max_retries)
  ∨ ((b ∉ _wrappers st) ∧ _backoffs st !! b = None
     ∧ (b ∈ wrappers → k = max_retries)).

(** A sequence of external calls on one engine; the trace of all of them. *)
Fixpoint calls (max_retries : Z) (cs : list (world * (nat → world))) (st : pool)
    : pool * list event :=
  match cs with
  | [] => (st, [])
  | (w0, ws) :: cs' =>
      let '(st', tr, _) := call max_retries w0 ws st in
      let '(st'', tr') := calls max_retries cs' st' in
      (st'', tr ++ tr')
  end.

End Engine.

(** * Keyword arguments

    [str.upper] on the ASCII range: the letters [a]..[z] go to [A]..[Z],
    every other character is unchanged. On a name with a character
    outside that range [upper] is not [str.upper]. *)

Definition is_lower (c : ascii) : bool :=
  ((97 <=? nat_of_ascii c) && (nat_of_ascii c <=? 122))%nat.

Definition is_upper (c : ascii) : bool :=
  ((65 <=? nat_of_ascii c) && (nat_of_ascii c <=? 90))%nat.

Definition is_alpha (c : ascii) : bool := is_lower c || is_upper c.

Definition upper_char (c : ascii) : ascii :=
  if is_lower c then ascii_of_nat (nat_of_ascii c - 32) else c.

Fixpoint upper (s : string) : string :=
  match s with
  | EmptyString => EmptyString
  | String c s' => String (upper_char c) (upper s')
  end.

(** No character of [s] is a letter. *)
Fixpoint no_alpha (s : string) : bool :=
  match s with
  | EmptyString => true
  | String c s' => negb (is_alpha c) && no_alpha s'
  end.

(** No character of [s] is a lower-case letter. *)
Fixpoint no_lower (s : string) : bool :=
  match s with
  | EmptyString => true
  | String c s' => negb (is_lower c) && no_lower s'
  end.

(** [s.isascii()]: every character is below 128. *)
Fixpoint is_ascii (s : string) : bool :=
  match s with
  | EmptyString => true
  | String c s' => (nat_of_ascii c <? 128)%nat && is_ascii s'
  end.

(** [{k: v for k, v in kwargs.items() if k == k.upper()}] *)
Definition prompt_args {V} (kwargs : gmap string V) : gmap string V :=
  filter (λ kv, kv.1 = upper kv.1) kwargs.

(** [{k: v for k, v in kwargs.items() if k != k.upper()}] *)
Definition api_args {V} (kwargs : gmap string V) : gmap string V :=
  filter (λ kv, kv.1 ≠ upper kv.1) kwargs.

(** [{**a, **b}]: the entries of [b] are applied after those of [a]. *)
Definition dict_merge {V} (a b : gmap string V) : gmap string V := b ∪ a.

(** The same two comprehensions with [str.upper] as a parameter: a key
    is any string, given by its UTF-8 encoding, and outside the ASCII
    range [str.upper] is not the function [upper] above. *)
Definition prompt_args_by {V} (str_upper : string → string)
    (kwargs : gmap string V) : gmap string V :=
  filter (λ kv, kv.1 = str_upper kv.1) kwargs.

Definition api_args_by {V} (str_upper : string → string)
    (kwargs : gmap string V) : gmap string V :=
  filter (λ kv, kv.1 ≠ str_upper kv.1) kwargs.

(** * llm_decorator.py *)

Module Decorator.

(** Exceptions that travel through a decorator. *)
Inductive exn :=
  | StopAsyncIteration
  | Exn (e : nat).

(** Exceptions that end a stream. [StopAsyncIteration] is not among
    them: it is how an asynchronous iterator ends, and when it leaves the
    body of an asynchronous generator the caller is raised
    [RuntimeError("async generator raised StopAsyncIteration")]. *)
Inductive stream_exn :=
  | RuntimeError
  | StreamExn (e : nat).

(** The three coroutine operations; [query_stream] is treated apart. *)
Inductive operation :=
  | Query_response
  | Query_object (response_model : nat)
  | Query_block (block_type : string).

Section Layers.
(** [V]: values of keyword arguments; [R]: results of the operations. *)
Context {V R : Type}.

(** What the after phase of [hook_query] is sent. *)
Inductive response :=
  | Result (r : R)
  | Joined (text : string).

(** What a [hook_query] generator does when it is sent the response:
    it ends (the default), it yields once more, or it raises an exception
    of its own. *)
Inductive after_phase :=
  | Ends
  | YieldsAgain
  | RaisesExn (e : nat).

(** A [hook_query] generator: its first yield, and its after phase. *)
Record hook := Hook {
  before : gmap string V → gmap string V → gmap string V;
  after : response → after_phase
}.

(** The [hook_query] of [LLMDecorator] itself:
    [response = yield {**prompt_args, **api_args}]. *)
Definition hook_query : hook :=
  {| before := λ prompt_args api_args, dict_merge prompt_args api_args;
     after := λ _, Ends |}.

(** [_hook_all_args] up to its [yield new_kwargs]. *)
Definition _hook_all_args (h : hook) (kwargs : gmap string V) : gmap string V :=
  before h (prompt_args kwargs) (api_args kwargs).

(** [await lifecycle.asend(result)] and the [except RuntimeError] around
    it. When the hook ends, its [StopAsyncIteration] leaves the body of
    the generator [_hook_all_args] as a [RuntimeError] whose cause is
    [StopAsyncIteration], which is passed over. When the hook yields
    again, [_hook_all_args] itself ends and [asend] raises
    [StopAsyncIteration]. An exception of the hook is raised again. *)
Definition after_call (h : hook) (r : response) : option exn :=
  match after h r with
  | Ends => None
  | YieldsAgain => Some StopAsyncIteration
  | RaisesExn e => Some (Exn e)
  end.

(** A call surface: given the operation and the keyword arguments it
    answers with the delegations made below it (the keyword arguments of
    each, outermost first) and with a result or an exception. *)
Definition surface : Type :=
  operation → gmap string V → list (gmap string V) * (exn + R).

(** A backend, which delegates to nobody. *)
Definition unwrapped (backend : operation → gmap string V → exn + R) : surface :=
  λ op kwargs, ([], backend op kwargs).

(** [query_response], [query_object], [query_block] of a decorator over
    [underlying_llm]. *)
Definition query (h : hook) (underlying_llm : surface) : surface :=
  λ op kwargs,
    let args := _hook_all_args h kwargs in
    let '(below, res) := underlying_llm op args in
    (args :: below,
     match res with
     | inl e => inl e
     | inr result =>
         match after_call h (Result result) with
         | Some e => inl e
         | None => inr result
         end
     end).

(** A streaming surface: the chunks it yields, and the exception that
    ends the iteration, if any. *)
Definition stream_surface : Type :=
  gmap string V → list (gmap string V) * (list string * option stream_exn).

Definition unwrapped_stream
    (backend : gmap string V → list string * option stream_exn) : stream_surface :=
  λ kwargs, ([], backend kwargs).

(** [await lifecycle.asend("".join(result))] and the [except
    RuntimeError] around it, in [query_stream], which is an asynchronous
    generator. When the hook ends, the [RuntimeError] that leaves
    [_hook_all_args] is passed over, as in the coroutines. When the hook
    yields again, [asend] raises [StopAsyncIteration], which the [except]
    does not catch and which leaves the body of the generator: the caller
    of [query_stream] is raised [RuntimeError]. *)
Definition after_stream (h : hook) (r : response) : option stream_exn :=
  match after h r with
  | Ends => None
  | YieldsAgain => Some RuntimeError
  | RaisesExn e => Some (StreamExn e)
  end.

(** [query_stream] of a decorator: every chunk is yielded as it comes;
    when the wrapped stream is drained the hook is sent the joined
    text. *)
Definition query_stream (h : hook) (underlying_llm : stream_surface)
    : stream_surface :=
  λ kwargs,
    let args := _hook_all_args h kwargs in
    let '(below, (chunks, stop)) := underlying_llm args in
    (args :: below,
     (chunks,
      match stop with
      | Some e => Some e
      | None => after_stream h (Joined (join chunks))
      end)).

(** [depth] decorators with the default hook, stacked on a surface. *)
Fixpoint chain (depth : nat) (inner : surface) : surface :=
  match depth with
  | O => inner
  | S d => query hook_query (chain d inner)
  end.

Fixpoint chain_stream (depth : nat) (inner : stream_surface) : stream_surface :=
  match depth with
  | O => inner
  | S d => query_stream hook_query (chain_stream d inner)
  end.

End Layers.

End Decorator.

(** * tools.py and oai_wrapper.py *)

Module OAI.

(** ** tools.py: what is reported about a caught exception *)

(** One entry of a traceback: the frame's code name and file, the line,
    and the source of the function when [inspect.getsourcelines] finds it
    ([None] when it raises [IOError] or [TypeError]). *)
Record tb_frame := TbFrame {
  co_name : string;
  co_filename : string;
  tb_lineno : Z;
  getsourcelines : option (list string)
}.

(** A caught exception as [sys.exc_info()] shows it: the name of its
    type, [str] of its value, and its traceback. *)
Record pyexc := PyExc {
  exc_type_name : string;
  exc_value_str : string;
  exc_traceback : list tb_frame
}.

Record exception_details := {
  ExceptionType : string;
  ExceptionValue : string;
  Traceback : string
}.

Record stack_entry := {
  FunctionName : string;
  Filename : string;
  LineNumber : Z;
  SourceCode : string
}.

(** The dictionary handed to the model in place of a tool result. *)
Record error_payload := {
  RESULT : string;
  EXCEPTION_DETAILS : option exception_details;
  STACK : option (list stack_entry)
}.

(** [get_exception_details]; [format_exception] stands for
    [''.join(traceback.format_exception(...))]. *)
Definition get_exception_details (format_exception : pyexc → string)
    (exc_info : option pyexc) : option exception_details :=
  match exc_info with
  | None => None
  | Some e => Some {| ExceptionType := exc_type_name e;
                      ExceptionValue := exc_value_str e;
                      Traceback := format_exception e |}
  end.

(** [get_stack_source_code]: one entry per traceback frame. *)
Definition get_stack_source_code (exc_info : option pyexc)
    : option (list stack_entry) :=
  match exc_info with
  | None => None
  | Some e =>
      Some ((λ tb, {| FunctionName := co_name tb;
                      Filename := co_filename tb;
                      LineNumber := tb_lineno tb;
                      SourceCode := match getsourcelines tb with
                                    | Some source_lines => join source_lines
                                    | None => "Source code not available"
                                    end |}) <$> exc_traceback e)
  end.

(** ** oai_wrapper.py: data

    [OAIWrapper] defines [query] twice; the second definition, the one
    with tools, is the one the class ends up with, and the one embedded
    here. *)

(** [ChatCompletionMessageToolCall]: [id], [function.name],
    [function.arguments], three strings. *)
Record tool_call := ToolCall {
  tc_id : string;
  tc_name : string;
  tc_arguments : string
}.

(** An entry of [delta.tool_calls] in a streamed chunk, by its [id],
    its [function.name] and its [function.arguments], each of which may
    be [None]. *)
Record fragment := Fragment {
  frag_id : option string;
  frag_name : option string;
  frag_arguments : option string
}.

(** [chunk.choices[0]] *)
Record choice := Choice {
  delta_content : option string;
  choice_finish_reason : option string;
  delta_tool_calls : option (list fragment)
}.

(** A streamed chunk; [usage] is [Some total_tokens] when the chunk has a
    [usage] attribute that is not [None]. *)
Record chunk := Chunk {
  usage : option Z;
  choices : list choice
}.

(** A non-streamed [ChatCompletion], by [choices[0]] and [usage]. *)
Record completion := Completion {
  finish_reason : string;
  message_content : option string;
  message_tool_calls : list tool_call;
  usage_total_tokens : Z
}.

(** The entries of [api_args["messages"]]. *)
Inductive message :=
  | Msg (role content : string)
  | AssistantToolCalls (tool_calls : list tool_call)
  | ToolMessage (name : string) (tool_call_id : string) (content : string).

(** How a [query] generator ends when it does not end normally. *)
Inductive query_error :=
  | AssertionError                    (* assert call_limit >= 0 *)
  | ToolCallLimitExceeded             (* "Tool call limit exceeded" *)
  | ContextWindowExceeded             (* finish_reason == "length" *)
  | ContentFiltered                   (* finish_reason == "content_filter" *)
  | UnexpectedFinishReason (reason : option string)
  | Propagated (e : pyexc)            (* an exception nobody caught *)
  | CreateExhausted                   (* the script of [create] is used up *)
  | ValidationError.                  (* pydantic: Function(name=None) *)

(** A run of the generator: what it yielded, how it ended, and the
    mutable state it leaves: the conversation and the token counter. *)
Record run := Run {
  yielded : list (option string);
  raised : option query_error;
  messages : list message;
  tokens_consumed : option Z
}.

(** ** Token accounting *)

(** The plain streaming loop of [query] (lines 273-280): a usage total
    is assigned, a chunk without one counts as one token. [metrics] is
    [None] when there is no metrics object. *)
Definition count_plain (metrics : option Z) (c : chunk) : option Z :=
  match metrics with
  | None => None
  | Some tokens =>
      match usage c with
      | Some total_tokens => Some total_tokens
      | None => Some (tokens + 1)
      end
  end.

(** The same lines in [collect_response] (lines 188-195): a usage total
    is added with [+=]. *)
Definition count_collect (metrics : option Z) (c : chunk) : option Z :=
  match metrics with
  | None => None
  | Some tokens =>
      match usage c with
      | Some total_tokens => Some (tokens + total_tokens)
      | None => Some (tokens + 1)
      end
  end.

(** ** collect_response *)

(** The local variables of [collect_response]. *)
Record collector := Collector {
  result : list string;
  finish : option string;
  tool_calls : list tool_call;
  current_tool_id : option string;
  current_tool_name : option string;
  current_tool_args : list string
}.

Definition collector_init : collector :=
  {| result := []; finish := None; tool_calls := [];
     current_tool_id := None; current_tool_name := None;
     current_tool_args := [] |}.

(** [tool_calls.append(ChatCompletionMessageToolCall(id=current_tool_id,
    function=Function(arguments=''.join(current_tool_args),
    name=current_tool_name), type='function'))] behind
    [if current_tool_id:]. [Function] is a pydantic model whose [name] is
    a [str]: built with [name=None] it raises [ValidationError]. The id
    is a string that is not empty and the arguments are a joined string,
    so the other fields pass. *)
Definition flush (st : collector) : query_error + list tool_call :=
  match current_tool_id st with
  | Some i =>
      if truthy (Some i)
      then match current_tool_name st with
           | Some name =>
               inr (tool_calls st
                    ++ [ {| tc_id := i; tc_name := name;
                            tc_arguments := join (current_tool_args st) |} ])
           | None => inl ValidationError
           end
      else inr (tool_calls st)
  | None => inr (tool_calls st)
  end.

(** The body of [for tool_call in chunk.choices[0].delta.tool_calls or []]
    (lines 204-220). *)
Definition on_fragment (st : collector) (tool_call : fragment)
    : query_error + collector :=
  let after_id :=
    if truthy (frag_id tool_call) then
      match (if bool_decide (frag_id tool_call ≠ current_tool_id st)
             then flush st else inr (tool_calls st)) with
      | inl e => inl e
      | inr finished =>
          inr {| result := result st;
                 finish := finish st;
                 tool_calls := finished;
                 current_tool_id := frag_id tool_call;
                 current_tool_name := frag_name tool_call;
                 current_tool_args := [or_empty (frag_arguments tool_call)] |}
      end
    else inr st in
  match after_id with
  | inl e => inl e
  | inr st1 =>
      inr {| result := result st1;
             finish := finish st1;
             tool_calls := tool_calls st1;
             current_tool_id := current_tool_id st1;
             current_tool_name := py_or (current_tool_name st1) (frag_name tool_call);
             current_tool_args :=
               current_tool_args st1 ++ [or_empty (frag_arguments tool_call)] |}
  end.

(** A loop whose body may raise: the first exception ends it. *)
Fixpoint fold_err {S A E} (body : S → A → E + S) (st : S) (l : list A) : E + S :=
  match l with
  | [] => inr st
  | x :: rest =>
      match body st x with
      | inl e => inl e
      | inr st' => fold_err body st' rest
      end
  end.

(** The body of [if chunk.choices:] (lines 197-220). *)
Definition on_chunk (st : collector) (c : chunk) : query_error + collector :=
  match choices c with
  | [] => inr st
  | choice0 :: _ =>
      let st1 :=
        {| result := if truthy (delta_content choice0)
                     then result st ++ [or_empty (delta_content choice0)]
                     else result st;
           finish := py_or (finish st) (choice_finish_reason choice0);
           tool_calls := tool_calls st;
           current_tool_id := current_tool_id st;
           current_tool_name := current_tool_name st;
           current_tool_args := current_tool_args st |} in
      fold_err on_fragment st1 (default [] (delta_tool_calls choice0))
  end.

(** What [collect_response] returns first: the tool calls or the text. *)
Inductive collected :=
  | ToolCalls (calls : list tool_call)
  | Text (response : string).

(** [async for chunk in stream] (lines 187-220): the counter is charged
    for a chunk before the chunk is looked at, so that an exception
    leaves it charged for the chunks read so far. *)
Fixpoint collect_loop (stream : list chunk) (st : collector) (metrics : option Z)
    : (query_error + collector) * option Z :=
  match stream with
  | [] => (inr st, metrics)
  | c :: rest =>
      match on_chunk st c with
      | inl e => (inl e, count_collect metrics c)
      | inr st' => collect_loop rest st' (count_collect metrics c)
      end
  end.

(** [collect_response(stream)]: what it raises or returns, and the
    metrics counter it leaves. The open call is finalized (lines 222-230)
    before the finish reason is looked at. *)
Definition collect_response (stream : list chunk) (metrics : option Z)
    : (query_error + collected * option string) * option Z :=
  match collect_loop stream collector_init metrics with
  | (inl e, metrics') => (inl e, metrics')
  | (inr st, metrics') =>
      match flush st with
      | inl e => (inl e, metrics')
      | inr calls =>
          if bool_decide (finish st = Some "tool_calls")
          then (inr (ToolCalls calls, finish st), metrics')
          else (inr (Text (join (result st)), finish st), metrics')
      end
  end.

(** ** The plain streaming path *)

(** Lines 272-284: the chunks with content are yielded as they come. *)
Definition query_stream_plain (stream : list chunk) (msgs : list message)
    (metrics : option Z) : run :=
  {| yielded :=
       omap (λ c, match choices c with
                  | [] => None
                  | choice0 :: _ =>
                      if truthy (delta_content choice0)
                      then Some (delta_content choice0) else None
                  end) stream;
     raised := None;
     messages := msgs;
     tokens_consumed := foldl count_plain metrics stream |}.

(** ** The tool loop *)

(** [if call_limit is not None: if call_limit <= 0: raise ...;
    call_limit -= 1], once per turn of the [while] loop. *)
Definition spend (call_limit : option Z) : query_error + option Z :=
  match call_limit with
  | None => inr None
  | Some limit =>
      if bool_decide (limit ≤ 0) then inl ToolCallLimitExceeded
      else inr (Some (limit - 1))
  end.

(** [if call_limit is not None: assert call_limit >= 0] passes. *)
Definition limit_ok (call_limit : option Z) : bool :=
  match call_limit with
  | None => true
  | Some limit => bool_decide (0 ≤ limit)
  end.

Section Orchestrator.
(** [J]: parsed JSON arguments; [V]: values returned by tools. *)
Context {J V : Type}.

(** The surroundings of [query]: the standard library's
    [traceback.format_exception] and [json.loads]; the registered
    [tools], each already wrapped by [validate_call], and the [KeyError]
    that [tools[tool_name]] raises for a name that is not registered;
    [compile_to_string] of [wrapper_utils], which may raise on a tool's
    result and is taken to render the error payload, a dictionary of
    strings. *)
Variable format_exception : pyexc → string.
Variable json_loads : string → pyexc + J.
Variable tools : gmap string (J → pyexc + V).
Variable key_error : string → pyexc.
Variable compile_to_string : V → pyexc + string.
Variable compile_payload : error_payload → string.

(** The [try] block of [handle_tool_call] (lines 153-160). *)
Definition try_tool (tool_name : string) (tool_args : J) : pyexc + string :=
  match tools !! tool_name with
  | None => inl (key_error tool_name)
  | Some tool =>
      match tool tool_args with
      | inl e => inl e
      | inr tool_result => compile_to_string tool_result
      end
  end.

(** The [try] with its [except Exception] (lines 153-166). *)
Definition tool_result_str (tool_name : string) (tool_args : J) : string :=
  match try_tool tool_name tool_args with
  | inr s => s
  | inl e =>
      compile_payload
        {| RESULT := "Error, did not complete successfully";
           EXCEPTION_DETAILS := get_exception_details format_exception (Some e);
           STACK := get_stack_source_code (Some e) |}
  end.

(** [for tool_call in tool_calls] (lines 149-174): the arguments are
    parsed before the [try]; an exception of [json.loads] leaves the
    loop and the function. *)
Fixpoint tool_results (calls : list tool_call) (msgs : list message)
    : list message * option pyexc :=
  match calls with
  | [] => (msgs, None)
  | tool_call :: rest =>
      let tool_name := tc_name tool_call in
      match json_loads (tc_arguments tool_call) with
      | inl e => (msgs, Some e)
      | inr tool_args =>
          tool_results rest
            (msgs ++ [ToolMessage tool_name (tc_id tool_call)
                        (tool_result_str tool_name tool_args)])
      end
  end.

(** [handle_tool_call] up to its [return await self.create(...)]: the
    assistant message that echoes the requests, then the results. *)
Definition handle_tool_call (calls : list tool_call) (msgs : list message)
    : list message * option pyexc :=
  tool_results calls
    (msgs ++ [AssistantToolCalls
                ((λ x, {| tc_id := tc_id x; tc_name := tc_name x;
                          tc_arguments := tc_arguments x |}) <$> calls)]).

(** The [while finish_reason == 'tool_calls'] loop of the non-streaming
    path (lines 243-249). [script] holds the answers [self.create] will
    give next. *)
Fixpoint tool_loop (script : list completion) (response : completion)
    (call_limit : option Z) (msgs : list message)
    : list message * (query_error + completion) :=
  if bool_decide (finish_reason response = "tool_calls") then
    match spend call_limit with
    | inl e => (msgs, inl e)
    | inr call_limit' =>
        match handle_tool_call (message_tool_calls response) msgs with
        | (msgs', Some e) => (msgs', inl (Propagated e))
        | (msgs', None) =>
            match script with
            | [] => (msgs', inl CreateExhausted)
            | response' :: script' => tool_loop script' response' call_limit' msgs'
            end
        end
    end
  else (msgs, inr response).

(** The non-streaming path of [query] (lines 90-92 and 239-267). *)
Definition query_nostream (script : list completion) (call_limit : option Z)
    (msgs : list message) (metrics : option Z) : run :=
  let stop e m := {| yielded := []; raised := Some e; messages := m;
                     tokens_consumed := metrics |} in
  if negb (limit_ok call_limit) then stop AssertionError msgs
  else
    match script with
    | [] => stop CreateExhausted msgs
    | response :: script' =>
        match tool_loop script' response call_limit msgs with
        | (msgs', inl e) => stop e msgs'
        | (msgs', inr response) =>
            if bool_decide (finish_reason response = "length")
            then stop ContextWindowExceeded msgs'
            else if bool_decide (finish_reason response = "content_filter")
            then stop ContentFiltered msgs'
            else if bool_decide (finish_reason response = "stop"
                                 ∨ finish_reason response = "eos")
            then {| yielded := [message_content response];
                    raised := None;
                    messages := msgs';
                    tokens_consumed :=
                      (λ t, t + usage_total_tokens response) <$> metrics |}
            else stop (UnexpectedFinishReason (Some (finish_reason response))) msgs'
        end
    end.

(** The [while] loop of the streaming path with tools (lines 289-295). *)
Fixpoint tool_loop_stream (script : list (list chunk)) (response : collected)
    (reason : option string) (call_limit : option Z) (msgs : list message)
    (metrics : option Z)
    : list message * option Z * (query_error + (collected * option string)) :=
  if bool_decide (reason = Some "tool_calls") then
    match spend call_limit with
    | inl e => (msgs, metrics, inl e)
    | inr call_limit' =>
        let calls := match response with ToolCalls l => l | Text _ => [] end in
        match handle_tool_call calls msgs with
        | (msgs', Some e) => (msgs', metrics, inl (Propagated e))
        | (msgs', None) =>
            match script with
            | [] => (msgs', metrics, inl CreateExhausted)
            | stream :: script' =>
                match collect_response stream metrics with
                | (inl e, metrics') => (msgs', metrics', inl e)
                | (inr (response', reason'), metrics') =>
                    tool_loop_stream script' response' reason' call_limit' msgs'
                      metrics'
                end
            end
        end
    end
  else (msgs, metrics, inr (response, reason)).

(** The streaming path of [query] when tools were given (lines 90-92
    and 286-311). *)
Definition query_stream_tools (script : list (list chunk))
    (call_limit : option Z) (msgs : list message) (metrics : option Z) : run :=
  let stop e m t := {| yielded := []; raised := Some e; messages := m;
                       tokens_consumed := t |} in
  if negb (limit_ok call_limit) then stop AssertionError msgs metrics
  else
    match script with
    | [] => stop CreateExhausted msgs metrics
    | stream :: script' =>
        match collect_response stream metrics with
        | (inl e, metrics1) => stop e msgs metrics1
        | (inr (response, reason), metrics1) =>
            match tool_loop_stream script' response reason call_limit msgs metrics1 with
            | (msgs', metrics', inl e) => stop e msgs' metrics'
            | (msgs', metrics', inr (response, reason)) =>
                if bool_decide (reason = Some "length")
                then stop ContextWindowExceeded msgs' metrics'
                else if bool_decide (reason = Some "content_filter")
                then stop ContentFiltered msgs' metrics'
                else if bool_decide (reason = Some "stop" ∨ reason = Some "eos")
                then {| yielded := [match response with
                                    | Text s => Some s
                                    | ToolCalls _ => None
                                    end];
                        raised := None;
                        messages := msgs';
                        tokens_consumed := metrics' |}
                else stop (UnexpectedFinishReason reason) msgs' metrics'
            end
        end
    end.

End Orchestrator.

End OAI.

(** * Properties of the engine *)

Section EngineFacts.
Import Engine.

Lemma elem_of_insert_sorted {A} (key : A → Z) (a x : A) (l : list A) :
  x ∈ insert_sorted key a l ↔ x = a ∨ x ∈ l.
Proof.
  induction l as [|y l IH]; simpl.
  - rewrite elem_of_cons, elem_of_nil. tauto.
  - case_bool_decide.
    + rewrite !elem_of_cons. tauto.
    + rewrite !elem_of_cons, IH. tauto.
Qed.

Lemma elem_of_sorted {A} (key : A → Z) (x : A) (l : list A) :
  x ∈ sorted key l ↔ x ∈ l.
Proof.
  induction l as [|y l IH]; simpl; [done|].
  rewrite elem_of_insert_sorted, elem_of_cons, IH. tauto.
Qed.

(** The head of the sorted list has the least key. *)
Lemma insert_sorted_head {A} (key : A → Z) (a : A) (l : list A) (d : A) :
  (∀ x, x ∈ l → key (hd d l) ≤ key x) →
  ∀ x, x ∈ a :: l → key (hd d (insert_sorted key a l)) ≤ key x.
Proof.
  destruct l as [|y l]; simpl.
  - intros _ x Hx. apply list_elem_of_singleton in Hx. subst. lia.
  - intros Hmin x Hx. case_bool_decide; simpl.
    + apply elem_of_cons in Hx as [->|Hx]; [lia|].
      specialize (Hmin x Hx). lia.
    + apply elem_of_cons in Hx as [->|Hx]; [lia|]. by apply Hmin.
Qed.

Lemma sorted_head_min {A} (key : A → Z) (l : list A) (d : A) :
  ∀ x, x ∈ l → key (hd d (sorted key l)) ≤ key x.
Proof.
  induction l as [|a l IH]; intros x Hx.
  - inversion Hx.
  - simpl. apply insert_sorted_head.
    + intros y Hy. apply IH. by rewrite elem_of_sorted in Hy.
    + apply elem_of_cons in Hx as [->|Hx]; [left|right].
      by rewrite elem_of_sorted.
Qed.

Lemma select_wrapper_nil w st :
  _wrappers st = [] → select_wrapper w st = inl NoWrappersAvailable.
Proof. intros H. unfold select_wrapper. by rewrite H. Qed.

Lemma select_wrapper_inl w st err :
  select_wrapper w st = inl err →
  err = NoWrappersAvailable ∧ _wrappers st = [].
Proof.
  unfold select_wrapper. case_bool_decide as Hlen.
  - intros [= <-]. split; [done|]. by apply nil_length_inv.
  - destruct (sorted _ _) as [|b l] eqn:Hs; [|done].
    intros _. exfalso. destruct (_wrappers st) as [|x l']; [done|].
    assert (x ∈ sorted (next_allowed w) (x :: l')) as Hx
      by (apply elem_of_sorted; left).
    rewrite Hs in Hx. inversion Hx.
Qed.

Lemma select_wrapper_inr w st b :
  select_wrapper w st = inr b → b ∈ _wrappers st.
Proof.
  unfold select_wrapper. case_bool_decide; [done|].
  destruct (sorted _ _) as [|b' l] eqn:Hs; [done|].
  intros [= <-]. apply (elem_of_sorted (next_allowed w)). rewrite Hs. left.
Qed.

(** Selection takes the pooled backend with the least [next_allowed()]. *)
Lemma select_wrapper_least w st b :
  select_wrapper w st = inr b →
  ∀ b', b' ∈ _wrappers st → next_allowed w b ≤ next_allowed w b'.
Proof.
  intros Hsel b' Hb'. pose proof (sorted_head_min (next_allowed w) (_wrappers st) b b' Hb') as Hmin.
  unfold select_wrapper in Hsel. case_bool_decide; [done|].
  destruct (sorted _ _) as [|b0 l]; [done|]. simpl in Hmin. by injection Hsel as <-.
Qed.

(** ** One iteration of the retry loop *)

Lemma wrapper_loop_S M n ws i st last st' tr res :
  wrapper_loop M (S n) ws i st last = (st', tr, res) →
  (_wrappers st = [] ∧ st' = st ∧ tr = [] ∧ res = inl NoWrappersAvailable)
  ∨ (∃ sel, sel ∈ _wrappers st ∧ _backoffs st !! sel = None
        ∧ st' = st ∧ tr = [Select sel] ∧ res = inl (KeyError sel))
  ∨ (∃ sel k r, sel ∈ _wrappers st ∧ _backoffs st !! sel = Some k
        ∧ st' = record_success sel st
        ∧ tr = selected sel k ++ [Attempt sel (Returns r)] ∧ res = inr r)
  ∨ (∃ sel k e tr', sel ∈ _wrappers st ∧ _backoffs st !! sel = Some k
        ∧ wrapper_loop M n ws (S i) (record_failure M sel st) (Some e)
          = (st', tr', res)
        ∧ tr = selected sel k ++ Attempt sel (Raises e) :: tr').
Proof.
  simpl. destruct (select_wrapper (ws i) st) as [err|sel] eqn:Hsel.
  - apply select_wrapper_inl in Hsel as [-> Hnil]. intros [= <- <- <-]. by left.
  - apply select_wrapper_inr in Hsel.
    destruct (_backoffs st !! sel) as [k|] eqn:Hk.
    + destruct (invoke (ws i) sel) as [r|e].
      * intros [= <- <- <-]. right; right; left. by exists sel, k, r.
      * destruct (wrapper_loop M n ws (S i) _ _) as [[st1 tr1] res1] eqn:Hloop.
        intros [= <- <- <-]. right; right; right. by exists sel, k, e, tr1.
    + intros [= <- <- <-]. right; left. by exists sel.
Qed.

Lemma attempts_app tr1 tr2 : attempts (tr1 ++ tr2) = attempts tr1 ++ attempts tr2.
Proof. apply omap_app. Qed.

Lemma attempts_selected sel k : attempts (selected sel k) = [].
Proof. unfold selected. by case_bool_decide. Qed.

Lemma all_failed_selected sel k : all_failed (selected sel k).
Proof. unfold selected, all_failed. case_bool_decide; repeat constructor. Qed.

Lemma streak_selected b k0 sel k :
  foldl (streak_step b) k0 (selected sel k) = k0.
Proof. unfold selected. by case_bool_decide. Qed.

Lemma involves_selected b sel k :
  sel ≠ b → Forall (λ ev, ¬ involves b ev) (selected sel k).
Proof. intros ?. unfold selected. case_bool_decide; repeat constructor; done. Qed.

(** ** Attempts are bounded, and a success ends the call *)

Lemma wrapper_loop_attempts M n ws i st last st' tr res :
  wrapper_loop M n ws i st last = (st', tr, res) →
  (length (attempts tr) ≤ n)%nat.
Proof.
  revert i st last tr. induction n as [|n IH]; intros i st last tr.
  - intros [= <- <- <-]. done.
  - intros [(_ & _ & -> & _)|[(sel & _ & _ & _ & -> & _)
      |[(sel & k & r & _ & _ & _ & -> & _)|(sel & k & e & tr' & _ & _ & Hloop & ->)]]]%wrapper_loop_S.
    + simpl. lia.
    + simpl. lia.
    + rewrite attempts_app, attempts_selected. simpl. lia.
    + rewrite attempts_app, attempts_selected. simpl.
      apply IH in Hloop. lia.
Qed.

Lemma wrapper_loop_success M n ws i st last st' tr res :
  wrapper_loop M n ws i st last = (st', tr, res) →
  match res with
  | inr r => ∃ tr0 b, tr = tr0 ++ [Attempt b (Returns r)] ∧ all_failed tr0
                      ∧ _backoffs st' !! b = Some (-1)
  | inl _ => all_failed tr
  end.
Proof.
  revert i st last tr. induction n as [|n IH]; intros i st last tr.
  - intros [= <- <- <-]. constructor.
  - intros [(_ & _ & -> & ->)|[(sel & _ & _ & _ & -> & ->)
      |[(sel & k & r & _ & _ & -> & -> & ->)|(sel & k & e & tr' & _ & _ & Hloop & ->)]]]%wrapper_loop_S.
    + constructor.
    + repeat constructor.
    + exists (selected sel k), sel. split; [done|]. split; [apply all_failed_selected|].
      simpl. apply lookup_insert_eq.
    + apply IH in Hloop. destruct res as [err|r].
      * apply Forall_app. split; [apply all_failed_selected|].
        constructor; done.
      * destruct Hloop as (tr0 & b & -> & Hf & Hb).
        exists (selected sel k ++ Attempt sel (Raises e) :: tr0), b.
        split; [by rewrite <- app_assoc|]. split; [|done].
        apply Forall_app. split; [apply all_failed_selected|]. by constructor.
Qed.

(** ** Removal from the pool *)

Lemma elem_of_remove_first x b l : x ∈ remove_first b l → x ∈ l.
Proof.
  induction l as [|y l IH]; simpl; [done|].
  case_bool_decide; [by right|].
  intros [->|?]%elem_of_cons; [left|right; auto].
Qed.

Lemma elem_of_remove_first_ne x b l :
  x ≠ b → x ∈ l → x ∈ remove_first b l.
Proof.
  intros Hne. induction l as [|y l IH]; simpl; [done|].
  intros [->|Hx]%elem_of_cons.
  - rewrite bool_decide_eq_false_2 by done. left.
  - case_bool_decide; [done|]. right; auto.
Qed.

Lemma remove_first_NoDup b l : NoDup l → NoDup (remove_first b l) ∧ b ∉ remove_first b l.
Proof.
  induction 1 as [|y l Hy Hl [IH1 IH2]]; simpl.
  - split; [constructor|]. intros H. inversion H.
  - case_bool_decide as Hby; [subst; done|]. split.
    + constructor; [|done]. intros ?%elem_of_remove_first. done.
    + intros [->|?]%elem_of_cons; done.
Qed.

Lemma record_failure_wf M sel st :
  pool_wf st → pool_wf (record_failure M sel st).
Proof.
  intros [Hnd Hin]. unfold record_failure.
  destruct (_backoffs st !! sel) as [k|] eqn:Hk; [|done].
  case_bool_decide; split; simpl.
  - by apply remove_first_NoDup.
  - intros b Hb. destruct (decide (b = sel)) as [->|Hne].
    + by apply remove_first_NoDup in Hb.
    + rewrite lookup_delete_ne, lookup_insert_ne by done.
      apply Hin. by apply elem_of_remove_first in Hb.
  - done.
  - intros b Hb. destruct (decide (b = sel)) as [->|Hne].
    + rewrite lookup_insert_eq. by eexists.
    + rewrite lookup_insert_ne by done. by apply Hin.
Qed.

Lemma record_success_wf sel st : pool_wf st → pool_wf (record_success sel st).
Proof.
  intros [Hnd Hin]. split; [done|]. simpl. intros b Hb.
  destruct (decide (b = sel)) as [->|Hne].
  - rewrite lookup_insert_eq. by eexists.
  - rewrite lookup_insert_ne by done. by apply Hin.
Qed.

Lemma new_wf wrappers : NoDup wrappers → pool_wf (new wrappers).
Proof.
  intros Hnd. split; [done|]. simpl. intros b Hb.
  exists (-1). apply elem_of_list_to_map_1.
  - rewrite <- list_fmap_compose. simpl. by rewrite list_fmap_id.
  - apply list_elem_of_fmap. by exists b.
Qed.

Lemma wrapper_loop_wf M n ws i st last st' tr res :
  pool_wf st → wrapper_loop M n ws i st last = (st', tr, res) → pool_wf st'.
Proof.
  revert i st last tr. induction n as [|n IH]; intros i st last tr Hwf.
  - by intros [= <- <- <-].
  - intros [(_ & -> & _)|[(sel & _ & _ & -> & _)
      |[(sel & k & r & _ & _ & -> & _)|(sel & k & e & tr' & _ & _ & Hloop & _)]]]%wrapper_loop_S.
    + done.
    + done.
    + by apply record_success_wf.
    + eapply IH; [|exact Hloop]. by apply record_failure_wf.
Qed.

(** Every state an engine over distinct backends goes through is
    well formed. *)
Lemma call_wf M w0 ws st st' tr res :
  pool_wf st → call M w0 ws st = (st', tr, res) → pool_wf st'.
Proof.
  intros Hwf. unfold call, __getattr__, wrapper.
  destruct (select_wrapper w0 st) as [err|b0]; [by intros [= <- <- <-]|].
  destruct (iscoroutinefunction w0 b0); [|by intros [= <- <- <-]].
  destruct (wrapper_loop _ _ _ _ _ _) as [[st1 tr1] res1] eqn:Hloop.
  intros [= <- <- <-]. by eapply wrapper_loop_wf.
Qed.

(** ** When every attempt fails *)

Lemma wrapper_loop_exhausted M n ws i st last st' tr err :
  pool_wf st →
  wrapper_loop M n ws i st last = (st', tr, inl err) →
  (length (attempts tr) = n
     ∧ ((attempts tr = [] ∧ err = match last with
                                  | Some e => BackendError e
                                  | None => RaiseNone
                                  end)
        ∨ ∃ b e, list.last (attempts tr) = Some (b, Raises e)
                 ∧ err = BackendError e))
  ∨ (err = NoWrappersAvailable ∧ _wrappers st' = []
     ∧ (length (attempts tr) < n)%nat).
Proof.
  revert i st last tr. induction n as [|n IH]; intros i st last tr Hwf.
  - intros [= <- <- <-]. left. split; [done|]. by left.
  - intros [(Hnil & -> & -> & [= <-])|[(sel & Hsel & Hnone & _)
      |[(sel & k & r & _ & _ & _ & _ & [=])|(sel & k & e & tr' & _ & _ & Hloop & ->)]]]%wrapper_loop_S.
    + right. simpl. split; [done|]. split; [done|]. lia.
    + destruct Hwf as [_ Hin]. apply Hin in Hsel as [? Hsome]. congruence.
    + rewrite attempts_app, attempts_selected. simpl.
      apply IH in Hloop; [|by apply record_failure_wf].
      destruct Hloop as [[Hlen [[Hnil ->]|(b & e' & Hlast & ->)]]|(-> & Hempty & Hlen)].
      * left. split; [lia|]. right. exists sel, e. by rewrite Hnil.
      * left. split; [lia|]. right. exists b, e'. split; [|done].
        destruct (attempts tr'); [done|]. by rewrite last_cons_cons.
      * right. split; [done|]. split; [done|]. lia.
Qed.

(** ** The failure counter and eviction *)

Lemma quiet_after_app M b k tr1 tr2 :
  quiet_after M b k (tr1 ++ tr2) ↔
  quiet_after M b k tr1 ∧ quiet_after M b (foldl (streak_step b) k tr1) tr2.
Proof.
  revert k. induction tr1 as [|ev tr1 IH]; intros k; simpl.
  - tauto.
  - rewrite IH. tauto.
Qed.

Lemma quiet_after_selected M b k sel k' :
  (k = M → sel ≠ b) → quiet_after M b k (selected sel k').
Proof.
  intros Hne. unfold selected. case_bool_decide; simpl; tauto.
Qed.

Lemma quiet_after_reached M b tr :
  quiet_after M b M tr → Forall (λ ev, ¬ involves b ev) tr.
Proof.
  induction tr as [|ev tr IH]; simpl; [constructor|].
  intros [Hev Hrest]. specialize (Hev eq_refl). constructor; [done|].
  apply IH. destruct ev as [b'|b' k'|b' [r|e]|b' o]; simpl in *; try done;
    by rewrite bool_decide_eq_false_2 in Hrest.
Qed.

Lemma quiet_after_split M b k tr tr1 tr2 :
  quiet_after M b k tr → tr = tr1 ++ tr2 →
  foldl (streak_step b) k tr1 = M → Forall (λ ev, ¬ involves b ev) tr2.
Proof.
  intros Hq -> Hk. apply quiet_after_app in Hq as [_ Hq].
  rewrite Hk in Hq. by apply (quiet_after_reached M).
Qed.

Lemma tracked_pooled_ne M wrappers b k st sel :
  tracked M wrappers b k st → sel ∈ _wrappers st → k = M → sel ≠ b.
Proof. intros [(? & ? & ?)|(? & ? & ?)] ? ? ->; [lia|done]. Qed.

Lemma record_failure_tracked M wrappers κ st sel e :
  NoDup (_wrappers st) → sel ∈ _wrappers st →
  (∀ b, tracked M wrappers b (κ b) st) →
  NoDup (_wrappers (record_failure M sel st))
  ∧ ∀ b, tracked M wrappers b (streak_step b (κ b) (Attempt sel (Raises e)))
           (record_failure M sel st).
Proof.
  intros Hnd Hsel Htr. unfold record_failure.
  destruct (Htr sel) as [(_ & Hk & Hrange)|(? & _)]; [|done].
  rewrite Hk, lookup_insert_eq. case_bool_decide as HM; simpl.
  - split; [by apply remove_first_NoDup|]. intros b. unfold tracked. simpl.
    case_bool_decide as Hb.
    + subst b. right. split; [by apply remove_first_NoDup|].
      split; [apply lookup_delete_eq|]. intros _. congruence.
    + destruct (Htr b) as [(Hin & Hkb & ?)|(Hin & Hkb & ?)]; [left|right].
      * split; [by apply elem_of_remove_first_ne|].
        by rewrite lookup_delete_ne, lookup_insert_ne by done.
      * split; [by intros ?%elem_of_remove_first|].
        by rewrite lookup_delete_ne, lookup_insert_ne by done.
  - split; [done|]. intros b. unfold tracked. simpl. case_bool_decide as Hb.
    + subst b. left. rewrite lookup_insert_eq. split; [done|]. split; [done|].
      assert (κ sel + 1 ≠ M) by congruence. lia.
    + destruct (Htr b) as [(Hin & Hkb & ?)|(Hin & Hkb & ?)]; [left|right];
        by rewrite lookup_insert_ne by done.
Qed.

Lemma record_success_tracked M wrappers κ st sel r :
  sel ∈ _wrappers st → (∀ b, tracked M wrappers b (κ b) st) →
  ∀ b, tracked M wrappers b (streak_step b (κ b) (Attempt sel (Returns r)))
         (record_success sel st).
Proof.
  intros Hsel Htr b. unfold tracked. simpl. case_bool_decide as Hb.
  - subst b. destruct (Htr sel) as [(_ & Hk & Hrange)|(? & _)]; [|done].
    left. rewrite lookup_insert_eq. split; [done|]. split; [done|]. lia.
  - destruct (Htr b) as [(Hin & Hkb & ?)|(Hin & Hkb & ?)]; [left|right];
      simpl; by rewrite lookup_insert_ne by done.
Qed.

Lemma wrapper_loop_tracked M wrappers n ws i st last κ st' tr res :
  NoDup (_wrappers st) → (∀ b, tracked M wrappers b (κ b) st) →
  wrapper_loop M n ws i st last = (st', tr, res) →
  NoDup (_wrappers st')
  ∧ (∀ b, tracked M wrappers b (foldl (streak_step b) (κ b) tr) st')
  ∧ (∀ b, quiet_after M b (κ b) tr).
Proof.
  revert i st last κ tr. induction n as [|n IH]; intros i st last κ tr Hnd Htr.
  - intros [= <- <- <-]. done.
  - intros [(_ & -> & -> & _)|[(sel & Hsel & _ & -> & -> & _)
      |[(sel & k & r & Hsel & _ & -> & -> & _)|(sel & k & e & tr' & Hsel & _ & Hloop & ->)]]]%wrapper_loop_S.
    + done.
    + split; [done|]. split; [done|]. intros b. simpl. split; [|done].
      intros ?. eapply tracked_pooled_ne; eauto.
    + split; [done|]. split.
      * intros b. rewrite foldl_app, streak_selected.
        by apply record_success_tracked.
      * intros b. apply quiet_after_app. rewrite streak_selected. split.
        -- apply quiet_after_selected. intros ?. eapply tracked_pooled_ne; eauto.
        -- simpl. split; [|done]. intros ?. eapply tracked_pooled_ne; eauto.
    + destruct (record_failure_tracked M wrappers κ st sel e Hnd Hsel Htr)
        as [Hnd' Htr'].
      destruct (IH _ _ _ _ _ Hnd' Htr' Hloop) as (Hnd'' & Htr'' & Hq).
      split; [done|]. split.
      * intros b. rewrite foldl_app, streak_selected. apply Htr''.
      * intros b. apply quiet_after_app. rewrite streak_selected. split.
        -- apply quiet_after_selected. intros ?. eapply tracked_pooled_ne; eauto.
        -- simpl. split; [|apply Hq]. intros ?. eapply tracked_pooled_ne; eauto.
Qed.

Lemma call_tracked M wrappers w0 ws st κ st' tr res :
  NoDup (_wrappers st) → (∀ b, tracked M wrappers b (κ b) st) →
  call M w0 ws st = (st', tr, res) →
  NoDup (_wrappers st')
  ∧ (∀ b, tracked M wrappers b (foldl (streak_step b) (κ b) tr) st')
  ∧ (∀ b, quiet_after M b (κ b) tr).
Proof.
  intros Hnd Htr. unfold call, __getattr__, wrapper.
  destruct (select_wrapper w0 st) as [err|b0] eqn:Hsel.
  - intros [= <- <- <-]. done.
  - apply select_wrapper_inr in Hsel.
    destruct (iscoroutinefunction w0 b0).
    + destruct (wrapper_loop _ _ _ _ _ _) as [[st1 tr1] res1] eqn:Hloop.
      intros [= <- <- <-].
      destruct (wrapper_loop_tracked _ _ _ _ _ _ _ _ _ _ _ Hnd Htr Hloop)
        as (Hnd' & Htr' & Hq).
      split; [done|]. split; [done|]. intros b. simpl. split; [|apply Hq].
      intros ?. eapply tracked_pooled_ne; eauto.
    + intros [= <- <- <-]. split; [done|]. split; [done|].
      intros b. simpl. split; [|split; [|done]];
        intros ?; eapply tracked_pooled_ne; eauto.
Qed.

Lemma calls_tracked M wrappers cs st κ st' tr :
  NoDup (_wrappers st) → (∀ b, tracked M wrappers b (κ b) st) →
  calls M cs st = (st', tr) →
  NoDup (_wrappers st')
  ∧ (∀ b, tracked M wrappers b (foldl (streak_step b) (κ b) tr) st')
  ∧ (∀ b, quiet_after M b (κ b) tr).
Proof.
  revert st κ tr. induction cs as [|[w0 ws] cs IH]; intros st κ tr Hnd Htr; simpl.
  - intros [= <- <-]. done.
  - destruct (call M w0 ws st) as [[st1 tr1] res1] eqn:Hcall.
    destruct (calls M cs st1) as [st2 tr2] eqn:Hcalls.
    intros [= <- <-].
    destruct (call_tracked _ _ _ _ _ _ _ _ _ Hnd Htr Hcall) as (Hnd1 & Htr1 & Hq1).
    destruct (IH _ _ _ Hnd1 Htr1 Hcalls) as (Hnd2 & Htr2 & Hq2).
    split; [done|]. split.
    + intros b. rewrite foldl_app. apply Htr2.
    + intros b. apply quiet_after_app. split; [apply Hq1|apply Hq2].
Qed.

Lemma new_lookup wrappers b :
  _backoffs (new wrappers) !! b = if bool_decide (b ∈ wrappers) then Some (-1) else None.
Proof.
  simpl. case_bool_decide as Hb.
  - induction wrappers as [|a l IH]; [inversion Hb|]. simpl.
    destruct (decide (a = b)) as [->|Hne].
    + apply lookup_insert_eq.
    + rewrite lookup_insert_ne by done. apply IH.
      apply elem_of_cons in Hb as [->|?]; done.
  - apply not_elem_of_list_to_map. rewrite <- list_fmap_compose.
    simpl. by rewrite list_fmap_id.
Qed.

Lemma new_tracked M wrappers :
  0 ≤ M → ∀ b, tracked M wrappers b (-1) (new wrappers).
Proof.
  intros HM b. unfold tracked. rewrite new_lookup. simpl.
  case_bool_decide; [left|right]; split; try done. split; [done|lia].
Qed.

End EngineFacts.

(** * The engine: statements of the specification *)

Section EngineClaims.
Import Engine.

(** Worlds used to run the engine on concrete inputs. In [only b o]
    backend [b] is the one allowed first, the backend that is called
    answers with [o], and the operation is a coroutine function; in
    [handed_out b o] it is not. [script l] is the sequence of worlds that
    goes through [l] and then stays in [only 0 (Raises 7)]. *)
Definition only (b : backend) (o : outcome) : world :=
  {| next_allowed := λ b', if bool_decide (b' = b) then 0 else 1;
     invoke := λ _, o;
     iscoroutinefunction := λ _, true |}.

Definition handed_out (b : backend) (o : outcome) : world :=
  {| next_allowed := λ b', if bool_decide (b' = b) then 0 else 1;
     invoke := λ _, o;
     iscoroutinefunction := λ _, false |}.

Definition script (l : list world) : nat → world :=
  λ i, nth i l (only 0 (Raises 7)).

(** C2, as the code has it. For an engine built over pairwise distinct
    backends with a non-negative [max_retries], after any sequence of
    external calls that run one after another, none overlapping another,
    and for every backend [b] it was built with: the
    counter of [b] starts at -1; while [b] is pooled its counter is the
    streak that the attempts of the retry wrapper determine (one more per
    failed attempt, -1 after a success) and is below [max_retries]; [b]
    is out of the pool exactly when that streak has reached
    [max_retries], and then its backoff entry is gone with it; and from
    the point of the trace where the streak reached [max_retries] on, [b]
    is neither selected nor called again. *)
Theorem C2_eviction (M : Z) (wrappers : list backend)
    (cs : list (world * (nat → world))) (st : pool) (tr : list event) :
  0 ≤ M → NoDup wrappers → calls M cs (new wrappers) = (st, tr) →
  ∀ b, b ∈ wrappers →
    _backoffs (new wrappers) !! b = Some (-1)
    ∧ (b ∈ _wrappers st →
         _backoffs st !! b = Some (streak b tr) ∧ streak b tr < M)
    ∧ (b ∉ _wrappers st ↔ streak b tr = M)
    ∧ (b ∉ _wrappers st → _backoffs st !! b = None)
    ∧ (∀ tr1 tr2, tr = tr1 ++ tr2 → streak b tr1 = M →
         Forall (λ ev, ¬ involves b ev) tr2).
Proof.
  intros HM Hnd Hcalls b Hb.
  destruct (calls_tracked M wrappers cs (new wrappers) (λ _, -1) st tr
              Hnd (new_tracked M wrappers HM) Hcalls) as (_ & Htr & Hq).
  specialize (Htr b). specialize (Hq b). fold (streak b tr) in Htr.
  split; [|split; [|split; [|split]]].
  - rewrite new_lookup. by rewrite bool_decide_eq_true_2.
  - intros Hin. destruct Htr as [(_ & ? & ?)|(? & _)]; [|done]. split; [done|lia].
  - destruct Htr as [(? & _ & ?)|(? & _ & HbM)]; split; try done; try lia.
    intros _. by apply HbM.
  - intros Hout. by destruct Htr as [(? & _)|(_ & ? & _)].
  - intros tr1 tr2 Heq Hk. by apply (quiet_after_split M b (-1) tr tr1 tr2).
Qed.

Lemma C2_eviction_witness :
  0 ≤ 1 ∧ NoDup [0; 1]%nat
  ∧ (1 ∈ [0; 1])%nat
  ∧ (1%nat ∉ _wrappers
       (calls 1 [(only 1 (Raises 7), script [only 1 (Raises 7); only 1 (Raises 7)])]
          (new [0; 1]%nat)).1
     ↔ streak 1
         (calls 1 [(only 1 (Raises 7), script [only 1 (Raises 7); only 1 (Raises 7)])]
            (new [0; 1]%nat)).2 = 1).
Proof.
  assert (NoDup [0; 1]%nat) as Hnd by compute_done.
  assert ((1 ∈ [0; 1])%nat) as Hin by compute_done.
  split; [lia|]. split; [done|]. split; [done|].
  eapply (C2_eviction 1 [0; 1]%nat
            [(only 1 (Raises 7), script [only 1 (Raises 7); only 1 (Raises 7)])]);
    [lia|done| |done].
  by destruct (calls _ _ _).
Defined.

(** C2 fails for an engine built over a list that names one backend
    twice: with [max_retries = 0] the first failure brings the counter
    to [max_retries], [remove] takes one of the two occurrences and the
    backoff entry is deleted; the backend is still pooled, the next call
    selects it again and ends in a [KeyError]. And a failed call of an
    operation that is not a coroutine function does not go through the
    wrapper: the counter stays at -1. *)
Lemma C2_counterexample :
  call 0 (only 0 (Raises 7)) (script []) (new [0; 0]%nat)
    = ({| _wrappers := [0%nat]; _backoffs := ∅ |},
       [Select 0; Select 0; Attempt 0 (Raises 7)], inl (BackendError 7))
  ∧ streak 0 [Select 0; Select 0; Attempt 0 (Raises 7)] = 0
  ∧ (0%nat ∈ _wrappers {| _wrappers := [0%nat]; _backoffs := ∅ |})
  ∧ call 0 (only 0 (Raises 7)) (script []) {| _wrappers := [0%nat]; _backoffs := ∅ |}
    = ({| _wrappers := [0%nat]; _backoffs := ∅ |},
       [Select 0; Select 0], inl (KeyError 0))
  ∧ call 0 (handed_out 0 (Raises 7)) (script []) (new [0%nat])
    = (new [0%nat], [Select 0; Direct 0 (Raises 7)], inl (BackendError 7))
  ∧ _backoffs (new [0%nat]) !! 0%nat = Some (-1).
Proof.
  split; [by vm_compute|]. split; [done|]. split; [left|].
  split; [by vm_compute|]. split; by vm_compute.
Qed.

Lemma triple_eta {A B C} (x : A * B * C) : x = (x.1.1, x.1.2, x.2).
Proof. by destruct x as [[? ?] ?]. Qed.

Lemma first_attempt M n ws i st last st' tr res :
  pool_wf st → _wrappers st ≠ [] →
  wrapper_loop M (S n) ws i st last = (st', tr, res) → attempts tr ≠ [].
Proof.
  intros [_ Hin] Hne.
  intros [(? & _)|[(sel & Hsel & Hnone & _)
    |[(sel & k & r & _ & _ & _ & -> & _)|(sel & k & e & tr' & _ & _ & _ & ->)]]]%wrapper_loop_S.
  - done.
  - apply Hin in Hsel as [? ?]. congruence.
  - by rewrite attempts_app, attempts_selected.
  - by rewrite attempts_app, attempts_selected.
Qed.

(** Whether [__getattr__] hands out the retry wrapper. *)
Definition wrapped (w0 : world) (st : pool) : bool :=
  match __getattr__ w0 st with
  | inr (Retrying _) => true
  | _ => false
  end.

(** C3, as the code has it. For an external call that runs while no
    other call of the engine does, on an engine whose pooled backends are
    pairwise distinct and all have a backoff entry, with a non-negative
    [max_retries] and a pool that is not empty when the call starts: if
    every attempt of the call fails, there is a last attempt, and the call
    makes at most [max_retries + 1] of them. When [__getattr__] hands out
    the attribute of a backend as it is, there is one attempt, the call
    raises its exception, unchanged, and the pool is as before. When the
    call goes through the retry wrapper and makes all its
    [max_retries + 1] attempts, it raises the exception of the last one,
    unchanged; when it makes fewer, evictions have emptied the pool, and
    the call raises the no-wrappers-available error instead. *)
Theorem C3_last_error (M : Z) (w0 : world) (ws : nat → world)
    (st st' : pool) (tr : list event) (res : error + nat) :
  0 ≤ M → pool_wf st → _wrappers st ≠ [] →
  call M w0 ws st = (st', tr, res) → all_failed tr →
  ∃ b e, last (attempts tr) = Some (b, Raises e)
    ∧ (length (attempts tr) ≤ Z.to_nat (M + 1))%nat
    ∧ if wrapped w0 st
      then (length (attempts tr) = Z.to_nat (M + 1) →
            res = inl (BackendError e))
           ∧ ((length (attempts tr) < Z.to_nat (M + 1))%nat →
              _wrappers st' = [] ∧ res = inl NoWrappersAvailable)
      else length (attempts tr) = 1%nat ∧ res = inl (BackendError e) ∧ st' = st.
Proof.
  intros HM Hwf Hne. unfold wrapped, call, __getattr__, wrapper.
  destruct (select_wrapper w0 st) as [err|b0] eqn:Hsel.
  { by apply select_wrapper_inl in Hsel as [_ ?]. }
  destruct (iscoroutinefunction w0 b0).
  - destruct (wrapper_loop _ _ _ _ _ _) as [[st1 tr1] res1] eqn:Hloop.
    intros [= <- <- <-] Hfail.
    apply Forall_cons in Hfail as [_ Hfail].
    change (attempts (Select b0 :: tr1)) with (attempts tr1).
    destruct res1 as [err|r].
    + assert (attempts tr1 ≠ []) as Hsome.
      { destruct (Z.to_nat (M + 1)) as [|n] eqn:Hn; [lia|].
        by eapply first_attempt. }
      assert (∃ b e, last (attempts tr1) = Some (b, Raises e)) as (b & e & Hlast).
      { destruct (last (attempts tr1)) as [[b o]|] eqn:Hlast.
        - apply last_Some in Hlast as [l' Hl'].
          assert (Attempt b o ∈ tr1 ∨ Direct b o ∈ tr1) as Hin.
          { assert ((b, o) ∈ attempts tr1) as Hbo
              by (rewrite Hl'; apply elem_of_app; right; by left).
            apply list_elem_of_omap in Hbo as (ev & Hev & Heq).
            destruct ev; try done; injection Heq as -> ->; auto. }
          unfold all_failed in Hfail. rewrite Forall_forall in Hfail.
          destruct o as [r|e]; [|by eexists _, _].
          destruct Hin as [Hin|Hin]; by apply Hfail in Hin.
        - by apply last_None in Hlast. }
      exists b, e. split; [done|].
      destruct (wrapper_loop_exhausted _ _ _ _ _ _ _ _ _ Hwf Hloop)
        as [[Hlen [[Hnil _]|(b' & e' & Hlast' & ->)]]|(-> & Hempty & Hlen)].
      * done.
      * split; [lia|]. split; [|lia]. intros _. congruence.
      * split; [lia|]. split; [lia|]. done.
    + apply wrapper_loop_success in Hloop as (tr0 & b & -> & _ & _).
      apply Forall_app in Hfail as [_ Hfail].
      apply Forall_cons in Hfail as [[] _].
  - intros [= <- <- <-] Hfail.
    apply Forall_cons in Hfail as [_ Hfail].
    apply Forall_cons in Hfail as [Hfail _]. simpl in *.
    destruct (invoke (ws 0%nat) b0) as [r|e]; [done|].
    exists b0, e. split; [done|]. split; [lia|]. done.
Qed.

Lemma C3_last_error_witness :
  0 ≤ 1 ∧ pool_wf (new [0%nat]) ∧ _wrappers (new [0%nat]) ≠ []
  ∧ all_failed (call 1 (only 0 (Raises 7)) (script []) (new [0%nat])).1.2
  ∧ length (attempts (call 1 (only 0 (Raises 7)) (script []) (new [0%nat])).1.2)
    = Z.to_nat (1 + 1)
  ∧ (call 1 (only 0 (Raises 7)) (script []) (new [0%nat])).2
    = inl (BackendError 7).
Proof.
  assert (pool_wf (new [0%nat])) as Hwf by (apply new_wf; compute_done).
  assert (all_failed (call 1 (only 0 (Raises 7)) (script []) (new [0%nat])).1.2)
    as Hfail by (vm_compute; repeat constructor).
  split; [lia|]. split; [done|]. split; [done|]. split; [done|].
  split; [reflexivity|].
  destruct (C3_last_error 1 (only 0 (Raises 7)) (script []) (new [0%nat])
              _ _ _ ltac:(lia) Hwf ltac:(done) (triple_eta _) Hfail)
    as (b & e & Hlast & _ & Hcase).
  change (wrapped (only 0 (Raises 7)) (new [0%nat])) with true in Hcase.
  destruct Hcase as [Hall _]. rewrite (Hall eq_refl). f_equal. f_equal.
  vm_compute in Hlast. by injection Hlast as _ <-.
Defined.

(** C3 fails when evictions empty the pool in the middle of a call.
    Engine over backends 0 and 1, [max_retries = 1]. First call: backend
    0 fails, backend 1 succeeds. Second call: backend 0 fails again and
    is evicted, backend 1 fails. Third call: the pool holds backend 1,
    its one attempt fails with exception 8 and evicts it, the second
    selection finds the pool empty, and the call raises the
    no-wrappers-available error, not exception 8. *)
Lemma C3_counterexample :
  ∃ st1 st2 tr,
    (call 1 (only 0 (Raises 7)) (script [only 0 (Raises 7); only 1 (Returns 42)])
       (new [0; 1]%nat)).1.1 = st1
    ∧ (call 1 (only 0 (Raises 7)) (script [only 0 (Raises 7); only 1 (Raises 7)])
         st1).1.1 = st2
    ∧ _wrappers st2 = [1%nat]
    ∧ call 1 (only 1 (Raises 8)) (script [only 1 (Raises 8)]) st2
      = ({| _wrappers := []; _backoffs := ∅ |}, tr, inl NoWrappersAvailable)
    ∧ all_failed tr
    ∧ attempts tr = [(1%nat, Raises 8)]
    ∧ NoWrappersAvailable ≠ BackendError 8.
Proof.
  eexists _, _, _. split; [by vm_compute|]. split; [by vm_compute|].
  split; [done|]. split; [by vm_compute|].
  split; [repeat constructor|]. split; done.
Qed.

(** C8, as the code has it. With a non-negative [max_retries], an
    external call makes at most [max_retries + 1] backend attempts,
    whichever backends the attempts select. When the call returns a
    result, the attempt that returned it is the last event of the call
    and every attempt before it failed; when the call went through the
    retry wrapper, the counter of the backend that returned the result
    is back at the healthy -1; when [__getattr__] handed out the
    attribute of a backend as it is, the pool is as it was before the
    call. When the call raises, no attempt succeeded. *)
Theorem C8_attempts_bounded (M : Z) (w0 : world) (ws : nat → world)
    (st st' : pool) (tr : list event) (res : error + nat) :
  0 ≤ M → call M w0 ws st = (st', tr, res) →
  Z.of_nat (length (attempts tr)) ≤ M + 1
  ∧ match res with
    | inr r =>
        ∃ tr0 b, all_failed tr0
          ∧ if wrapped w0 st
            then tr = tr0 ++ [Attempt b (Returns r)]
                 ∧ _backoffs st' !! b = Some (-1)
            else tr = tr0 ++ [Direct b (Returns r)] ∧ st' = st
    | inl _ => all_failed tr
    end.
Proof.
  intros HM. unfold wrapped, call, __getattr__, wrapper.
  destruct (select_wrapper w0 st) as [err|b0] eqn:Hsel.
  { intros [= <- <- <-]. split; [simpl; lia|constructor]. }
  destruct (iscoroutinefunction w0 b0).
  - destruct (wrapper_loop _ _ _ _ _ _) as [[st1 tr1] res1] eqn:Hloop.
    intros [= <- <- <-]. split.
    + apply wrapper_loop_attempts in Hloop.
      change (attempts (Select b0 :: tr1)) with (attempts tr1). lia.
    + apply wrapper_loop_success in Hloop. destruct res1 as [err|r].
      * by constructor.
      * destruct Hloop as (tr0 & b & -> & Hf & Hb).
        exists (Select b0 :: tr0), b. split; [by constructor|done].
  - intros [= <- <- <-]. split; [simpl; lia|].
    destruct (invoke (ws 0%nat) b0) as [r|e].
    + exists [Select b0], b0. split; [repeat constructor|done].
    + repeat constructor.
Qed.

Lemma C8_attempts_bounded_witness :
  0 ≤ 1
  ∧ Z.of_nat (length (attempts
      (call 1 (only 0 (Raises 7)) (script [only 0 (Raises 7); only 1 (Returns 42)])
         (new [0; 1]%nat)).1.2)) ≤ 1 + 1
  ∧ (call 1 (only 0 (Raises 7)) (script [only 0 (Raises 7); only 1 (Returns 42)])
       (new [0; 1]%nat)).2 = inr 42%nat.
Proof.
  split; [lia|]. split; [|by vm_compute].
  apply (proj1 (C8_attempts_bounded 1 (only 0 (Raises 7))
                  (script [only 0 (Raises 7); only 1 (Returns 42)])
                  (new [0; 1]%nat) _ _ _ ltac:(lia) (triple_eta _))).
Defined.

(** C8 fails in its last part for an operation that is not a coroutine
    function, which [__getattr__] hands out without the wrapper. Engine
    over backends 0 and 1, [max_retries = 1]. First call, of a coroutine
    operation: backend 0 fails, backend 1 fails; both counters stand at
    0. Second call, of an operation that is not a coroutine function:
    backend 0 is selected and returns 42; its counter still stands at 0,
    not at -1. *)
Lemma C8_counterexample :
  ∃ st1,
    (call 1 (only 0 (Raises 7)) (script [only 0 (Raises 7); only 1 (Raises 7)])
       (new [0; 1]%nat)).1.1 = st1
    ∧ _wrappers st1 = [0; 1]%nat
    ∧ call 1 (handed_out 0 (Returns 42)) (script [handed_out 0 (Returns 42)]) st1
      = (st1, [Select 0; Direct 0 (Returns 42)], inr 42%nat)
    ∧ _backoffs st1 !! 0%nat = Some 0
    ∧ Some 0 ≠ Some (-1).
Proof.
  eexists. split; [by vm_compute|]. split; [done|]. split; [by vm_compute|].
  split; [by vm_compute|done].
Qed.

(** C9. When the list of pooled backends is empty, [select_wrapper]
    raises the no-wrappers-available error. An external call on an empty
    pool raises it with no event at all, so with no backend attempt, and
    leaves the pool as it was; the same holds at any later selection of
    the retry loop, whatever exception was captured before. The error is
    none of the backend errors, and it carries none. *)
Theorem C9_empty_pool (M : Z) (w0 : world) (ws : nat → world) (st : pool) :
  _wrappers st = [] →
  select_wrapper w0 st = inl NoWrappersAvailable
  ∧ call M w0 ws st = (st, [], inl NoWrappersAvailable)
  ∧ attempts (call M w0 ws st).1.2 = []
  ∧ (∀ n i last_exception,
       wrapper_loop M (S n) ws i st last_exception
       = (st, [], inl NoWrappersAvailable))
  ∧ (∀ e, NoWrappersAvailable ≠ BackendError e).
Proof.
  intros Hnil. pose proof (select_wrapper_nil w0 st Hnil) as Hsel.
  split; [done|]. unfold call, __getattr__. rewrite Hsel.
  split; [done|]. split; [done|].
  split; [|done]. intros n i last. simpl. by rewrite (select_wrapper_nil _ _ Hnil).
Qed.

Lemma C9_empty_pool_witness :
  _wrappers (new []) = []
  ∧ call 3 (only 0 (Raises 7)) (script []) (new [])
    = (new [], [], inl NoWrappersAvailable).
Proof.
  split; [done|]. by apply (C9_empty_pool 3 (only 0 (Raises 7)) (script []) (new [])).
Defined.

End EngineClaims.

(** * Keyword arguments and the hook chain: statements of the specification *)

Section PartitionFacts.
Context {V : Type}.
Implicit Types (kwargs : gmap string V) (k : string) (v : V).

Lemma upper_char_fixed c : is_alpha c = false → upper_char c = c.
Proof.
  unfold is_alpha, upper_char. intros [Hl _]%orb_false_elim. by rewrite Hl.
Qed.

Lemma no_alpha_upper k : no_alpha k = true → upper k = k.
Proof.
  induction k as [|c k IH]; simpl; [done|].
  intros [Hc Hk]%andb_true_iff. apply negb_true_iff in Hc.
  by rewrite upper_char_fixed, IH.
Qed.

Lemma prompt_args_lookup kwargs k v :
  prompt_args kwargs !! k = Some v ↔ kwargs !! k = Some v ∧ k = upper k.
Proof. unfold prompt_args. by rewrite map_lookup_filter_Some. Qed.

Lemma api_args_lookup kwargs k v :
  api_args kwargs !! k = Some v ↔ kwargs !! k = Some v ∧ k ≠ upper k.
Proof. unfold api_args. by rewrite map_lookup_filter_Some. Qed.

(** The two parts share no key, and merged they are the mapping. *)
Lemma partition_disjoint kwargs k v v' :
  prompt_args kwargs !! k = Some v → api_args kwargs !! k = Some v' → False.
Proof.
  intros [_ ?]%prompt_args_lookup [_ ?]%api_args_lookup. done.
Qed.

Lemma merge_partition kwargs :
  dict_merge (prompt_args kwargs) (api_args kwargs) = kwargs.
Proof.
  unfold dict_merge. apply map_eq. intros k. apply option_eq. intros v.
  rewrite lookup_union_Some_raw, api_args_lookup, prompt_args_lookup.
  split.
  - intros [[? _]|[_ [? _]]]; done.
  - intros Hk. destruct (decide (k = upper k)) as [Heq|Hne].
    + right. split; [|done]. apply eq_None_not_Some. intros [v' Hv'].
      apply api_args_lookup in Hv' as [_ ?]. done.
    + by left.
Qed.

Lemma upper_char_lower c : is_lower c = true → upper_char c ≠ c.
Proof.
  unfold upper_char. intros Hl. rewrite Hl. intros Heq.
  apply (f_equal nat_of_ascii) in Heq.
  unfold is_lower in Hl. apply andb_true_iff in Hl as [H1 H2].
  apply Nat.leb_le in H1, H2.
  rewrite nat_ascii_embedding in Heq by lia. lia.
Qed.

Lemma upper_char_not_lower c : is_lower (upper_char c) = false.
Proof.
  unfold upper_char. destruct (is_lower c) eqn:Hl; [|done].
  unfold is_lower in *. apply andb_true_iff in Hl as [H1 H2].
  apply Nat.leb_le in H1, H2.
  rewrite nat_ascii_embedding by lia.
  apply andb_false_iff. left. apply Nat.leb_gt. lia.
Qed.

Lemma upper_fixed_iff k : k = upper k ↔ no_lower k = true.
Proof.
  induction k as [|c k IH]; simpl; [done|].
  rewrite andb_true_iff, negb_true_iff, <- IH. split.
  - intros [= Hc Hk]. split; [|done].
    destruct (is_lower c) eqn:Hl; [|done].
    by apply upper_char_lower in Hl.
  - intros [Hl <-]. f_equal. unfold upper_char. by rewrite Hl.
Qed.

Lemma no_lower_upper k : no_lower (upper k) = true.
Proof.
  induction k as [|c k IH]; simpl; [done|].
  by rewrite upper_char_not_lower, IH.
Qed.

Lemma no_alpha_no_lower k : no_alpha k = true → no_lower k = true.
Proof.
  induction k as [|c k IH]; simpl; [done|].
  intros [Hc Hk]%andb_true_iff. rewrite IH by done.
  unfold is_alpha in Hc. apply negb_true_iff, orb_false_elim in Hc as [-> _]. done.
Qed.

(** ** The partition, with [str.upper] as it is on every name *)

Section AnyUpper.
(** [str_upper] stands for [str.upper]; on ASCII names it is [upper]. *)
Variable str_upper : string → string.
Hypothesis str_upper_ascii : ∀ k, is_ascii k = true → str_upper k = upper k.

Lemma prompt_args_by_lookup kwargs k v :
  prompt_args_by str_upper kwargs !! k = Some v
  ↔ kwargs !! k = Some v ∧ k = str_upper k.
Proof. unfold prompt_args_by. by rewrite map_lookup_filter_Some. Qed.

Lemma api_args_by_lookup kwargs k v :
  api_args_by str_upper kwargs !! k = Some v
  ↔ kwargs !! k = Some v ∧ k ≠ str_upper k.
Proof. unfold api_args_by. by rewrite map_lookup_filter_Some. Qed.

Lemma merge_partition_by kwargs :
  dict_merge (prompt_args_by str_upper kwargs) (api_args_by str_upper kwargs)
  = kwargs.
Proof.
  unfold dict_merge. apply map_eq. intros k. apply option_eq. intros v.
  rewrite lookup_union_Some_raw, api_args_by_lookup, prompt_args_by_lookup.
  split.
  - intros [[? _]|[_ [? _]]]; done.
  - intros Hk. destruct (decide (k = str_upper k)) as [Heq|Hne].
    + right. split; [|done]. apply eq_None_not_Some. intros [v' Hv'].
      apply api_args_by_lookup in Hv' as [_ ?]. done.
    + by left.
Qed.

(** C10, as the code has it. A keyword of the mapping is a prompt
    argument exactly when its name equals its own upper-cased form, and an
    api argument exactly when it does not, whatever the name; it is never
    both, and the two groups merged are the mapping. This is the partition
    of [_hook_all_args] and of [OAIWrapper.query] alike. For a name made
    of ASCII characters, it is a prompt argument exactly when it has no
    lower-case letter; so an ASCII name with no letter in it is a prompt
    argument and not an api argument. *)
Theorem C10_partition kwargs k v :
  kwargs !! k = Some v →
  (prompt_args_by str_upper kwargs !! k = Some v ↔ k = str_upper k)
  ∧ (api_args_by str_upper kwargs !! k = Some v ↔ k ≠ str_upper k)
  ∧ (prompt_args_by str_upper kwargs !! k = None
     ∨ api_args_by str_upper kwargs !! k = None)
  ∧ dict_merge (prompt_args_by str_upper kwargs) (api_args_by str_upper kwargs)
    = kwargs
  ∧ (is_ascii k = true →
     (prompt_args_by str_upper kwargs !! k = Some v ↔ no_lower k = true)
     ∧ (api_args_by str_upper kwargs !! k = Some v ↔ no_lower k = false)
     ∧ (no_alpha k = true →
        prompt_args_by str_upper kwargs !! k = Some v
        ∧ api_args_by str_upper kwargs !! k = None)).
Proof.
  intros Hk.
  assert (k ≠ str_upper k → prompt_args_by str_upper kwargs !! k = None) as Hp.
  { intros Hne. apply eq_None_not_Some. intros [v' Hv'].
    by apply prompt_args_by_lookup in Hv' as [_ ?]. }
  assert (k = str_upper k → api_args_by str_upper kwargs !! k = None) as Ha.
  { intros Heq. apply eq_None_not_Some. intros [v' Hv'].
    by apply api_args_by_lookup in Hv' as [_ ?]. }
  rewrite prompt_args_by_lookup, api_args_by_lookup.
  split; [tauto|]. split; [tauto|]. split; [|split; [apply merge_partition_by|]].
  - destruct (decide (k = str_upper k)); [right|left]; auto.
  - intros Hascii. rewrite (str_upper_ascii k Hascii) in *.
    rewrite upper_fixed_iff. split; [tauto|]. split.
    + destruct (no_lower k); split; intros; try done; tauto.
    + intros Hna%no_alpha_no_lower. split; [done|].
      apply Ha. by apply upper_fixed_iff.
Qed.

End AnyUpper.

End PartitionFacts.

(** The keys ["123"] and ["_"] have no letter: both are prompt arguments;
    ["QUERY"] is one too, ["temperature"] is an api argument. *)
Definition sample_kwargs : gmap string Z :=
  {[ "123" := 1; "_" := 2; "QUERY" := 3; "temperature" := 4 ]}.

Lemma C10_partition_witness :
  (∀ k, is_ascii k = true → upper k = upper k)
  ∧ sample_kwargs !! "123" = Some 1
  ∧ is_ascii "123" = true ∧ no_alpha "123" = true
  ∧ prompt_args_by upper sample_kwargs !! "123" = Some 1
  ∧ api_args_by upper sample_kwargs !! "123" = None.
Proof.
  split; [done|]. split; [reflexivity|]. split; [reflexivity|].
  split; [reflexivity|].
  apply (C10_partition upper (λ k _, eq_refl) sample_kwargs "123" 1 eq_refl);
    reflexivity.
Defined.

(** The key [ⅰ], SMALL ROMAN NUMERAL ONE (U+2170), in UTF-8 the bytes
    E2 85 B0: it has no alphabetic character ([isalpha] is false of it),
    and [str.upper] takes it to [Ⅰ] (U+2160), the bytes E2 85 A0. *)
Definition small_roman_one : string :=
  String (ascii_of_nat 226) (String (ascii_of_nat 133)
    (String (ascii_of_nat 176) EmptyString)).

Definition roman_one : string :=
  String (ascii_of_nat 226) (String (ascii_of_nat 133)
    (String (ascii_of_nat 160) EmptyString)).

(** An upper-casing that is [str.upper] on ASCII names and on [ⅰ]. *)
Definition upper_roman (k : string) : string :=
  if bool_decide (k = small_roman_one) then roman_one else upper k.

(** C10 fails in its consequence for a name outside ASCII: the key [ⅰ]
    has no alphabetic character and differs from its upper-cased form, so
    that it is an api argument and not a prompt argument. *)
Lemma C10_counterexample :
  (∀ k, is_ascii k = true → upper_roman k = upper k)
  ∧ no_alpha small_roman_one = true
  ∧ is_ascii small_roman_one = false
  ∧ small_roman_one ≠ upper_roman small_roman_one
  ∧ api_args_by upper_roman ({[ small_roman_one := 1 ]} : gmap string Z)
      !! small_roman_one = Some 1
  ∧ prompt_args_by upper_roman ({[ small_roman_one := 1 ]} : gmap string Z)
      !! small_roman_one = None.
Proof.
  split.
  - intros k Hk. unfold upper_roman. case_bool_decide as Heq; [|done].
    by rewrite Heq in Hk.
  - repeat split; by vm_compute.
Qed.

Example partition_sample :
  prompt_args sample_kwargs = {[ "123" := 1; "_" := 2; "QUERY" := 3 ]}
  ∧ api_args sample_kwargs = {[ "temperature" := 4 ]}
  ∧ no_alpha "_" = true ∧ no_alpha "123" = true.
Proof. repeat split; by vm_compute. Qed.

Section HookChain.
Import Decorator.
Context {V R : Type}.
Implicit Types (kwargs : gmap string V) (op : operation).

Lemma default_hook_args kwargs :
  _hook_all_args (R:=R) hook_query kwargs = kwargs.
Proof. unfold _hook_all_args. simpl. apply merge_partition. Qed.

Lemma default_layer (inner : surface (V:=V) (R:=R)) op kwargs :
  query hook_query inner op kwargs
  = (kwargs :: (inner op kwargs).1, (inner op kwargs).2).
Proof.
  unfold query. rewrite default_hook_args.
  destruct (inner op kwargs) as [below [e|r]]; done.
Qed.

Lemma default_layer_stream (inner : stream_surface (V:=V)) kwargs :
  query_stream (R:=R) hook_query inner kwargs
  = (kwargs :: (inner kwargs).1, (inner kwargs).2).
Proof.
  unfold query_stream. rewrite default_hook_args.
  destruct (inner kwargs) as [below [chunks [e|]]]; done.
Qed.

(** C7. A chain of any depth of decorators with the default hook,
    stacked on a backend, answers as the backend called directly with the
    same mapping does, result or exception; each of its layers delegates
    once, with the mapping it was given, so the backend is reached once;
    the partition of a mapping into prompt and api arguments followed by
    the default merge gives the mapping back. The same holds of the
    streaming operation. *)
Theorem C7_hook_chain_identity (depth : nat)
    (backend : operation → gmap string V → exn + R)
    (stream_backend : gmap string V → list string * option stream_exn) op kwargs :
  dict_merge (prompt_args kwargs) (api_args kwargs) = kwargs
  ∧ chain depth (unwrapped backend) op kwargs
    = (replicate depth kwargs, backend op kwargs)
  ∧ chain_stream (R:=R) depth (unwrapped_stream stream_backend) kwargs
    = (replicate depth kwargs, stream_backend kwargs).
Proof.
  split; [apply merge_partition|]. split.
  - induction depth as [|d IH]; simpl; [done|].
    by rewrite default_layer, IH.
  - induction depth as [|d IH]; simpl; [done|].
    by rewrite default_layer_stream, IH.
Qed.

End HookChain.

(** * The orchestrator: statements of the specification *)

Section Aggregation.
Import OAI.

(** The double quote character, and the argument text [{"x":1}]. *)
Definition dq : string := String "034"%char EmptyString.
Definition x_is_1 : string := "{" +:+ dq +:+ "x" +:+ dq +:+ ":1}".

Definition tool_chunk (reason : option string) (f : fragment) : chunk :=
  {| usage := None;
     choices := [ {| delta_content := None; choice_finish_reason := reason;
                     delta_tool_calls := Some [f] |} ] |}.

(** The stream of the specification's example: two fragments, both with
    id ["a"], carrying [{"x":1] and then [}]. *)
Definition same_id_stream : list chunk :=
  [ tool_chunk None
      {| frag_id := Some "a"; frag_name := Some "f";
         frag_arguments := Some ("{" +:+ dq +:+ "x" +:+ dq +:+ ":1") |};
    tool_chunk (Some "tool_calls")
      {| frag_id := Some "a"; frag_name := Some "f";
         frag_arguments := Some "}" |} ].

(** The same call streamed the way the id is sent once: the first
    fragment has the id and no argument text, the next ones have no id. *)
Definition id_once_stream : list chunk :=
  [ tool_chunk None
      {| frag_id := Some "a"; frag_name := Some "f"; frag_arguments := Some "" |};
    tool_chunk None
      {| frag_id := None; frag_name := None;
         frag_arguments := Some ("{" +:+ dq +:+ "x" +:+ dq +:+ ":1") |};
    tool_chunk (Some "tool_calls")
      {| frag_id := None; frag_name := None; frag_arguments := Some "}" |} ].

(** A fragment with no id only appends its argument text. *)
Lemma on_fragment_no_id st f :
  truthy (frag_id f) = false →
  on_fragment st f
  = inr {| result := result st; finish := finish st; tool_calls := tool_calls st;
           current_tool_id := current_tool_id st;
           current_tool_name := py_or (current_tool_name st) (frag_name f);
           current_tool_args :=
             current_tool_args st ++ [or_empty (frag_arguments f)] |}.
Proof. intros H. unfold on_fragment. by rewrite H. Qed.

(** A fragment with an id that is not the current one finalizes the
    open accumulator first; its own argument text then enters the new
    accumulator twice. *)
Lemma on_fragment_new_id st f finished :
  truthy (frag_id f) = true → frag_id f ≠ current_tool_id st →
  flush st = inr finished →
  ∃ st', on_fragment st f = inr st'
         ∧ tool_calls st' = finished
         ∧ current_tool_id st' = frag_id f
         ∧ current_tool_name st' = py_or (frag_name f) (frag_name f)
         ∧ current_tool_args st'
           = [or_empty (frag_arguments f); or_empty (frag_arguments f)].
Proof.
  intros H Hne Hflush. unfold on_fragment. rewrite H.
  rewrite bool_decide_eq_true_2 by done. rewrite Hflush. by eexists.
Qed.

(** A fragment that repeats the current id starts the accumulator over:
    the argument text gathered so far is dropped. *)
Lemma on_fragment_same_id st f :
  truthy (frag_id f) = true → frag_id f = current_tool_id st →
  ∃ st', on_fragment st f = inr st'
         ∧ tool_calls st' = tool_calls st
         ∧ current_tool_args st'
           = [or_empty (frag_arguments f); or_empty (frag_arguments f)].
Proof.
  intros H Heq. unfold on_fragment. rewrite H.
  rewrite bool_decide_eq_false_2 by (by intros ?). by eexists.
Qed.

Example id_once_reconstructs :
  collect_response id_once_stream None
  = (inr (ToolCalls [ {| tc_id := "a"; tc_name := "f"; tc_arguments := x_is_1 |} ],
          Some "tool_calls"), None).
Proof. by vm_compute. Qed.

(** C1, on the code. The two fragments of the specification's example,
    both with id a, the first carrying the text of [x_is_1] without its
    closing brace and the second the closing brace, are collected into
    one call, and its argument text is two closing braces, not
    [x_is_1]: the second fragment, having an id, starts the accumulator
    over, and its text is entered twice. *)
Theorem C1_same_id_fragments :
  collect_response same_id_stream None
  = (inr (ToolCalls [ {| tc_id := "a"; tc_name := "f"; tc_arguments := "}}" |} ],
          Some "tool_calls"), None)
  ∧ "}}" ≠ x_is_1.
Proof. split; by vm_compute. Qed.

(** ** Token accounting *)

Definition usage_chunk (total_tokens : option Z) : chunk :=
  {| usage := total_tokens; choices := [] |}.

(** In the plain streaming path a usage total replaces the estimate and
    a chunk without usage adds one. *)
Lemma count_plain_spec tokens total cs :
  count_plain (Some tokens) {| usage := Some total; choices := cs |} = Some total
  ∧ count_plain (Some tokens) {| usage := None; choices := cs |} = Some (tokens + 1).
Proof. done. Qed.

(** C6, on the code. In the plain streaming path a chunk with a usage
    total sets the counter to that total and a chunk without usage adds
    one. In [collect_response], the path with tools, a chunk without
    usage adds one as well, but a usage total is added to the counter
    and does not replace it: after two chunks without usage and one with
    a total of 10, the plain path stands at 10 and the path with tools
    at 12. *)
Theorem C6_token_accounting :
  (∀ tokens total cs,
     count_plain (Some tokens) {| usage := Some total; choices := cs |}
       = Some total
     ∧ count_plain (Some tokens) {| usage := None; choices := cs |}
       = Some (tokens + 1)
     ∧ count_collect (Some tokens) {| usage := Some total; choices := cs |}
       = Some (tokens + total)
     ∧ count_collect (Some tokens) {| usage := None; choices := cs |}
       = Some (tokens + 1))
  ∧ tokens_consumed
      (query_stream_plain [usage_chunk None; usage_chunk None; usage_chunk (Some 10)]
         [] (Some 0)) = Some 10
  ∧ (collect_response [usage_chunk None; usage_chunk None; usage_chunk (Some 10)]
       (Some 0)).2 = Some 12.
Proof. split; [done|]. split; by vm_compute. Qed.

End Aggregation.

Section ToolLoop.
Import OAI.
Context {J V : Type}.
Variable format_exception : pyexc → string.
Variable json_loads : string → pyexc + J.
Variable tools : gmap string (J → pyexc + V).
Variable key_error : string → pyexc.
Variable compile_to_string : V → pyexc + string.
Variable compile_payload : error_payload → string.

Local Abbreviation try_tool := (try_tool tools key_error compile_to_string).
Local Abbreviation tool_result_str :=
  (tool_result_str format_exception tools key_error compile_to_string compile_payload).
Local Abbreviation tool_results :=
  (tool_results format_exception json_loads tools key_error compile_to_string
     compile_payload).
Local Abbreviation handle_tool_call :=
  (handle_tool_call format_exception json_loads tools key_error compile_to_string
     compile_payload).
Local Abbreviation tool_loop :=
  (tool_loop format_exception json_loads tools key_error compile_to_string
     compile_payload).
Local Abbreviation tool_loop_stream :=
  (tool_loop_stream format_exception json_loads tools key_error compile_to_string
     compile_payload).
Local Abbreviation query_nostream :=
  (query_nostream format_exception json_loads tools key_error compile_to_string
     compile_payload).
Local Abbreviation query_stream_tools :=
  (query_stream_tools format_exception json_loads tools key_error compile_to_string
     compile_payload).

(** The arguments of every call are JSON text. *)
Definition parses (calls : list tool_call) : Prop :=
  Forall (λ tc, ∃ a, json_loads (tc_arguments tc) = inr a) calls.

(** [m] is the tool-result message for the call [tc]. *)
Definition answers (tc : tool_call) (m : message) : Prop :=
  ∃ a, json_loads (tc_arguments tc) = inr a
       ∧ m = ToolMessage (tc_name tc) (tc_id tc) (tool_result_str (tc_name tc) a).

(** [ms] is what one round appends: the assistant message echoing the
    requested calls, then one tool-result message per call, in order. *)
Definition round (calls : list tool_call) (ms : list message) : Prop :=
  ∃ results, ms = AssistantToolCalls calls :: results
             ∧ Forall2 answers calls results.

Lemma echo_id (calls : list tool_call) :
  (λ x, {| tc_id := tc_id x; tc_name := tc_name x;
           tc_arguments := tc_arguments x |}) <$> calls = calls.
Proof.
  induction calls as [|[] calls IH]; [done|].
  rewrite fmap_cons. simpl. f_equal. exact IH.
Qed.

Lemma tool_results_parses calls msgs :
  parses calls →
  ∃ results, Forall2 answers calls results
             ∧ tool_results calls msgs = (msgs ++ results, None).
Proof.
  intros Hp. revert msgs. induction Hp as [|tc calls [a Ha] _ IH]; intros msgs.
  - exists []. split; [constructor|]. simpl. by rewrite app_nil_r.
  - simpl. rewrite Ha. destruct (IH (msgs ++ [ToolMessage (tc_name tc) (tc_id tc)
                                               (tool_result_str (tc_name tc) a)]))
      as (results & Hres & ->).
    eexists (_ :: results). split.
    + constructor; [by exists a|done].
    + by rewrite <- app_assoc.
Qed.

Lemma handle_tool_call_round calls msgs :
  parses calls →
  ∃ ms, round calls ms ∧ handle_tool_call calls msgs = (msgs ++ ms, None).
Proof.
  intros Hp. unfold OAI.handle_tool_call. rewrite echo_id.
  destruct (tool_results_parses calls (msgs ++ [AssistantToolCalls calls]) Hp)
    as (results & Hres & ->).
  exists (AssistantToolCalls calls :: results). split; [by exists results|].
  by rewrite <- app_assoc.
Qed.

(** ** The loop, one turn at a time *)

Lemma tool_loop_done script response call_limit msgs :
  finish_reason response ≠ "tool_calls" →
  tool_loop script response call_limit msgs = (msgs, inr response).
Proof. intros H. destruct script; simpl; by rewrite bool_decide_eq_false_2. Qed.

Lemma tool_loop_exceeded script response call_limit msgs e :
  finish_reason response = "tool_calls" → spend call_limit = inl e →
  tool_loop script response call_limit msgs = (msgs, inl e).
Proof.
  intros H Hs. destruct script; simpl; by rewrite bool_decide_eq_true_2, Hs.
Qed.

Lemma tool_loop_round script response response' call_limit call_limit' msgs :
  finish_reason response = "tool_calls" → spend call_limit = inr call_limit' →
  parses (message_tool_calls response) →
  ∃ ms, round (message_tool_calls response) ms
        ∧ tool_loop (response' :: script) response call_limit msgs
          = tool_loop script response' call_limit' (msgs ++ ms).
Proof.
  intros H Hs Hp.
  destruct (handle_tool_call_round _ msgs Hp) as (ms & Hround & Hh).
  exists ms. split; [done|]. simpl.
  by rewrite bool_decide_eq_true_2, Hs, Hh.
Qed.

Lemma tool_loop_stream_done script response reason call_limit msgs metrics :
  reason ≠ Some "tool_calls" →
  tool_loop_stream script response reason call_limit msgs metrics
  = (msgs, metrics, inr (response, reason)).
Proof. intros H. destruct script; simpl; by rewrite bool_decide_eq_false_2. Qed.

Lemma tool_loop_stream_exceeded script response call_limit msgs metrics e :
  spend call_limit = inl e →
  tool_loop_stream script response (Some "tool_calls") call_limit msgs metrics
  = (msgs, metrics, inl e).
Proof. intros Hs. destruct script; simpl; by rewrite Hs. Qed.

Lemma tool_loop_stream_round script stream calls call_limit call_limit' msgs metrics :
  spend call_limit = inr call_limit' → parses calls →
  ∃ ms, round calls ms
        ∧ tool_loop_stream (stream :: script) (ToolCalls calls) (Some "tool_calls")
            call_limit msgs metrics
          = match collect_response stream metrics with
            | (inl e, metrics') => (msgs ++ ms, metrics', inl e)
            | (inr (response', reason'), metrics') =>
                tool_loop_stream script response' reason' call_limit' (msgs ++ ms)
                  metrics'
            end.
Proof.
  intros Hs Hp.
  destruct (handle_tool_call_round _ msgs Hp) as (ms & Hround & Hh).
  exists ms. split; [done|]. simpl. by rewrite Hs, Hh.
Qed.

Lemma spend_positive limit :
  0 < limit → spend (Some limit) = inr (Some (limit - 1)).
Proof. intros H. unfold spend. by rewrite bool_decide_eq_false_2 by lia. Qed.

Lemma spend_exhausted limit :
  limit ≤ 0 → spend (Some limit) = inl ToolCallLimitExceeded.
Proof. intros H. unfold spend. by rewrite bool_decide_eq_true_2. Qed.





(** Any number of turns that ask for tools, then one that does not: the
    loop carries out as many rounds as the budget has units, and ends
    with the last turn when the budget covers all of them. *)
Lemma tool_loop_budget (turns : list completion) (final : completion) :
  Forall (λ r, finish_reason r = "tool_calls" ∧ parses (message_tool_calls r)) turns →
  finish_reason final ≠ "tool_calls" →
  ∀ limit msgs r script, 0 ≤ limit → r :: script = turns ++ [final] →
    ∃ rounds,
      Forall2 round (message_tool_calls <$> take (Z.to_nat limit) turns) rounds
      ∧ tool_loop script r (Some limit) msgs
        = (msgs ++ concat rounds,
           if bool_decide (Z.of_nat (length turns) ≤ limit) then inr final
           else inl ToolCallLimitExceeded).
Proof.
  intros Hturns Hfinal.
  induction Hturns as [|t turns [Ht Hp] _ IH]; intros limit msgs r script Hl Heq.
  - injection Heq as -> ->. exists []. split.
    + rewrite take_nil. constructor.
    + rewrite tool_loop_done by done. simpl concat. rewrite app_nil_r.
      by rewrite bool_decide_eq_true_2 by (simpl length; lia).
  - injection Heq as -> ->. destruct (decide (limit = 0)) as [->|Hpos].
    + exists []. split; [constructor|].
      rewrite (tool_loop_exceeded _ _ _ _ ToolCallLimitExceeded) by done.
      simpl concat. rewrite app_nil_r.
      by rewrite bool_decide_eq_false_2 by (simpl length; lia).
    + destruct (turns ++ [final]) as [|r' script'] eqn:Hrest.
      { by destruct turns. }
      destruct (tool_loop_round script' t r' (Some limit) (Some (limit - 1)) msgs
                  Ht ltac:(apply spend_positive; lia) Hp) as (ms & Hround & ->).
      destruct (IH (limit - 1) (msgs ++ ms) r' script' ltac:(lia) eq_refl)
        as (rounds & Hrounds & ->).
      exists (ms :: rounds). split.
      * replace (Z.to_nat limit) with (S (Z.to_nat (limit - 1))) by lia.
        simpl. by constructor.
      * simpl concat. rewrite <- app_assoc. f_equal.
        destruct (decide (Z.of_nat (length turns) ≤ limit - 1)).
        -- by rewrite !bool_decide_eq_true_2 by (simpl length; lia).
        -- by rewrite !bool_decide_eq_false_2 by (simpl length; lia).
Qed.


(** C5, as the code has it. In a round all of whose calls have JSON
    arguments, no exception leaves [handle_tool_call]: every call gets
    its tool message, in order, and when looking the tool up, invoking it
    or rendering its result raises, the content of that message is the
    rendering of the error payload, which names the type of the
    exception, its text, its formatted traceback and the source of the
    frames of its stack. An exception of [json.loads] is not caught: the
    first call whose arguments are not JSON ends [handle_tool_call] with
    that exception, after the calls before it were answered. *)
Theorem C5_tool_errors (calls : list tool_call) (msgs : list message) :
  parses calls →
  (∃ results,
     handle_tool_call calls msgs
       = (msgs ++ AssistantToolCalls calls :: results, None)
     ∧ Forall2 (λ tc m, ∃ a,
         json_loads (tc_arguments tc) = inr a
         ∧ m = ToolMessage (tc_name tc) (tc_id tc)
                 match try_tool (tc_name tc) a with
                 | inr s => s
                 | inl e =>
                     compile_payload
                       {| RESULT := "Error, did not complete successfully";
                          EXCEPTION_DETAILS :=
                            Some {| ExceptionType := exc_type_name e;
                                    ExceptionValue := exc_value_str e;
                                    Traceback := format_exception e |};
                          STACK := get_stack_source_code (Some e) |}
                 end) calls results)
  ∧ (∀ name a, tools !! name = None →
       try_tool name a = inl (key_error name))
  ∧ (∀ name tool a e, tools !! name = Some tool → tool a = inl e →
       try_tool name a = inl e)
  ∧ (∀ name tool a r e, tools !! name = Some tool → tool a = inr r →
       compile_to_string r = inl e → try_tool name a = inl e)
  ∧ (∀ tc rest e, json_loads (tc_arguments tc) = inl e →
       ∃ results,
         handle_tool_call (calls ++ tc :: rest) msgs
           = (msgs ++ AssistantToolCalls (calls ++ tc :: rest) :: results, Some e)
         ∧ Forall2 answers calls results).
Proof.
  intros Hp. split; [|split; [|split; [|split]]].
  - destruct (handle_tool_call_round calls msgs Hp) as (ms & (results & -> & Hres) & ->).
    exists results. split; [done|].
    eapply Forall2_impl; [exact Hres|]. intros tc m (a & Ha & ->). exists a.
    split; [done|]. unfold OAI.tool_result_str. by destruct (try_tool _ _).
  - intros name a Hname. unfold OAI.try_tool. by rewrite Hname.
  - intros name tool a e Htool He. unfold OAI.try_tool. simpl. by rewrite Htool, He.
  - intros name tool a r e Htool Hr He. unfold OAI.try_tool. simpl.
    by rewrite Htool, Hr.
  - intros tc rest e He.
    assert (∀ start, ∃ results,
              tool_results (calls ++ tc :: rest) start = (start ++ results, Some e)
              ∧ Forall2 answers calls results) as Hgen.
    { induction Hp as [|tc0 calls0 [a Ha] _ IH]; intros start.
      - exists []. simpl. rewrite He, app_nil_r. split; [done|constructor].
      - simpl. rewrite Ha.
        destruct (IH (start ++ [ToolMessage (tc_name tc0) (tc_id tc0)
                                  (tool_result_str (tc_name tc0) a)]))
          as (results & -> & Hres).
        eexists (_ :: results). rewrite <- app_assoc. split; [done|].
        constructor; [by exists a|done]. }
    unfold OAI.handle_tool_call. rewrite echo_id.
    destruct (Hgen (msgs ++ [AssistantToolCalls (calls ++ tc :: rest)]))
      as (results & -> & Hres).
    exists results. split; [by rewrite <- app_assoc|done].
Qed.

End ToolLoop.

(** ** The tool loop on a concrete conversation *)

Section Samples.
Import OAI.

(** Surroundings to run [query] in: ["{}"] is the only JSON text; the
    tool [echo] returns its arguments, the tool [boom] raises a
    [ValueError]; results are rendered as they are, and an error payload
    as its RESULT text followed by the type of the exception. *)
Definition json_error : pyexc := PyExc "JSONDecodeError" "Expecting value" [].

Definition sample_loads (s : string) : pyexc + string :=
  if bool_decide (s = "{}") then inr s else inl json_error.

Definition value_error : pyexc :=
  PyExc "ValueError" "boom" [TbFrame "boom" "sample.py" 3 None].

Definition sample_tools : gmap string (string → pyexc + string) :=
  {[ "echo" := λ a, inr a; "boom" := λ _, inl value_error ]}.

Definition sample_key_error (name : string) : pyexc :=
  PyExc "KeyError" name [].

Definition sample_format (e : pyexc) : string :=
  exc_type_name e +:+ ": " +:+ exc_value_str e.

Definition sample_compile (v : string) : pyexc + string := inr v.

Definition sample_payload (p : error_payload) : string :=
  match EXCEPTION_DETAILS p with
  | Some d => RESULT p +:+ ": " +:+ ExceptionType d
  | None => RESULT p
  end.

(** A first turn asking for two calls, a second asking for a tool that
    is not registered, a third that stops. *)
Definition calls1 : list tool_call :=
  [ToolCall "1" "echo" "{}"; ToolCall "2" "boom" "{}"].

Definition calls2 : list tool_call := [ToolCall "3" "missing" "{}"].

Definition turn (calls : list tool_call) : completion :=
  {| finish_reason := "tool_calls"; message_content := None;
     message_tool_calls := calls; usage_total_tokens := 5 |}.

Definition last_turn : completion :=
  {| finish_reason := "stop"; message_content := Some "done";
     message_tool_calls := []; usage_total_tokens := 7 |}.

(** The same turns as streams: the id comes once, with no argument
    text, then the arguments, then the finish reason. *)
Definition stream_of (i name : string) : list chunk :=
  [ tool_chunk None
      {| frag_id := Some i; frag_name := Some name; frag_arguments := Some "" |};
    tool_chunk (Some "tool_calls")
      {| frag_id := None; frag_name := None; frag_arguments := Some "{}" |} ].

Definition last_stream : list chunk :=
  [ {| usage := None;
       choices := [ {| delta_content := Some "done";
                       choice_finish_reason := Some "stop";
                       delta_tool_calls := None |} ] |} ].

Local Abbreviation run_plain :=
  (query_nostream sample_format sample_loads sample_tools sample_key_error
     sample_compile sample_payload).
Local Abbreviation run_streamed :=
  (query_stream_tools sample_format sample_loads sample_tools sample_key_error
     sample_compile sample_payload).

Lemma sample_parses calls :
  Forall (λ tc, tc_arguments tc = "{}") calls → parses sample_loads calls.
Proof.
  unfold parses. intros H. eapply Forall_impl; [exact H|].
  simpl. intros tc ->. by exists "{}".
Qed.

Example sample_round :
  handle_tool_call sample_format sample_loads sample_tools sample_key_error
    sample_compile sample_payload calls1 []
  = ([ AssistantToolCalls calls1;
       ToolMessage "echo" "1" "{}";
       ToolMessage "boom" "2"
         "Error, did not complete successfully: ValueError" ], None).
Proof. by vm_compute. Qed.


Lemma C5_tool_errors_witness :
  parses sample_loads calls1
  ∧ ∃ results,
      handle_tool_call sample_format sample_loads sample_tools sample_key_error
        sample_compile sample_payload calls1 []
      = ([] ++ AssistantToolCalls calls1 :: results, None)
      ∧ length results = length calls1.
Proof.
  assert (parses sample_loads calls1) as Hp1
    by (apply sample_parses; repeat constructor).
  split; [done|].
  destruct (C5_tool_errors sample_format sample_loads sample_tools
              sample_key_error sample_compile sample_payload calls1 [] Hp1)
    as [(results & Heq & Hres) _].
  exists results. split; [done|]. symmetry. by eapply Forall2_length.
Defined.

(** C5 fails for a call whose arguments are not JSON: [json.loads] is
    called before the [try], its exception leaves [handle_tool_call]
    after the assistant message was appended and before any tool message
    is, and [query] ends with that exception. *)
Lemma C5_counterexample :
  handle_tool_call sample_format sample_loads sample_tools sample_key_error
    sample_compile sample_payload [ToolCall "9" "echo" "oops"] []
  = ([AssistantToolCalls [ToolCall "9" "echo" "oops"]], Some json_error)
  ∧ run_plain [turn [ToolCall "9" "echo" "oops"]; last_turn] None [] (Some 0)
    = {| yielded := []; raised := Some (Propagated json_error);
         messages := [AssistantToolCalls [ToolCall "9" "echo" "oops"]];
         tokens_consumed := Some 0 |}.
Proof. split; by vm_compute. Qed.


(** With [call_limit = 1] the same three turns end in the limit error
    after the first round, in both paths. *)
Example sample_limit_one :
  raised (run_plain [turn calls1; turn calls2; last_turn] (Some 1) [] (Some 0))
  = Some ToolCallLimitExceeded
  ∧ raised (run_streamed
              [stream_of "1" "echo"; stream_of "3" "missing"; last_stream]
              (Some 1) [] (Some 0)) = Some ToolCallLimitExceeded.
Proof. split; by vm_compute. Qed.

End Samples.

(** * More of the engine *)

Section EngineMore.
Import Engine.

Lemma sorted_nil_inv {A} (key : A → Z) (l : list A) : sorted key l = [] → l = [].
Proof.
  destruct l as [|a l]; [done|]. intros H.
  assert (a ∈ sorted key (a :: l)) as Ha by (apply elem_of_sorted; left).
  rewrite H in Ha. inversion Ha.
Qed.

(** The head of a stably sorted list is the first element of the list
    that has the least key. *)
Lemma sorted_head_first {A} (key : A → Z) (l : list A) (b : A) (rest : list A) :
  sorted key l = b :: rest →
  ∃ l1 l2, l = l1 ++ b :: l2
           ∧ (∀ x, x ∈ l1 → key b < key x) ∧ (∀ x, x ∈ l2 → key b ≤ key x).
Proof.
  revert b rest. induction l as [|a l IH]; intros b rest; [done|].
  simpl. destruct (sorted key l) as [|y r] eqn:Hs.
  - apply sorted_nil_inv in Hs as ->. simpl. intros [= <- <-].
    exists [], []. split; [done|]. split; intros x Hx; inversion Hx.
  - destruct (IH y r eq_refl) as (m1 & m2 & -> & Hm1 & Hm2).
    simpl. case_bool_decide as Hay.
    + intros [= <- <-]. exists [], (m1 ++ y :: m2). split; [done|].
      split; [intros x Hx; inversion Hx|].
      intros x [Hx|[->|Hx]%elem_of_cons]%elem_of_app.
      * specialize (Hm1 x Hx). lia.
      * done.
      * specialize (Hm2 x Hx). lia.
    + intros [= <- <-]. exists (a :: m1), m2. split; [done|]. split; [|done].
      intros x [->|Hx]%elem_of_cons; [lia|by apply Hm1].
Qed.

(** X1. [select_wrapper] answers with a pooled backend whenever the pool
    is not empty; the backend it answers with has the least
    [next_allowed()] of the pool, and of the backends with that least
    value it is the one that comes first in the pool. *)
Theorem X1_selection_order (w : world) (st : pool) :
  _wrappers st ≠ [] →
  ∃ b l1 l2,
    select_wrapper w st = inr b
    ∧ _wrappers st = l1 ++ b :: l2
    ∧ (∀ x, x ∈ l1 → next_allowed w b < next_allowed w x)
    ∧ (∀ x, x ∈ l2 → next_allowed w b ≤ next_allowed w x).
Proof.
  intros Hne. unfold select_wrapper.
  rewrite bool_decide_eq_false_2 by (by intros ?%nil_length_inv).
  destruct (sorted (next_allowed w) (_wrappers st)) as [|b rest] eqn:Hs.
  - by apply sorted_nil_inv in Hs.
  - destruct (sorted_head_first _ _ _ _ Hs) as (l1 & l2 & Heq & H1 & H2).
    by exists b, l1, l2.
Qed.

Lemma X1_selection_order_witness :
  _wrappers (new [3; 1; 2; 1]%nat) ≠ []
  ∧ ∃ b l1 l2,
      select_wrapper {| next_allowed := λ b, Z.of_nat (b mod 2);
                        invoke := λ _, Returns 0;
                        iscoroutinefunction := λ _, true |} (new [3; 1; 2; 1]%nat)
        = inr b
      ∧ _wrappers (new [3; 1; 2; 1]%nat) = l1 ++ b :: l2
      ∧ (∀ x, x ∈ l1 → Z.of_nat (b mod 2) < Z.of_nat (x mod 2))
      ∧ (∀ x, x ∈ l2 → Z.of_nat (b mod 2) ≤ Z.of_nat (x mod 2)).
Proof.
  split; [done|].
  by apply (X1_selection_order
              {| next_allowed := λ b, Z.of_nat (b mod 2);
                 invoke := λ _, Returns 0;
                 iscoroutinefunction := λ _, true |} (new [3; 1; 2; 1]%nat)).
Defined.

Example selection_sample :
  select_wrapper {| next_allowed := λ b, Z.of_nat (b mod 2);
                    invoke := λ _, Returns 0;
                    iscoroutinefunction := λ _, true |} (new [3; 1; 2; 1]%nat)
  = inr 2%nat.
Proof. by vm_compute. Qed.

Lemma calls_wf M cs st st' tr :
  pool_wf st → calls M cs st = (st', tr) → pool_wf st'.
Proof.
  revert st tr. induction cs as [|[w0 ws] cs IH]; intros st tr Hwf; simpl.
  - by intros [= <- <-].
  - destruct (call M w0 ws st) as [[st1 tr1] res1] eqn:Hcall.
    destruct (calls M cs st1) as [st2 tr2] eqn:Hcalls.
    intros [= <- <-]. eapply IH; [|exact Hcalls]. by eapply call_wf.
Qed.

(** X2. An engine built over pairwise distinct backends, with a
    non-negative [max_retries], stays well formed through any sequence of
    calls that run one after another, none overlapping another, and a
    call of the sequence that raises raises one of two things: the
    no-wrappers-available error, or the exception of one of the attempts
    the call made. It never ends in a [KeyError] on the backoff
    dictionary nor in [raise None]. *)
Theorem X2_errors_seen (M : Z) (wrappers : list backend)
    (cs : list (world * (nat → world))) (st st' : pool) (tr0 tr : list event)
    (w0 : world) (ws : nat → world) (err : error) :
  0 ≤ M → NoDup wrappers → calls M cs (new wrappers) = (st, tr0) →
  call M w0 ws st = (st', tr, inl err) →
  pool_wf st'
  ∧ (err = NoWrappersAvailable
     ∨ ∃ b e, (b, Raises e) ∈ attempts tr ∧ err = BackendError e).
Proof.
  intros HM Hnd Hcalls Hcall.
  assert (pool_wf st) as Hwf by (eapply calls_wf; [by apply new_wf|done]).
  split; [by eapply call_wf|].
  revert Hcall. unfold call, __getattr__, wrapper.
  destruct (select_wrapper w0 st) as [err0|b0] eqn:Hsel.
  { apply select_wrapper_inl in Hsel as [-> _]. intros [= <- <- <-]. by left. }
  destruct (iscoroutinefunction w0 b0).
  - destruct (wrapper_loop _ _ _ _ _ _) as [[st1 tr1] res1] eqn:Hloop.
    intros [= <- <- ->].
    change (attempts (Select b0 :: tr1)) with (attempts tr1).
    destruct (wrapper_loop_exhausted _ _ _ _ _ _ _ _ _ Hwf Hloop)
      as [[Hlen [[Hnil _]|(b & e & Hlast & Herr)]]|(Herr & _)].
    + rewrite Hnil in Hlen. simpl in Hlen. lia.
    + right. exists b, e. split; [|done].
      apply last_Some in Hlast as [l' ->]. apply elem_of_app. right. left.
    + by left.
  - destruct (invoke (ws 0%nat) b0) as [r|e] eqn:Hinv; [done|].
    intros [= <- <- <-]. right. exists b0, e. split; [|done].
    simpl. left.
Qed.

Lemma X2_errors_seen_witness :
  0 ≤ 1 ∧ NoDup [0; 1]%nat
  ∧ (call 1 (only 0 (Raises 7)) (script [only 0 (Raises 7); only 1 (Raises 8)])
       (new [0; 1]%nat)).2 = inl (BackendError 8)
  ∧ (BackendError 8 = NoWrappersAvailable
     ∨ ∃ b e,
         (b, Raises e)
           ∈ attempts (call 1 (only 0 (Raises 7))
                         (script [only 0 (Raises 7); only 1 (Raises 8)])
                         (new [0; 1]%nat)).1.2
         ∧ BackendError 8 = BackendError e).
Proof.
  assert (NoDup [0; 1]%nat) as Hnd by compute_done.
  split; [lia|]. split; [done|]. split; [by vm_compute|].
  apply (proj2 (X2_errors_seen 1 [0; 1]%nat [] (new [0; 1]%nat) _ [] _
                  (only 0 (Raises 7))
                  (script [only 0 (Raises 7); only 1 (Raises 8)])
                  (BackendError 8) ltac:(lia) Hnd eq_refl
                  ltac:(rewrite (triple_eta (call _ _ _ _)) at 1;
                          f_equal; by vm_compute))).
Defined.

(** X3. With a [max_retries] below zero the loop of the wrapper has no
    iteration: a call of a coroutine operation on a pool that is not
    empty selects once, in [__getattr__], calls no backend, leaves the
    pool as it is, and ends in [raise last_exception] with
    [last_exception] still [None]. *)
Theorem X3_negative_max_retries (M : Z) (w0 : world) (ws : nat → world)
    (st : pool) (b : backend) :
  M < 0 → select_wrapper w0 st = inr b → iscoroutinefunction w0 b = true →
  call M w0 ws st = (st, [Select b], inl RaiseNone).
Proof.
  intros HM Hsel Hco. unfold call, __getattr__, wrapper. rewrite Hsel, Hco.
  by replace (Z.to_nat (M + 1)) with 0%nat by lia.
Qed.

Lemma X3_negative_max_retries_witness :
  -1 < 0
  ∧ select_wrapper (only 0 (Returns 42)) (new [0%nat]) = inr 0%nat
  ∧ iscoroutinefunction (only 0 (Returns 42)) 0%nat = true
  ∧ call (-1) (only 0 (Returns 42)) (script []) (new [0%nat])
    = (new [0%nat], [Select 0], inl RaiseNone).
Proof.
  split; [lia|]. split; [by vm_compute|]. split; [done|].
  apply (X3_negative_max_retries (-1) (only 0 (Returns 42)) (script [])
           (new [0%nat]) 0%nat); [lia|by vm_compute|done].
Defined.





(** Every sleep of the trace that is about backend [b] has as exponent
    the counter [b] stands at, which is not negative. *)
Fixpoint sleeps_track (b : backend) (k : Z) (tr : list event) : Prop :=
  match tr with
  | [] => True
  | ev :: tr' =>
      match ev with
      | Sleep b' k' => b' = b → k' = k ∧ 0 ≤ k'
      | _ => True
      end
      ∧ sleeps_track b (streak_step b k ev) tr'
  end.

Lemma sleeps_track_app b k tr1 tr2 :
  sleeps_track b k (tr1 ++ tr2) ↔
  sleeps_track b k tr1 ∧ sleeps_track b (foldl (streak_step b) k tr1) tr2.
Proof.
  revert k. induction tr1 as [|ev tr1 IH]; intros k; simpl.
  - tauto.
  - rewrite IH. tauto.
Qed.

Lemma sleeps_track_selected M wrappers b κ st sel k :
  (∀ b, tracked M wrappers b (κ b) st) → _backoffs st !! sel = Some k →
  sleeps_track b (κ b) (selected sel k).
Proof.
  intros Htr Hk. unfold selected. case_bool_decide; simpl; [|done].
  split; [done|]. split; [|done]. intros <-.
  destruct (Htr sel) as [(_ & Hk' & _)|(_ & Hk' & _)]; [|congruence].
  split; [congruence|done].
Qed.

Lemma wrapper_loop_sleeps M wrappers n ws i st last κ st' tr res :
  NoDup (_wrappers st) → (∀ b, tracked M wrappers b (κ b) st) →
  wrapper_loop M n ws i st last = (st', tr, res) →
  ∀ b, sleeps_track b (κ b) tr.
Proof.
  revert i st last κ tr. induction n as [|n IH]; intros i st last κ tr Hnd Htr.
  - by intros [= <- <- <-].
  - intros [(_ & -> & -> & _)|[(sel & Hsel & _ & -> & -> & _)
      |[(sel & k & r & Hsel & Hk & -> & -> & _)|(sel & k & e & tr' & Hsel & Hk & Hloop & ->)]]]%wrapper_loop_S b.
    + done.
    + done.
    + apply sleeps_track_app. split; [by eapply sleeps_track_selected|done].
    + apply sleeps_track_app. split; [by eapply sleeps_track_selected|].
      rewrite streak_selected. simpl. split; [done|].
      destruct (record_failure_tracked M wrappers κ st sel e Hnd Hsel Htr)
        as [Hnd' Htr'].
      apply (IH _ _ _ _ _ Hnd' Htr' Hloop b).
Qed.

Lemma call_sleeps M wrappers w0 ws st κ st' tr res :
  NoDup (_wrappers st) → (∀ b, tracked M wrappers b (κ b) st) →
  call M w0 ws st = (st', tr, res) → ∀ b, sleeps_track b (κ b) tr.
Proof.
  intros Hnd Htr. unfold call, __getattr__, wrapper.
  destruct (select_wrapper w0 st) as [err|b0]; [by intros [= <- <- <-]|].
  destruct (iscoroutinefunction w0 b0); [|by intros [= <- <- <-]].
  destruct (wrapper_loop _ _ _ _ _ _) as [[st1 tr1] res1] eqn:Hloop.
  intros [= <- <- <-] b. simpl. split; [done|].
  by eapply wrapper_loop_sleeps.
Qed.

Lemma calls_sleeps M wrappers cs st κ st' tr :
  NoDup (_wrappers st) → (∀ b, tracked M wrappers b (κ b) st) →
  calls M cs st = (st', tr) → ∀ b, sleeps_track b (κ b) tr.
Proof.
  revert st κ tr. induction cs as [|[w0 ws] cs IH]; intros st κ tr Hnd Htr; simpl.
  - by intros [= <- <-].
  - destruct (call M w0 ws st) as [[st1 tr1] res1] eqn:Hcall.
    destruct (calls M cs st1) as [st2 tr2] eqn:Hcalls.
    intros [= <- <-] b.
    destruct (call_tracked _ _ _ _ _ _ _ _ _ Hnd Htr Hcall) as (Hnd1 & Htr1 & _).
    apply sleeps_track_app.
    split; [apply (call_sleeps M wrappers w0 ws st κ st1 tr1 res1 Hnd Htr Hcall b)|].
    apply (IH _ _ _ Hnd1 Htr1 Hcalls b).
Qed.

(** X5. For an engine built over pairwise distinct backends with a
    non-negative [max_retries], through any sequence of calls: the
    wrapper sleeps before calling a backend only when the counter of
    that backend is not negative, and the exponent of the delay is that
    counter, the number of failures of the backend since its last
    success (or since the engine was built) less one. A backend that has
    not failed since then is called without delay. *)
Theorem X5_backoff_exponent (M : Z) (wrappers : list backend)
    (cs : list (world * (nat → world))) (st : pool)
    (tr tr1 tr2 : list event) (b : backend) (k : Z) :
  0 ≤ M → NoDup wrappers → calls M cs (new wrappers) = (st, tr) →
  tr = tr1 ++ Sleep b k :: tr2 →
  k = streak b tr1 ∧ 0 ≤ k.
Proof.
  intros HM Hnd Hcalls ->.
  pose proof (calls_sleeps M wrappers cs (new wrappers) (λ _, -1) st _
                Hnd (new_tracked M wrappers HM) Hcalls b) as Hs.
  apply sleeps_track_app in Hs as [_ [Hs _]]. by apply Hs.
Qed.

Lemma X5_backoff_exponent_witness :
  0 ≤ 2 ∧ NoDup [0%nat]
  ∧ (calls 2 [(only 0 (Raises 7), script [])] (new [0%nat])).2
    = [Select 0; Select 0; Attempt 0 (Raises 7); Select 0; Sleep 0 0;
       Attempt 0 (Raises 7); Select 0]
      ++ Sleep 0 1 :: [Attempt 0 (Raises 7)]
  ∧ 1 = streak 0 [Select 0; Select 0; Attempt 0 (Raises 7); Select 0; Sleep 0 0;
                  Attempt 0 (Raises 7); Select 0]
  ∧ 0 ≤ 1.
Proof.
  assert (NoDup [0%nat]) as Hnd by compute_done.
  split; [lia|]. split; [done|].
  assert ((calls 2 [(only 0 (Raises 7), script [])] (new [0%nat])).2
          = [Select 0; Select 0; Attempt 0 (Raises 7); Select 0; Sleep 0 0;
             Attempt 0 (Raises 7); Select 0]
            ++ Sleep 0 1 :: [Attempt 0 (Raises 7)]) as Htr.
  { by vm_compute. }
  split; [done|].
  apply (X5_backoff_exponent 2 [0%nat] [(only 0 (Raises 7), script [])]
           (calls 2 [(only 0 (Raises 7), script [])] (new [0%nat])).1
           (calls 2 [(only 0 (Raises 7), script [])] (new [0%nat])).2
           _ _ 0%nat 1 ltac:(lia) Hnd
           ltac:(by destruct (calls _ _ _)) Htr).
Defined.

End EngineMore.

(** * Calls that overlap

    The coroutines of one engine share [_wrappers] and [_backoffs], and a
    call gives way to the others where it awaits: in [asyncio.sleep] (line
    107) and in [fn(...)] (line 116). Between two awaits a call runs
    alone. [Engine.call] is a call that no other call overlaps; here calls
    are resumed one await at a time, in any order. *)

Module Overlap.
Import Engine.

(** The exceptions of [Engine], and the [ValueError] of
    [_wrappers.remove(selection)] when the selection is not in the list. *)
Inductive error :=
  | Of (e : Engine.error)
  | ValueError.

(** Where a call of the retry wrapper stands: at the head of the loop
    with [n] iterations to go; suspended in [asyncio.sleep] or in
    [fn(...)] on its selection, with [n] iterations to go after this one;
    or ended. *)
Inductive task :=
  | Iterating (n : nat) (last_exception : option nat)
  | Sleeping (n : nat) (selection : backend) (last_exception : option nat)
  | Calling (n : nat) (selection : backend) (last_exception : option nat)
  | Ended (res : error + nat).

(** The wrapper when it is first awaited. *)
Definition start (max_retries : Z) : task :=
  Iterating (Z.to_nat (max_retries + 1)) None.

(** From the head of the loop to the next await (lines 104-116), or to
    [raise last_exception]. *)
Definition iterate (w : world) (n : nat) (last_exception : option nat) (st : pool)
    : task :=
  match n with
  | O => Ended (inl (Of (match last_exception with
                         | Some e => BackendError e
                         | None => RaiseNone
                         end)))
  | S n' =>
      match select_wrapper w st with
      | inl err => Ended (inl (Of err))
      | inr selection =>
          match _backoffs st !! selection with
          | None => Ended (inl (Of (KeyError selection)))
          | Some k =>
              if bool_decide (0 ≤ k) then Sleeping n' selection last_exception
              else Calling n' selection last_exception
          end
      end
  end.

(** The bookkeeping of the [except Exception] branch (lines 126-133);
    the flag tells that [_wrappers.remove(selection)] raised, which leaves
    the incremented counter behind. *)
Definition record_failure (max_retries : Z) (selection : backend) (st : pool)
    : pool * bool :=
  match _backoffs st !! selection with
  | None => (st, false)
  | Some k =>
      let backoffs := <[selection := k + 1]> (_backoffs st) in
      if bool_decide (backoffs !! selection = Some max_retries)
      then if bool_decide (selection ∈ _wrappers st)
           then ({| _wrappers := remove_first selection (_wrappers st);
                    _backoffs := delete selection backoffs |}, false)
           else ({| _wrappers := _wrappers st; _backoffs := backoffs |}, true)
      else ({| _wrappers := _wrappers st; _backoffs := backoffs |}, false)
  end.

(** A call is resumed and runs to its next await. [o] is what [fn(...)]
    comes to when the call was suspended there, [w] the world of the
    selection the call makes next. *)
Definition resume (max_retries : Z) (t : task) (o : outcome) (w : world) (st : pool)
    : pool * task :=
  match t with
  | Iterating n last_exception => (st, iterate w n last_exception st)
  | Sleeping n selection last_exception => (st, Calling n selection last_exception)
  | Calling n selection _ =>
      match o with
      | Returns r => (record_success selection st, Ended (inr r))
      | Raises e =>
          match record_failure max_retries selection st with
          | (st', true) => (st', Ended (inl ValueError))
          | (st', false) => (st', iterate w n (Some e) st')
          end
      end
  | Ended res => (st, Ended res)
  end.

(** The engine and the calls in progress; a schedule names the call that
    is resumed next, with what it is resumed. *)
Fixpoint run (max_retries : Z) (schedule : list (nat * outcome * world))
    (st : pool) (tasks : list task) : pool * list task :=
  match schedule with
  | [] => (st, tasks)
  | (i, o, w) :: schedule' =>
      match tasks !! i with
      | None => run max_retries schedule' st tasks
      | Some t =>
          let '(st', t') := resume max_retries t o w st in
          run max_retries schedule' st' (<[i := t']> tasks)
      end
  end.

(** A call that no other call overlaps: it is resumed until it ends,
    iteration [i] of its loop in world [ws i]. *)
Fixpoint alone (max_retries : Z) (ws : nat → world) (fuel : nat) (i : nat)
    (t : task) (st : pool) : pool * task :=
  match fuel with
  | O => (st, t)
  | S fuel' =>
      match t with
      | Iterating n last_exception =>
          alone max_retries ws fuel' i (iterate (ws i) n last_exception st) st
      | Sleeping n selection last_exception =>
          alone max_retries ws fuel' i (Calling n selection last_exception) st
      | Calling _ selection _ =>
          let '(st', t') :=
            resume max_retries t (invoke (ws i) selection) (ws (S i)) st in
          alone max_retries ws fuel' (S i) t' st'
      | Ended _ => (st, t)
      end
  end.

End Overlap.

Section OverlapFacts.
Import Engine Overlap.

Lemma record_failure_pooled M selection st :
  selection ∈ _wrappers st →
  Overlap.record_failure M selection st = (Engine.record_failure M selection st, false).
Proof.
  intros Hin. unfold Overlap.record_failure, Engine.record_failure.
  destruct (_backoffs st !! selection); [|done].
  case_bool_decide; [|done]. by rewrite bool_decide_eq_true_2.
Qed.

Lemma alone_ended M ws fuel i res st :
  alone M ws fuel i (Ended res) st = (st, Ended res).
Proof. by destruct fuel. Qed.

Lemma alone_iterating M ws fuel i n last_exception st :
  alone M ws (S fuel) i (Iterating n last_exception) st
  = alone M ws fuel i (iterate (ws i) n last_exception st) st.
Proof. done. Qed.

(** A call that runs alone is the call of [Engine]: resumed until it
    ends, the wrapper leaves the pool and comes to the result that
    [wrapper_loop] gives, and never to [ValueError]; three resumptions for
    each iteration are enough. *)
Lemma alone_wrapper_loop M ws n i st last_exception fuel :
  (3 * n + 1 ≤ fuel)%nat →
  alone M ws fuel i (Iterating n last_exception) st
  = ((wrapper_loop M n ws i st last_exception).1.1,
     Ended (match (wrapper_loop M n ws i st last_exception).2 with
            | inl e => inl (Of e)
            | inr r => inr r
            end)).
Proof.
  revert i st last_exception fuel.
  induction n as [|n IH]; intros i st last fuel Hfuel.
  - destruct fuel as [|fuel]; [lia|]. simpl. by rewrite alone_ended.
  - destruct fuel as [|fuel]; [lia|]. rewrite alone_iterating.
    cbn [iterate wrapper_loop].
    destruct (select_wrapper (ws i) st) as [err|sel] eqn:Hsel.
    { by rewrite alone_ended. }
    pose proof (select_wrapper_inr _ _ _ Hsel) as Hin.
    destruct (_backoffs st !! sel) as [k|] eqn:Hk.
    2: { by rewrite alone_ended. }
    assert (∃ fuel', (3 * n + 1 ≤ fuel')%nat
              ∧ alone M ws fuel i
                  (if bool_decide (0 ≤ k) then Sleeping n sel last
                   else Calling n sel last) st
                = alone M ws (S fuel') i (Calling n sel last) st)
      as (fuel' & Hfuel' & ->).
    { case_bool_decide.
      - destruct fuel as [|[|fuel']]; [lia|lia|]. exists fuel'. split; [lia|done].
      - destruct fuel as [|fuel']; [lia|]. exists fuel'. split; [lia|done]. }
    cbn [alone resume]. destruct (invoke (ws i) sel) as [r|e].
    + by rewrite alone_ended.
    + rewrite (record_failure_pooled M sel st Hin).
      rewrite <- alone_iterating, IH by lia.
      by destruct (wrapper_loop M n ws (S i) (Engine.record_failure M sel st) (Some e))
        as [[st1 tr1] res1].
Qed.

(** Backend 0 alone in the pool, [max_retries = 1], two calls. The
    first call fails once and sleeps; the second call selects backend 0
    and sleeps as well; the first call wakes, fails again, and backend 0
    is evicted. The second call then wakes and calls the backend that is
    no longer pooled, and its success puts a counter for it back. *)
Example overlap_called_after_eviction :
  ∃ w st tasks,
    run 1 [ (0%nat, Raises 7, w); (0%nat, Raises 7, w); (1%nat, Raises 7, w);
            (0%nat, Raises 7, w); (0%nat, Raises 7, w) ]
      (new [0%nat]) [start 1; start 1] = (st, tasks)
    ∧ _wrappers st = [] ∧ _backoffs st = ∅
    ∧ tasks = [Ended (inl (Of (BackendError 7))); Sleeping 1 0 None]
    ∧ run 1 [(1%nat, Raises 7, w)] st tasks
      = (st, [Ended (inl (Of (BackendError 7))); Calling 1 0 None])
    ∧ run 1 [(1%nat, Raises 7, w); (1%nat, Returns 42, w)] st tasks
      = ({| _wrappers := []; _backoffs := {[ 0%nat := -1 ]} |},
         [Ended (inl (Of (BackendError 7))); Ended (inr 42%nat)]).
Proof.
  exists {| next_allowed := λ _, 0; invoke := λ _, Raises 7;
            iscoroutinefunction := λ _, true |}.
  eexists _, _. split; [by vm_compute|]. repeat split; by vm_compute.
Qed.

(** Backend 0 alone in the pool, [max_retries = 0], three calls, all
    three suspended in their call of backend 0. The first fails, and
    backend 0 is evicted; the second succeeds, which puts a counter for
    backend 0 back; the third fails with exception 8, the counter reaches
    [max_retries], and [_wrappers.remove] raises [ValueError]: the one
    attempt of the third call failed, and the call raises neither its
    exception nor the no-wrappers-available error. *)
Example overlap_value_error :
  ∃ w,
    run 0 [ (0%nat, Raises 7, w); (1%nat, Raises 7, w); (2%nat, Raises 7, w) ]
      (new [0%nat]) [start 0; start 0; start 0]
    = (new [0%nat], [Calling 0 0 None; Calling 0 0 None; Calling 0 0 None])
    ∧ run 0 [ (0%nat, Raises 7, w); (1%nat, Returns 42, w); (2%nat, Raises 8, w) ]
        (new [0%nat]) [Calling 0 0 None; Calling 0 0 None; Calling 0 0 None]
      = ({| _wrappers := []; _backoffs := {[ 0%nat := 0 ]} |},
         [ Ended (inl (Of (BackendError 7))); Ended (inr 42%nat);
           Ended (inl ValueError) ]).
Proof.
  exists {| next_allowed := λ _, 0; invoke := λ _, Raises 7;
            iscoroutinefunction := λ _, true |}.
  split; by vm_compute.
Qed.

End OverlapFacts.

(** * llm_engine.py: the common type of the pooled backends *)

Module Ancestor.

(** Classes are known by their identity; [object] is one of them. *)
Definition class := nat.
Bind Scope nat_scope with class.
Definition object : class := 0%nat.

(** How [find_greatest_common_ancestor] ends when it raises. *)
Inductive error :=
  | ValueError                     (* "List of objects cannot be empty" *)
  | Raised (e : nat).              (* another exception, of some [get_type()] *)

(** A Python object as [get_type] sees it: whether it has a [get_type]
    attribute, and then what calling it gives, a class or an exception;
    and its [type]. *)
Record pyobject := PyObject {
  get_type_attr : option (error + class);
  type_of : class
}.

(** [get_type(obj)] *)
Definition get_type (obj : pyobject) : error + class :=
  match get_type_attr obj with
  | Some answer => answer
  | None => inr (type_of obj)
  end.

Section Hierarchy.
(** [cls.__mro__] of every class. *)
Variable mro : class → list class.

(** [get_mro_hierarchy] *)
Definition get_mro_hierarchy (cls : class) : list class := mro cls.

(** [[get_mro_hierarchy(get_type(obj)) for obj in objects]] *)
Fixpoint mros_of (objects : list pyobject) : error + list (list class) :=
  match objects with
  | [] => inr []
  | obj :: objects' =>
      match get_type obj with
      | inl e => inl e
      | inr cls =>
          match mros_of objects' with
          | inl e => inl e
          | inr mros => inr (get_mro_hierarchy cls :: mros)
          end
      end
  end.

(** [common_classes = set(mros[0])], then
    [common_classes.intersection_update(mro)] for the other ones. *)
Definition common_classes (mro0 : list class) (others : list (list class))
    : gset class :=
  foldl (λ common m, common ∩ list_to_set m) (list_to_set mro0) others.

(** [find_greatest_common_ancestor] *)
Definition find_greatest_common_ancestor (objects : list pyobject)
    : error + class :=
  if bool_decide (objects = []) then inl ValueError
  else
    match mros_of objects with
    | inl e => inl e
    | inr [] => inl ValueError
    | inr (mro0 :: others) =>
        let common := common_classes mro0 others in
        if bool_decide (common = ∅) then inr object
        else match list_find (λ cls, cls ∈ common) mro0 with
             | Some (_, cls) => inr cls
             | None => inr object
             end
    end.

(** [LLMEngine.get_type]: the engine answers with the common ancestor of
    the wrappers it was built with. As an object, the engine has a
    [get_type] attribute. *)
Definition engine_object (engine_class : class) (wrappers : list pyobject)
    : pyobject :=
  {| get_type_attr := Some (find_greatest_common_ancestor wrappers);
     type_of := engine_class |}.

End Hierarchy.

End Ancestor.

Section AncestorFacts.
Import Ancestor.
Variable mro : class → list class.

(** A class is common to the objects when it is in the MRO of the type of
    each. *)
Definition common_to (objects : list pyobject) (cls : class) : Prop :=
  ∀ obj c, obj ∈ objects → get_type obj = inr c → cls ∈ mro c.

Lemma elem_of_common_classes mro0 others cls :
  cls ∈ common_classes mro0 others ↔ cls ∈ mro0 ∧ ∀ m, m ∈ others → cls ∈ m.
Proof.
  unfold common_classes.
  assert (∀ (s : gset class),
            cls ∈ foldl (λ common m, common ∩ list_to_set m) s others
            ↔ cls ∈ s ∧ ∀ m, m ∈ others → cls ∈ m) as Hgen.
  { induction others as [|m others IH]; intros s; simpl.
    - split; [intros ?; split; [done|]; intros m Hm; inversion Hm|tauto].
    - rewrite IH, elem_of_intersection, elem_of_list_to_set. split.
      + intros [[? ?] Hall]. split; [done|].
        intros m' [->|?]%elem_of_cons; auto.
      + intros [? Hall]. split; [split; [done|apply Hall; left]|].
        intros m' ?. apply Hall. by right. }
  rewrite Hgen, elem_of_list_to_set. done.
Qed.

Lemma mros_of_spec objects mros :
  mros_of mro objects = inr mros →
  Forall2 (λ obj m, ∃ c, get_type obj = inr c ∧ m = mro c) objects mros.
Proof.
  revert mros. induction objects as [|obj objects IH]; intros mros; simpl.
  - intros [= <-]. constructor.
  - destruct (get_type obj) as [e|c] eqn:Hc; [done|].
    destruct (mros_of mro objects) as [e|ms]; [done|].
    intros [= <-]. constructor; [by exists c|by apply IH].
Qed.

Lemma mros_of_total objects :
  Forall (λ obj, ∃ c, get_type obj = inr c) objects →
  ∃ mros, mros_of mro objects = inr mros.
Proof.
  induction 1 as [|obj objects [c Hc] _ [ms IH]]; simpl; [by eexists|].
  rewrite Hc, IH. by eexists.
Qed.

Lemma common_classes_spec objects mro0 others cls :
  mros_of mro objects = inr (mro0 :: others) →
  cls ∈ common_classes mro0 others ↔
  common_to objects cls ∧ cls ∈ mro0.
Proof.
  intros Hm%mros_of_spec. rewrite elem_of_common_classes.
  destruct objects as [|obj0 objects]; [inversion Hm|].
  apply Forall2_cons in Hm as [(c0 & Hc0 & ->) Hrest]. split.
  - intros [H0 Hall]. split; [|done]. intros obj c [->|Hobj]%elem_of_cons Hc.
    + congruence.
    + apply list_elem_of_lookup in Hobj as [i Hi].
      destruct (Forall2_lookup_l _ _ _ _ _ Hrest Hi) as (m & Hm & c' & Hc' & ->).
      assert (c' = c) as -> by congruence.
      apply Hall. by eapply list_elem_of_lookup_2.
  - intros [Hcommon H0]. split; [done|]. intros m Hm.
    apply list_elem_of_lookup in Hm as [i Hi].
    destruct (Forall2_lookup_r _ _ _ _ _ Hrest Hi) as (obj & Hobj & c' & Hc' & ->).
    eapply Hcommon; [|done]. right. by eapply list_elem_of_lookup_2.
Qed.

(** X6. When every class has [object] in its MRO and [get_type] raises
    on none of the objects, [find_greatest_common_ancestor] raises only
    on the empty list, and then [ValueError]; on any other list it
    answers with a class that is in the MRO of the type of every
    object. *)
Theorem X6_common_ancestor (objects : list pyobject) :
  (∀ c, object ∈ mro c) →
  Forall (λ obj, ∃ c, get_type obj = inr c) objects →
  (objects = [] ∧ find_greatest_common_ancestor mro objects = inl ValueError)
  ∨ (objects ≠ []
     ∧ ∃ r, find_greatest_common_ancestor mro objects = inr r
            ∧ common_to objects r).
Proof.
  intros Hobj Hall. unfold find_greatest_common_ancestor.
  case_bool_decide as Hnil; [by left|]. right. split; [done|].
  destruct (mros_of_total objects Hall) as [mros Hm]. rewrite Hm.
  destruct mros as [|mro0 others].
  { apply mros_of_spec in Hm. apply Forall2_nil_inv_r in Hm. done. }
  assert (object ∈ common_classes mro0 others) as Hin.
  { apply (common_classes_spec objects); [done|]. split.
    - intros obj c _ _. apply Hobj.
    - pose proof (mros_of_spec _ _ Hm) as Hf.
      destruct objects as [|obj0 objects]; [done|].
      apply Forall2_cons in Hf as [(c0 & _ & ->) _]. apply Hobj. }
  rewrite bool_decide_eq_false_2 by (intros Hempty; rewrite Hempty in Hin; by apply not_elem_of_empty in Hin).
  destruct (list_find _ mro0) as [[i r]|] eqn:Hfind.
  - exists r. split; [done|]. apply list_find_Some in Hfind as (_ & Hr & _).
    by apply (common_classes_spec objects) in Hr as [? _].
  - exists object. split; [done|].
    by apply (common_classes_spec objects) in Hin as [? _].
Qed.

(** X7. The class [find_greatest_common_ancestor] answers with is the
    most specific one in the eyes of the first object: when some class of
    the first object's MRO is common to all the objects, the answer is in
    that MRO, it is common to all the objects, and no class that comes
    before it in that MRO is. *)
Theorem X7_most_specific (obj0 : pyobject) (others : list pyobject)
    (c0 r common : class) :
  get_type obj0 = inr c0 →
  common ∈ mro c0 → common_to (obj0 :: others) common →
  find_greatest_common_ancestor mro (obj0 :: others) = inr r →
  ∃ l1 l2, mro c0 = l1 ++ r :: l2
           ∧ common_to (obj0 :: others) r
           ∧ ∀ x, x ∈ l1 → ¬ common_to (obj0 :: others) x.
Proof.
  intros Hc0 Hin Hcommon. unfold find_greatest_common_ancestor.
  rewrite bool_decide_eq_false_2 by done.
  destruct (mros_of mro (obj0 :: others)) as [e|mros] eqn:Hm; [done|].
  pose proof (mros_of_spec _ _ Hm) as Hf.
  destruct mros as [|mro0 ms]; [inversion Hf|].
  pose proof Hf as Hf'. apply Forall2_cons in Hf' as [(c0' & Hc0' & ->) _].
  assert (c0' = c0) as -> by congruence.
  assert (common ∈ common_classes (mro c0) ms) as Hcc
    by (by apply (common_classes_spec (obj0 :: others))).
  rewrite bool_decide_eq_false_2 by (intros Hempty; rewrite Hempty in Hcc; by apply not_elem_of_empty in Hcc).
  destruct (list_find _ (mro c0)) as [[i r']|] eqn:Hfind.
  - intros [= ->]. apply list_find_Some in Hfind as (Hi & Hr & Hbefore).
    exists (take i (mro c0)), (drop (S i) (mro c0)).
    split; [by rewrite take_drop_middle|].
    split; [by apply (common_classes_spec (obj0 :: others)) in Hr as [? _]|].
    intros x Hx Hxc. apply list_elem_of_lookup in Hx as [j Hj].
    apply lookup_take_Some in Hj as [Hj Hlt].
    apply (Hbefore j x Hj Hlt).
    apply (common_classes_spec (obj0 :: others)); [done|]. split; [done|].
    by eapply list_elem_of_lookup_2.
  - apply list_find_None in Hfind. exfalso.
    rewrite Forall_forall in Hfind. by apply (Hfind common).
Qed.

(** X8. When every class is the head of its own MRO, the common
    ancestor of a non-empty list of objects whose [get_type] is one and
    the same class is that class; and an engine built over such objects
    is, for [get_type], of that class too, so that engines over engines
    keep it. *)
Theorem X8_same_type (objects : list pyobject) (T engine_class : class) :
  (∀ c, head (mro c) = Some c) →
  objects ≠ [] →
  Forall (λ obj, get_type obj = inr T) objects →
  find_greatest_common_ancestor mro objects = inr T
  ∧ get_type (engine_object mro engine_class objects) = inr T.
Proof.
  intros Hhead Hne Hall.
  assert (find_greatest_common_ancestor mro objects = inr T) as Hgca; [|done].
  unfold find_greatest_common_ancestor. rewrite bool_decide_eq_false_2 by done.
  assert (Forall (λ obj, ∃ c, get_type obj = inr c) objects) as Hall'
    by (eapply Forall_impl; [exact Hall|]; simpl; eauto).
  destruct (mros_of_total objects Hall') as [mros Hm]. rewrite Hm.
  pose proof (mros_of_spec _ _ Hm) as Hf.
  destruct objects as [|obj0 objects]; [done|].
  destruct mros as [|mro0 ms]; [inversion Hf|].
  pose proof Hf as Hf'. apply Forall2_cons in Hf' as [(c0 & Hc0 & ->) _].
  apply Forall_cons in Hall as [HT Hall].
  assert (c0 = T) as -> by congruence.
  destruct (mro T) as [|T' l] eqn:HmT; [by specialize (Hhead T); rewrite HmT in Hhead|].
  assert (T' = T) as ->
    by (specialize (Hhead T); rewrite HmT in Hhead; by injection Hhead).
  assert (T ∈ common_classes (T :: l) ms) as Hin.
  { apply (common_classes_spec (obj0 :: objects)); [done|]. split; [|left].
    intros obj c Hobj Hc.
    assert (get_type obj = inr T) as HT'.
    { apply elem_of_cons in Hobj as [->|Hobj]; [done|].
      rewrite Forall_forall in Hall. by apply Hall. }
    assert (c = T) as -> by congruence. rewrite HmT. left. }
  rewrite bool_decide_eq_false_2 by (intros Hempty; rewrite Hempty in Hin; by apply not_elem_of_empty in Hin).
  simpl. by rewrite decide_True.
Qed.

End AncestorFacts.

(** The classes of the docstring of [find_greatest_common_ancestor]:
    [object] (0), [Animal] (1), [Mammal] (2), [Dog] (3) and [Cat] (4);
    any other class derives from [object]. *)
Definition zoo (c : Ancestor.class) : list Ancestor.class :=
  match c with
  | 0 => [0]
  | 1 => [1; 0]
  | 2 => [2; 1; 0]
  | 3 => [3; 2; 1; 0]
  | 4 => [4; 2; 1; 0]
  | _ => [c; 0]
  end%nat.

Definition dog : Ancestor.pyobject :=
  {| Ancestor.get_type_attr := None; Ancestor.type_of := 3 |}.
Definition cat : Ancestor.pyobject :=
  {| Ancestor.get_type_attr := None; Ancestor.type_of := 4 |}.

(** The example of the docstring: the common ancestor of a dog and a cat
    is [Mammal]. *)
Example dog_and_cat :
  Ancestor.find_greatest_common_ancestor zoo [dog; cat] = inr 2%nat.
Proof. by vm_compute. Qed.


Lemma zoo_object c : Ancestor.object ∈ zoo c.
Proof. destruct c as [|[|[|[|[|c]]]]]; simpl; repeat constructor. Qed.

Lemma zoo_head c : head (zoo c) = Some c.
Proof. by destruct c as [|[|[|[|[|c]]]]]. Qed.

Lemma animal_common : common_to zoo [dog; cat] 1%nat.
Proof.
  intros obj c [->|[->|H]%elem_of_cons]%elem_of_cons; [| |inversion H];
    intros [= <-]; simpl; repeat constructor.
Qed.

Lemma X6_common_ancestor_witness :
  (∀ c, Ancestor.object ∈ zoo c)
  ∧ Forall (λ obj, ∃ c, Ancestor.get_type obj = inr c) [dog; cat]
  ∧ (([dog; cat] = []
      ∧ Ancestor.find_greatest_common_ancestor zoo [dog; cat]
        = inl Ancestor.ValueError)
     ∨ ([dog; cat] ≠ []
        ∧ ∃ r, Ancestor.find_greatest_common_ancestor zoo [dog; cat] = inr r
               ∧ common_to zoo [dog; cat] r)).
Proof.
  assert (Forall (λ obj, ∃ c, Ancestor.get_type obj = inr c) [dog; cat]) as Hall
    by (repeat constructor; by eexists).
  split; [apply zoo_object|]. split; [done|].
  apply (X6_common_ancestor zoo [dog; cat] zoo_object Hall).
Defined.

Lemma X7_most_specific_witness :
  Ancestor.get_type dog = inr 3%nat
  ∧ (1%nat ∈ zoo 3%nat)
  ∧ common_to zoo [dog; cat] 1%nat
  ∧ Ancestor.find_greatest_common_ancestor zoo [dog; cat] = inr 2%nat
  ∧ ∃ l1 l2, zoo 3%nat = l1 ++ 2%nat :: l2
             ∧ common_to zoo [dog; cat] 2%nat
             ∧ ∀ x, x ∈ l1 → ¬ common_to zoo [dog; cat] x.
Proof.
  assert ((1%nat ∈ zoo 3%nat)) as Hin by (simpl; repeat constructor).
  split; [done|]. split; [done|]. split; [apply animal_common|].
  split; [by vm_compute|].
  apply (X7_most_specific zoo dog [cat] 3%nat 2%nat 1%nat eq_refl Hin
           animal_common ltac:(by vm_compute)).
Defined.

Lemma X8_same_type_witness :
  (∀ c, head (zoo c) = Some c)
  ∧ [dog; dog] ≠ []
  ∧ Forall (λ obj, Ancestor.get_type obj = inr 3%nat) [dog; dog]
  ∧ Ancestor.find_greatest_common_ancestor zoo [dog; dog] = inr 3%nat
  ∧ Ancestor.get_type (Ancestor.engine_object zoo 9%nat [dog; dog]) = inr 3%nat.
Proof.
  assert (Forall (λ obj, Ancestor.get_type obj = inr 3%nat) [dog; dog]) as Hall
    by (by repeat constructor).
  split; [apply zoo_head|]. split; [done|]. split; [done|].
  apply (X8_same_type zoo [dog; dog] 3%nat 9%nat zoo_head ltac:(done) Hall).
Defined.

(** * More of the decorator *)

Section HookStacks.
Import Decorator.
Context {V R : Type}.
Implicit Types (kwargs : gmap string V) (op : operation).

(** Decorators stacked on a surface, one per hook, the first hook of the
    list outermost: [LLMDecorator] subclasses, each wrapping the next. *)
Definition stack (hooks : list (hook (V:=V) (R:=R))) (inner : surface) : surface :=
  foldr query inner hooks.

Definition stack_stream (hooks : list (hook (V:=V) (R:=R)))
    (inner : stream_surface) : stream_surface :=
  foldr query_stream inner hooks.

(** The keyword arguments that leave the innermost decorator: every
    hook's first phase applied in turn, outermost first. *)
Definition reaching (hooks : list (hook (V:=V) (R:=R))) kwargs : gmap string V :=
  foldl (λ kw h, _hook_all_args h kw) kwargs hooks.

(** The exception the after phases of a stack leave the caller with,
    if any: the layers are sent the response innermost first, and the
    first one whose hook does not simply end stops the others. *)
Definition after_stack (hooks : list (hook (V:=V) (R:=R))) (r : response)
    : option exn :=
  head (omap (λ h, after_call h r) (reverse hooks)).

Lemma after_stack_cons h hooks r :
  after_stack (h :: hooks) r
  = match after_stack hooks r with
    | Some e => Some e
    | None => after_call h r
    end.
Proof.
  unfold after_stack. rewrite reverse_cons, omap_app. simpl.
  destruct (omap (λ h0, after_call h0 r) (reverse hooks)) as [|e l]; simpl.
  - by destruct (after_call h r).
  - done.
Qed.

(** X9. A stack of decorators, whatever their hooks do: every layer
    delegates once, so that the backend is called once, with the
    arguments the first phases of the hooks produce in turn, outermost
    first. An exception of the backend comes back to the caller as it
    is, and no hook is sent anything. A result of the backend is sent to
    the hooks innermost first: when every hook ends, the caller gets that
    result unchanged; the first hook that raises, or yields once more,
    replaces it by its exception, and the layers above are not sent the
    result. *)
Theorem X9_hook_stack (hooks : list (hook (V:=V) (R:=R)))
    (backend : operation → gmap string V → exn + R) op kwargs :
  length (stack hooks (unwrapped backend) op kwargs).1 = length hooks
  ∧ (hooks ≠ [] →
     last (stack hooks (unwrapped backend) op kwargs).1
     = Some (reaching hooks kwargs))
  ∧ (stack hooks (unwrapped backend) op kwargs).2
    = match backend op (reaching hooks kwargs) with
      | inl e => inl e
      | inr r =>
          match after_stack hooks (Result r) with
          | Some e => inl e
          | None => inr r
          end
      end.
Proof.
  revert kwargs. induction hooks as [|h hooks IH]; intros kwargs.
  - simpl. split; [done|]. split; [done|].
    by destruct (backend op kwargs).
  - simpl. unfold query at 1 2 3.
    destruct (IH (_hook_all_args h kwargs)) as (Hlen & Hlast & Hres).
    fold (stack hooks (unwrapped backend)) in *.
    destruct (stack hooks (unwrapped backend) op (_hook_all_args h kwargs))
      as [below res] eqn:Hs. simpl in *.
    split; [by rewrite Hlen|]. split.
    + intros _. destruct hooks as [|h' hooks].
      * simpl in Hs. injection Hs as <- <-. done.
      * rewrite <- (Hlast ltac:(done)).
        destruct below as [|x below]; [done|]. done.
    + rewrite Hres.
      destruct (backend op (reaching hooks (_hook_all_args h kwargs)))
        as [e|r]; [done|].
      rewrite after_stack_cons.
      destruct (after_stack hooks (Result r)); [done|].
      by destruct (after_call h (Result r)).
Qed.

(** The exception the after phases of a stack of streaming decorators
    leave the caller with, if any. *)
Definition after_stack_stream (hooks : list (hook (V:=V) (R:=R))) (r : response)
    : option stream_exn :=
  head (omap (λ h, after_stream h r) (reverse hooks)).

Lemma after_stack_stream_cons h hooks r :
  after_stack_stream (h :: hooks) r
  = match after_stack_stream hooks r with
    | Some e => Some e
    | None => after_stream h r
    end.
Proof.
  unfold after_stack_stream. rewrite reverse_cons, omap_app. simpl.
  destruct (omap (λ h0, after_stream h0 r) (reverse hooks)) as [|e l]; simpl.
  - by destruct (after_stream h r).
  - done.
Qed.

(** X10. Streaming through a stack of decorators, whatever their hooks
    do: the chunks the caller receives are the chunks of the backend's
    stream, in order and unchanged, also when the stream or a hook ends
    with an exception; every layer delegates once. An exception that ends
    the backend's stream ends the caller's; otherwise the hooks are sent
    the joined text innermost first, and the first that does not simply end
    ends the caller's stream: with its exception when it raises, and with
    [RuntimeError] when it yields once more, never with
    [StopAsyncIteration]. With hooks that all end, the stream ends as the
    backend's does. *)
Theorem X10_stream_stack (hooks : list (hook (V:=V) (R:=R)))
    (backend : gmap string V → list string * option stream_exn) kwargs :
  length (stack_stream hooks (unwrapped_stream backend) kwargs).1 = length hooks
  ∧ (stack_stream hooks (unwrapped_stream backend) kwargs).2.1
    = (backend (reaching hooks kwargs)).1
  ∧ (stack_stream hooks (unwrapped_stream backend) kwargs).2.2
    = match (backend (reaching hooks kwargs)).2 with
      | Some e => Some e
      | None =>
          after_stack_stream hooks (Joined (join (backend (reaching hooks kwargs)).1))
      end
  ∧ (∀ outer h inner r,
       hooks = outer ++ h :: inner → Forall (λ h', after h' r = Ends) inner →
       after_stack_stream hooks r
       = match after h r with
         | Ends => after_stack_stream outer r
         | YieldsAgain => Some RuntimeError
         | RaisesExn e => Some (StreamExn e)
         end).
Proof.
  split; [|split; [|split]].
  - revert kwargs. induction hooks as [|h hooks IH]; intros kwargs; [done|].
    simpl. unfold query_stream at 1.
    fold (stack_stream hooks (unwrapped_stream backend)).
    specialize (IH (_hook_all_args h kwargs)).
    destruct (stack_stream hooks (unwrapped_stream backend) (_hook_all_args h kwargs))
      as [below [chunks stop]]. simpl in *. by rewrite IH.
  - revert kwargs. induction hooks as [|h hooks IH]; intros kwargs; [done|].
    simpl. unfold query_stream at 1.
    fold (stack_stream hooks (unwrapped_stream backend)).
    specialize (IH (_hook_all_args h kwargs)).
    by destruct (stack_stream hooks (unwrapped_stream backend)
                   (_hook_all_args h kwargs)) as [below [chunks stop]].
  - revert kwargs. induction hooks as [|h hooks IH]; intros kwargs.
    + simpl. by destruct (backend kwargs).2.
    + simpl. unfold query_stream at 1.
      fold (stack_stream hooks (unwrapped_stream backend)).
      pose proof (IH (_hook_all_args h kwargs)) as Hstop.
      assert ((stack_stream hooks (unwrapped_stream backend)
                 (_hook_all_args h kwargs)).2.1
              = (backend (reaching hooks (_hook_all_args h kwargs))).1) as Hchunks.
      { clear. generalize (_hook_all_args h kwargs). clear kwargs.
        induction hooks as [|h' hooks IH]; intros kwargs; [done|].
        simpl. unfold query_stream at 1.
        fold (stack_stream hooks (unwrapped_stream backend)).
        specialize (IH (_hook_all_args h' kwargs)).
        by destruct (stack_stream hooks (unwrapped_stream backend)
                       (_hook_all_args h' kwargs)) as [below [chunks stop]]. }
      destruct (stack_stream hooks (unwrapped_stream backend) (_hook_all_args h kwargs))
        as [below [chunks stop]]. simpl in *.
      rewrite Hstop, <- Hchunks.
      destruct (backend (reaching hooks (_hook_all_args h kwargs))).2; [done|].
      rewrite after_stack_stream_cons.
      by destruct (after_stack_stream hooks (Joined (join chunks))).
  - intros outer h inner r -> Hinner.
    unfold after_stack_stream. rewrite reverse_app, reverse_cons, !omap_app.
    assert (omap (λ h0, after_stream h0 r) (reverse inner) = []) as ->.
    { apply Forall_reverse in Hinner.
      induction Hinner as [|h' l Hh' _ IH]; [done|].
      simpl. unfold after_stream at 1. by rewrite Hh'. }
    simpl. unfold after_stream at 1. by destruct (after h r).
Qed.

End HookStacks.

Section LowerCase.
Context {V : Type}.

(** X11. On ASCII names, a keyword of the mapping is a prompt argument
    exactly when its name has no lower-case letter, and an api argument
    exactly when it has one: a name in mixed case is an api argument.
    The upper-cased form of any name is the name of a prompt argument,
    and upper-casing it again changes nothing. *)
Theorem X11_prompt_iff_no_lower (kwargs : gmap string V) (k : string) (v : V) :
  kwargs !! k = Some v →
  (prompt_args kwargs !! k = Some v ↔ no_lower k = true)
  ∧ (api_args kwargs !! k = Some v ↔ no_lower k = false)
  ∧ upper (upper k) = upper k
  ∧ prompt_args (<[upper k := v]> kwargs) !! upper k = Some v.
Proof.
  intros Hk. rewrite prompt_args_lookup, api_args_lookup, upper_fixed_iff.
  split; [tauto|]. split.
  - destruct (no_lower k); split; intros; try done; tauto.
  - split.
    + symmetry. apply upper_fixed_iff, no_lower_upper.
    + apply prompt_args_lookup. split; [apply lookup_insert_eq|].
      apply upper_fixed_iff, no_lower_upper.
Qed.

End LowerCase.

Lemma X11_prompt_iff_no_lower_witness :
  ({[ "Query" := 1; "QUERY_2" := 2 ]} : gmap string Z) !! "Query" = Some 1
  ∧ (api_args ({[ "Query" := 1; "QUERY_2" := 2 ]} : gmap string Z) !! "Query" = Some 1
     ↔ no_lower "Query" = false).
Proof.
  split; [reflexivity|].
  apply (X11_prompt_iff_no_lower ({[ "Query" := 1; "QUERY_2" := 2 ]} : gmap string Z)
           "Query" 1). reflexivity.
Defined.

(** ** standalone_facade: the [ExceptionQA] decorator *)

Section ExceptionQA.
Import Decorator.
(** [V]: values of keyword arguments. [of_args] and [of_str] make a value
    of a dictionary of arguments and of a string; [exception_details] and
    [code] are what [get_exception_details()] and
    [get_stack_source_code()] return when the hook is entered. *)
Context {V R : Type}.
Variable of_args : gmap string V → V.
Variable of_str : string → V.
Variable exception_details code : V.

(** [ExceptionQA.hook_query]: one [yield], of the dictionary display
    with [**api_args] last. *)
Definition exception_qa : hook (V:=V) (R:=R) :=
  {| before := λ prompt_args api_args,
       dict_merge
         {[ "USER_ARGS" := of_args prompt_args;
            "EXCEPTION_DETAILS" := exception_details;
            "STACK_SOURCE_CODE" := code;
            "TASK" := of_str "Use the EXCEPTION_DETAILS and STACK_SOURCE_CODE to respond to the user's task in USER_ARGS." ]}
         api_args;
     after := λ _, Ends |}.

(** The four prompt arguments the hook yields. *)
Definition qa_prompt (kwargs : gmap string V) : gmap string V :=
  {[ "USER_ARGS" := of_args (prompt_args kwargs);
     "EXCEPTION_DETAILS" := exception_details;
     "STACK_SOURCE_CODE" := code;
     "TASK" := of_str "Use the EXCEPTION_DETAILS and STACK_SOURCE_CODE to respond to the user's task in USER_ARGS." ]}.

Lemma qa_prompt_upper (kwargs : gmap string V) k v :
  qa_prompt kwargs !! k = Some v → k = upper k.
Proof.
  unfold qa_prompt. intros H.
  repeat (apply lookup_insert_Some in H as [[<- _]|[_ H]]; [by vm_compute|]).
  apply lookup_singleton_Some in H as [<- _]. by vm_compute.
Qed.

Lemma hook_all_args_qa (kwargs : gmap string V) :
  _hook_all_args exception_qa kwargs = api_args kwargs ∪ qa_prompt kwargs.
Proof. done. Qed.

(** X12. What an [ExceptionQA] layer hands to the model below it: the
    caller's api arguments, each with its value, and exactly four prompt
    arguments, [USER_ARGS], [EXCEPTION_DETAILS], [STACK_SOURCE_CODE] and
    [TASK]. The caller's own prompt arguments travel inside [USER_ARGS]
    only: none of them is a keyword of the call below, unless it has one
    of the four names, and then its value is replaced. *)
Theorem X12_exception_qa (kwargs : gmap string V) :
  api_args (_hook_all_args exception_qa kwargs) = api_args kwargs
  ∧ prompt_args (_hook_all_args exception_qa kwargs) = qa_prompt kwargs
  ∧ qa_prompt kwargs !! "USER_ARGS" = Some (of_args (prompt_args kwargs))
  ∧ (∀ k, k = upper k → qa_prompt kwargs !! k = None →
          _hook_all_args exception_qa kwargs !! k = None).
Proof.
  rewrite hook_all_args_qa.
  assert (∀ k v, api_args kwargs !! k = Some v → k ≠ upper k) as Hapi.
  { intros k v Hk. by apply api_args_lookup in Hk as [_ ?]. }
  split; [|split; [|split]].
  - apply map_eq. intros k. apply option_eq. intros v.
    rewrite (api_args_lookup (api_args kwargs ∪ qa_prompt kwargs)).
    rewrite lookup_union_Some_raw. split.
    + intros [[H|[_ H]] Hne]; [done|].
      by apply qa_prompt_upper in H.
    + intros H. split; [by left|]. by eapply Hapi.
  - apply map_eq. intros k. apply option_eq. intros v.
    rewrite (prompt_args_lookup (api_args kwargs ∪ qa_prompt kwargs)).
    rewrite lookup_union_Some_raw. split.
    + intros [[H|[_ H]] Hup]; [|done]. by apply Hapi in H.
    + intros H. split; [|by eapply qa_prompt_upper].
      right. split; [|done].
      destruct (api_args kwargs !! k) as [v'|] eqn:Hk; [|done].
      apply Hapi in Hk. by apply qa_prompt_upper in H.
  - done.
  - intros k Hup Hnone. apply lookup_union_None. split; [|done].
    destruct (api_args kwargs !! k) as [v'|] eqn:Hk; [|done].
    by apply Hapi in Hk.
Qed.

End ExceptionQA.

(** * More of the orchestrator: what [collect_response] makes of a stream *)

Section CollectFacts.
Import OAI.

(** The fragments a chunk carries:
    [chunk.choices[0].delta.tool_calls or []] behind [if chunk.choices:]. *)
Definition fragments_in (c : chunk) : list fragment :=
  match choices c with
  | [] => []
  | choice0 :: _ => default [] (delta_tool_calls choice0)
  end.

(** The finish reason a chunk carries, if it has choices. *)
Definition reason_in (c : chunk) : option string :=
  match choices c with
  | [] => None
  | choice0 :: _ => choice_finish_reason choice0
  end.

(** Every fragment that carries an id names the function. *)
Definition named (fragments : list fragment) : Prop :=
  Forall (λ f, truthy (frag_id f) = true → truthy (frag_name f) = true) fragments.

(** A tool call as the API streams it: a first fragment with the id, the
    name of the function and no argument text, then fragments without id
    that carry the argument text piece by piece. *)
Record streamed_call := StreamedCall {
  sc_id : string;
  sc_name : string;
  sc_head_arguments : option string;
  sc_tail : list fragment
}.

Definition fragments_of (sc : streamed_call) : list fragment :=
  {| frag_id := Some (sc_id sc); frag_name := Some (sc_name sc);
     frag_arguments := sc_head_arguments sc |} :: sc_tail sc.

Definition well_streamed (sc : streamed_call) : Prop :=
  sc_id sc ≠ "" ∧ sc_name sc ≠ ""
  ∧ or_empty (sc_head_arguments sc) = ""
  ∧ Forall (λ f, truthy (frag_id f) = false) (sc_tail sc).

(** The call the fragments of [sc] stand for. *)
Definition call_of (sc : streamed_call) : tool_call :=
  {| tc_id := sc_id sc; tc_name := sc_name sc;
     tc_arguments := join ((λ f, or_empty (frag_arguments f)) <$> sc_tail sc) |}.

(** What is charged for a chunk in [collect_response]. *)
Definition charge (c : chunk) : Z := default 1 (usage c).

Lemma truthy_Some (s : string) : s ≠ "" → truthy (Some s) = true.
Proof. by destruct s. Qed.

Lemma truthy_is_Some o : truthy o = true → ∃ s, o = Some s ∧ s ≠ "".
Proof. destruct o as [[|c s]|]; [done| |done]. intros _. by eexists. Qed.

Lemma or_empty_truthy o : truthy o = true → Some (or_empty o) = o.
Proof. by destruct o as [[|c s]|]. Qed.

Lemma py_or_truthy a b : truthy a = true → py_or a b = a.
Proof. unfold py_or. by intros ->. Qed.

Lemma py_or_falsy a b : truthy a = false → py_or a b = b.
Proof. unfold py_or. by intros ->. Qed.

Lemma fold_err_app {S A E} (body : S → A → E + S) st (l1 l2 : list A) :
  fold_err body st (l1 ++ l2)
  = match fold_err body st l1 with
    | inl e => inl e
    | inr st' => fold_err body st' l2
    end.
Proof.
  revert st. induction l1 as [|x l1 IH]; intros st; [done|].
  simpl. destruct (body st x); [done|]. apply IH.
Qed.

(** ** The loop over the chunks *)

Lemma collect_loop_fold stream st metrics :
  (collect_loop stream st metrics).1 = fold_err on_chunk st stream.
Proof.
  revert st metrics. induction stream as [|c stream IH]; intros st metrics; [done|].
  simpl. destruct (on_chunk st c); [done|]. apply IH.
Qed.

(** The counter is charged for the chunks that were read: all of them
    when the loop ends without an exception. *)
Lemma collect_loop_read stream st metrics :
  ∃ read rest, stream = read ++ rest
    ∧ (collect_loop stream st metrics).2 = foldl count_collect metrics read
    ∧ (∀ st', (collect_loop stream st metrics).1 = inr st' → rest = []).
Proof.
  revert st metrics. induction stream as [|c stream IH]; intros st metrics.
  - by exists [], [].
  - simpl. destruct (on_chunk st c) as [e|st1].
    + exists [c], stream. done.
    + destruct (IH st1 (count_collect metrics c)) as (read & rest & -> & Hm & Hr).
      by exists (c :: read), rest.
Qed.

Lemma collect_response_read stream metrics :
  ∃ read rest, stream = read ++ rest
    ∧ (collect_response stream metrics).2 = foldl count_collect metrics read
    ∧ (∀ r, (collect_response stream metrics).1 = inr r → rest = []).
Proof.
  destruct (collect_loop_read stream collector_init metrics)
    as (read & rest & Hs & Hm & Hr).
  exists read, rest. split; [done|].
  unfold collect_response.
  destruct (collect_loop stream collector_init metrics) as [[e|st] m']; simpl in *.
  - done.
  - destruct (flush st); [|case_bool_decide]; simpl; (split; [done|]);
      intros; by eapply Hr.
Qed.

(** The metrics counter does not bear on what is collected. *)
Lemma collect_response_metrics stream metrics :
  (collect_response stream metrics).1 = (collect_response stream None).1.
Proof.
  unfold collect_response.
  pose proof (collect_loop_fold stream collector_init metrics) as H1.
  pose proof (collect_loop_fold stream collector_init None) as H2.
  destruct (collect_loop stream collector_init metrics) as [r m'].
  destruct (collect_loop stream collector_init None) as [r' m''].
  simpl in *. subst r r'. destruct (fold_err on_chunk collector_init stream); [done|].
  destruct (flush c); [done|]. by case_bool_decide.
Qed.

Lemma collect_response_returns stream metrics r :
  (collect_response stream None).1 = inr r →
  collect_response stream metrics = (inr r, foldl count_collect metrics stream).
Proof.
  intros Hr. rewrite <- (collect_response_metrics stream metrics) in Hr.
  destruct (collect_response_read stream metrics) as (read & rest & Hs & Hm & Hrest).
  rewrite (Hrest r Hr), app_nil_r in Hs. subst read.
  destruct (collect_response stream metrics) as [r' m']. simpl in *. by subst.
Qed.

(** What [collect_response] comes to, from the collector the loop ends
    with. *)
Lemma collect_response_inv stream metrics response reason :
  (collect_response stream metrics).1 = inr (response, reason) →
  ∃ st calls, fold_err on_chunk collector_init stream = inr st
    ∧ flush st = inr calls ∧ reason = finish st
    ∧ response = if bool_decide (finish st = Some "tool_calls")
                 then ToolCalls calls else Text (join (result st)).
Proof.
  unfold collect_response.
  pose proof (collect_loop_fold stream collector_init metrics) as Hfold.
  destruct (collect_loop stream collector_init metrics) as [[e|st] m']; [done|].
  simpl in Hfold. destruct (flush st) as [e|calls] eqn:Hflush; [done|].
  intros H. exists st, calls. split; [done|]. split; [done|].
  case_bool_decide; simpl in H; by injection H as <- <-.
Qed.

Lemma collect_response_intro stream metrics st calls :
  fold_err on_chunk collector_init stream = inr st → flush st = inr calls →
  (collect_response stream metrics).1
  = inr (if bool_decide (finish st = Some "tool_calls")
         then ToolCalls calls else Text (join (result st)), finish st).
Proof.
  intros Hfold Hflush. unfold collect_response.
  pose proof (collect_loop_fold stream collector_init metrics) as H.
  destruct (collect_loop stream collector_init metrics) as [r m'].
  simpl in H. subst r. rewrite Hfold, Hflush. by case_bool_decide.
Qed.

(** ** Text and finish reason *)

Lemma on_fragment_keeps st f st' :
  on_fragment st f = inr st' →
  result st' = result st ∧ finish st' = finish st.
Proof.
  unfold on_fragment. destruct (truthy (frag_id f)).
  - destruct (if bool_decide _ then _ else _); [done|]. by intros [= <-].
  - by intros [= <-].
Qed.

Lemma fold_on_fragment_keeps fs st st' :
  fold_err on_fragment st fs = inr st' →
  result st' = result st ∧ finish st' = finish st.
Proof.
  revert st. induction fs as [|f fs IH]; intros st; simpl.
  - by intros [= <-].
  - destruct (on_fragment st f) as [e|st1] eqn:Hf; [done|].
    intros [-> ->]%IH. by eapply on_fragment_keeps.
Qed.

Lemma on_chunk_result st c st' :
  on_chunk st c = inr st' →
  result st'
  = result st ++ match choices c with
                 | [] => []
                 | choice0 :: _ =>
                     if truthy (delta_content choice0)
                     then [or_empty (delta_content choice0)] else []
                 end.
Proof.
  unfold on_chunk. destruct (choices c) as [|choice0 ?].
  - intros [= <-]. by rewrite app_nil_r.
  - intros [-> _]%fold_on_fragment_keeps. simpl.
    destruct (truthy (delta_content choice0)); [done|by rewrite app_nil_r].
Qed.

Lemma on_chunk_finish st c st' :
  on_chunk st c = inr st' →
  finish st'
  = match choices c with
    | [] => finish st
    | _ :: _ => py_or (finish st) (reason_in c)
    end.
Proof.
  unfold on_chunk, reason_in. destruct (choices c) as [|choice0 ?].
  - by intros [= <-].
  - by intros [_ ->]%fold_on_fragment_keeps.
Qed.

Lemma collect_result stream st st' msgs metrics :
  fold_err on_chunk st stream = inr st' →
  result st'
  = result st ++ (or_empty <$> yielded (query_stream_plain stream msgs metrics)).
Proof.
  revert st. induction stream as [|c stream IH]; intros st; simpl.
  - intros [= <-]. by rewrite app_nil_r.
  - destruct (on_chunk st c) as [e|st1] eqn:Hc; [done|].
    intros Hrest. rewrite (IH st1 Hrest), (on_chunk_result st c st1 Hc).
    simpl in IH. destruct (choices c) as [|choice0 ?]; [by rewrite app_nil_r|].
    destruct (truthy (delta_content choice0)); [|by rewrite app_nil_r].
    rewrite fmap_cons. by rewrite <- app_assoc.
Qed.

Lemma finish_sticky stream st st' :
  truthy (finish st) = true → fold_err on_chunk st stream = inr st' →
  finish st' = finish st.
Proof.
  revert st. induction stream as [|c stream IH]; intros st Hst; simpl.
  - by intros [= <-].
  - destruct (on_chunk st c) as [e|st1] eqn:Hc; [done|].
    assert (finish st1 = finish st) as Heq.
    { rewrite (on_chunk_finish st c st1 Hc).
      destruct (choices c); [done|]. by apply py_or_truthy. }
    intros Hrest. rewrite (IH st1); [done| |done]. by rewrite Heq.
Qed.

Lemma finish_pending stream st st' :
  truthy (finish st) = false →
  Forall (λ c, truthy (reason_in c) = false) stream →
  fold_err on_chunk st stream = inr st' →
  truthy (finish st') = false.
Proof.
  intros Hst Hall. revert st Hst.
  induction Hall as [|c stream Hc _ IH]; intros st Hst; simpl.
  - by intros [= <-].
  - destruct (on_chunk st c) as [e|st1] eqn:Hoc; [done|].
    apply IH. rewrite (on_chunk_finish st c st1 Hoc).
    destruct (choices c); [done|]. by rewrite py_or_falsy.
Qed.

(** ** Streams that name their calls are read without an exception *)

(** The open call, if there is one, has a name. *)
Definition open_call_named (st : collector) : Prop :=
  truthy (current_tool_id st) = true → truthy (current_tool_name st) = true.

Lemma flush_named st : open_call_named st → ∃ calls, flush st = inr calls.
Proof.
  unfold open_call_named, flush. intros H.
  destruct (current_tool_id st) as [i|]; [|by eexists].
  destruct (truthy (Some i)) eqn:Hi; [|by eexists].
  destruct (truthy_is_Some _ (H eq_refl)) as (name & -> & _). by eexists.
Qed.

Lemma on_fragment_named st f :
  open_call_named st →
  (truthy (frag_id f) = true → truthy (frag_name f) = true) →
  ∃ st', on_fragment st f = inr st' ∧ open_call_named st'.
Proof.
  intros Hst Hf. unfold on_fragment.
  destruct (truthy (frag_id f)) eqn:Hid.
  - destruct (flush_named st Hst) as [calls Hflush]. rewrite Hflush.
    destruct (bool_decide (frag_id f ≠ current_tool_id st));
      (eexists; split; [done|]); intros _; simpl;
      by rewrite py_or_truthy by auto; auto.
  - eexists. split; [done|]. unfold open_call_named. simpl. intros Hid'.
    by rewrite py_or_truthy by auto; auto.
Qed.

Lemma fold_on_fragment_named fs st :
  open_call_named st → named fs →
  ∃ st', fold_err on_fragment st fs = inr st' ∧ open_call_named st'.
Proof.
  intros Hst Hfs. revert st Hst.
  induction Hfs as [|f fs Hf _ IH]; intros st Hst; simpl; [by eexists|].
  destruct (on_fragment_named st f Hst Hf) as (st1 & -> & Hst1). by apply IH.
Qed.

Lemma fold_on_chunk_named stream st :
  open_call_named st → named (stream ≫= fragments_in) →
  ∃ st', fold_err on_chunk st stream = inr st' ∧ open_call_named st'.
Proof.
  revert st. induction stream as [|c stream IH]; intros st Hst Hall; simpl.
  { by eexists. }
  rewrite bind_cons in Hall. apply Forall_app in Hall as [Hc Hall].
  assert (∃ st1, on_chunk st c = inr st1 ∧ open_call_named st1)
    as (st1 & -> & Hst1).
  { unfold on_chunk, fragments_in in *.
    destruct (choices c) as [|choice0 ?]; [by eexists|].
    by apply fold_on_fragment_named. }
  by apply IH.
Qed.

Lemma collect_response_named stream metrics :
  named (stream ≫= fragments_in) →
  ∃ response reason, (collect_response stream metrics).1 = inr (response, reason).
Proof.
  intros Hall.
  destruct (fold_on_chunk_named stream collector_init) as (st & Hfold & Hst);
    [done|done|].
  destruct (flush_named st Hst) as [calls Hflush].
  rewrite (collect_response_intro stream metrics st calls Hfold Hflush).
  by eexists _, _.
Qed.

Lemma collect_text stream msgs metrics metrics' response reason :
  (collect_response stream metrics).1 = inr (response, reason) →
  reason ≠ Some "tool_calls" →
  response
  = Text (join (or_empty <$> yielded (query_stream_plain stream msgs metrics'))).
Proof.
  intros Hr Hreason.
  apply collect_response_inv in Hr as (st & calls & Hfold & _ & -> & ->).
  rewrite bool_decide_eq_false_2 by done. f_equal.
  by rewrite (collect_result stream collector_init st msgs metrics' Hfold).
Qed.

(** X13. The text [collect_response] returns is the text the plain
    streaming path yields. A stream in which every fragment with an id
    names its function is read without an exception. Whenever
    [collect_response] returns, with a finish reason that is not
    [tool_calls], the response is the concatenation, in order, of the
    chunks that the plain path yields for the same stream; and each of
    these is a string that is not empty. *)
Theorem X13_collected_text (stream : list chunk) (msgs : list message)
    (metrics metrics' : option Z) :
  (named (stream ≫= fragments_in) →
   ∃ response reason, (collect_response stream metrics).1 = inr (response, reason))
  ∧ (∀ response reason,
       (collect_response stream metrics).1 = inr (response, reason) →
       reason ≠ Some "tool_calls" →
       response
       = Text (join (or_empty <$> yielded (query_stream_plain stream msgs metrics'))))
  ∧ Forall (λ chunk, ∃ s, chunk = Some s ∧ s ≠ "")
      (yielded (query_stream_plain stream msgs metrics')).
Proof.
  split; [apply collect_response_named|]. split.
  - apply collect_text.
  - simpl. induction stream as [|c stream IH]; [constructor|].
    simpl. destruct (choices c) as [|choice0 ?]; [done|].
    destruct (truthy (delta_content choice0)) eqn:Ht; [|done].
    constructor; [|done]. by apply truthy_is_Some.
Qed.

(** X14. The first finish reason wins. When a chunk carries a finish
    reason that is not empty and no chunk before it does, then whenever
    [collect_response] returns, that reason is the one it returns,
    whatever reasons the chunks after it carry, and the response is the
    list of tool calls exactly when that reason is [tool_calls]; and it
    does return when every fragment with an id names its function. *)
Theorem X14_first_finish_reason (before after : list chunk) (c : chunk)
    (metrics : option Z) :
  Forall (λ c', truthy (reason_in c') = false) before →
  truthy (reason_in c) = true →
  (∀ response reason,
     (collect_response (before ++ c :: after) metrics).1 = inr (response, reason) →
     reason = reason_in c
     ∧ ((∃ calls, response = ToolCalls calls) ↔ reason_in c = Some "tool_calls"))
  ∧ (named ((before ++ c :: after) ≫= fragments_in) →
     ∃ response,
       (collect_response (before ++ c :: after) metrics).1
       = inr (response, reason_in c)).
Proof.
  intros Hbefore Hc.
  assert (∀ response reason,
            (collect_response (before ++ c :: after) metrics).1
            = inr (response, reason) →
            reason = reason_in c
            ∧ ((∃ calls, response = ToolCalls calls)
               ↔ reason_in c = Some "tool_calls")) as Hret.
  { intros response reason Hr.
    apply collect_response_inv in Hr as (st & calls & Hfold & _ & -> & ->).
    rewrite fold_err_app in Hfold.
    destruct (fold_err on_chunk collector_init before) as [e|st1] eqn:H1; [done|].
    simpl in Hfold. destruct (on_chunk st1 c) as [e|st2] eqn:H2; [done|].
    pose proof (finish_pending before collector_init st1 eq_refl Hbefore H1) as Hp.
    assert (finish st2 = reason_in c) as Heq.
    { rewrite (on_chunk_finish st1 c st2 H2). unfold reason_in in *.
      destruct (choices c); [done|]. by apply py_or_falsy. }
    assert (finish st = reason_in c) as Hfin.
    { rewrite (finish_sticky after st2 st); [done| |done]. by rewrite Heq. }
    rewrite Hfin. split; [done|]. case_bool_decide as H.
    - split; [done|]. by eexists.
    - split; [by intros [? ?]|done]. }
  split; [done|]. intros Hnamed.
  destruct (collect_response_named (before ++ c :: after) metrics Hnamed)
    as (response & reason & Hr).
  exists response. destruct (Hret response reason Hr) as [-> _]. done.
Qed.

(** ** Tool calls *)

(** Two collectors with the same open call and the same finished calls. *)
Definition same_calls (st st' : collector) : Prop :=
  tool_calls st = tool_calls st' ∧ current_tool_id st = current_tool_id st'
  ∧ current_tool_name st = current_tool_name st'
  ∧ current_tool_args st = current_tool_args st'.

(** Two runs that raise together or end in collectors with the same
    calls. *)
Definition same_outcome (r r' : query_error + collector) : Prop :=
  match r, r' with
  | inl e, inl e' => e = e'
  | inr st, inr st' => same_calls st st'
  | _, _ => False
  end.

Lemma same_calls_flush st st' : same_calls st st' → flush st = flush st'.
Proof. intros (H1 & H2 & H3 & H4). unfold flush. by rewrite H1, H2, H3, H4. Qed.

Lemma same_calls_on_fragment st st' f :
  same_calls st st' → same_outcome (on_fragment st f) (on_fragment st' f).
Proof.
  intros Hs. pose proof (same_calls_flush _ _ Hs) as Hf.
  destruct Hs as (H1 & H2 & H3 & H4).
  unfold on_fragment. destruct (truthy (frag_id f)); simpl.
  - rewrite H1, H2, Hf.
    destruct (if bool_decide _ then _ else _); simpl; [done|].
    unfold same_calls. simpl. done.
  - unfold same_calls. simpl. by rewrite H1, H2, H3, H4.
Qed.

Lemma same_calls_fragments fs st st' :
  same_calls st st' →
  same_outcome (fold_err on_fragment st fs) (fold_err on_fragment st' fs).
Proof.
  revert st st'. induction fs as [|f fs IH]; intros st st' Hs; [done|].
  simpl. pose proof (same_calls_on_fragment st st' f Hs) as Hf.
  destruct (on_fragment st f), (on_fragment st' f); try done. by apply IH.
Qed.

Lemma same_calls_chunks stream st st' :
  same_calls st st' →
  same_outcome (fold_err on_chunk st stream)
    (fold_err on_fragment st' (stream ≫= fragments_in)).
Proof.
  revert st st'. induction stream as [|c stream IH]; intros st st' Hs; [done|].
  rewrite bind_cons, fold_err_app. simpl fold_err.
  assert (same_outcome (on_chunk st c) (fold_err on_fragment st' (fragments_in c)))
    as Hc.
  { unfold on_chunk, fragments_in. destruct (choices c) as [|choice0 ?]; [done|].
    by apply same_calls_fragments. }
  destruct (on_chunk st c), (fold_err on_fragment st' (fragments_in c)); try done.
  by apply IH.
Qed.

Lemma join_app l1 l2 : join (l1 ++ l2) = (join l1 +:+ join l2)%string.
Proof.
  induction l1 as [|s l1 IH]; [done|].
  change (join ((s :: l1) ++ l2)) with (s +:+ join (l1 ++ l2))%string.
  change (join (s :: l1)) with (s +:+ join l1)%string.
  rewrite IH. generalize (join l1) (join l2). clear.
  intros a b. induction s as [|ch s IH]; [done|].
  change (String ch s +:+ a +:+ b)%string with (String ch (s +:+ a +:+ b))%string.
  by rewrite IH.
Qed.

(** The argument fragments of a call, on a collector whose open call
    has the name of that call. *)
Lemma on_tail_fragments (name : string) fs st :
  name ≠ "" → Forall (λ f, truthy (frag_id f) = false) fs →
  current_tool_name st = Some name →
  ∃ st', fold_err on_fragment st fs = inr st'
    ∧ tool_calls st' = tool_calls st
    ∧ current_tool_id st' = current_tool_id st
    ∧ current_tool_name st' = Some name
    ∧ current_tool_args st'
      = current_tool_args st ++ ((λ f, or_empty (frag_arguments f)) <$> fs).
Proof.
  intros Hname Hfs. revert st.
  induction Hfs as [|f fs Hf _ IH]; intros st Hst.
  - exists st. by rewrite app_nil_r.
  - simpl fold_err. rewrite (on_fragment_no_id st f Hf).
    destruct (IH {| result := result st; finish := finish st;
                    tool_calls := tool_calls st;
                    current_tool_id := current_tool_id st;
                    current_tool_name := py_or (current_tool_name st) (frag_name f);
                    current_tool_args :=
                      current_tool_args st ++ [or_empty (frag_arguments f)] |})
      as (st' & -> & Hc & Hi & Hn & Ha).
    { simpl. rewrite Hst. by apply py_or_truthy, truthy_Some. }
    exists st'. split; [done|]. rewrite Hc, Hi, Hn, Ha.
    cbn [tool_calls current_tool_id current_tool_name current_tool_args].
    rewrite fmap_cons. by rewrite <- app_assoc.
Qed.

(** The fragments of one call, on a collector whose open call has
    another id and can be finalized. *)
Lemma on_streamed_call sc st finished :
  well_streamed sc → current_tool_id st ≠ Some (sc_id sc) →
  flush st = inr finished →
  ∃ st', fold_err on_fragment st (fragments_of sc) = inr st'
    ∧ flush st' = inr (finished ++ [call_of sc])
    ∧ current_tool_id st' = Some (sc_id sc).
Proof.
  intros (Hid & Hname & Hhead & Htail) Hne Hflush.
  unfold fragments_of. simpl fold_err.
  destruct (on_fragment_new_id st
              {| frag_id := Some (sc_id sc); frag_name := Some (sc_name sc);
                 frag_arguments := sc_head_arguments sc |} finished)
    as (st1 & -> & Hc1 & Hi1 & Hn1' & Ha1).
  { by apply truthy_Some. }
  { simpl. by intros ?. }
  { done. }
  assert (current_tool_name st1 = Some (sc_name sc)) as Hn1.
  { rewrite Hn1'. simpl. by apply py_or_truthy, truthy_Some. }
  destruct (on_tail_fragments (sc_name sc) (sc_tail sc) st1 Hname Htail Hn1)
    as (st2 & -> & Hc2 & Hi2 & Hn2 & Ha2).
  exists st2. split; [done|]. split; [|by rewrite Hi2, Hi1].
  unfold flush. rewrite Hi2, Hi1. cbn [frag_id].
  rewrite (truthy_Some _ Hid).
  rewrite Hn2, Hc2, Hc1, Ha2, Ha1. cbn [frag_arguments].
  rewrite Hhead, join_app. done.
Qed.

Lemma on_streamed_calls scs st finished :
  Forall well_streamed scs → NoDup (sc_id <$> scs) →
  (∀ sc, sc ∈ scs → current_tool_id st ≠ Some (sc_id sc)) →
  flush st = inr finished →
  ∃ st', fold_err on_fragment st (scs ≫= fragments_of) = inr st'
    ∧ flush st' = inr (finished ++ (call_of <$> scs)).
Proof.
  intros Hall. revert st finished.
  induction Hall as [|sc scs Hsc _ IH]; intros st finished Hnd Hst Hflush.
  - exists st. by rewrite app_nil_r.
  - rewrite bind_cons, fold_err_app, fmap_cons.
    rewrite fmap_cons in Hnd. apply NoDup_cons in Hnd as [Hnotin Hnd].
    destruct (on_streamed_call sc st finished Hsc) as (st1 & -> & Hflush1 & Hid1).
    { apply Hst. by left. }
    { done. }
    destruct (IH st1 (finished ++ [call_of sc]) Hnd) as (st2 & -> & Hflush2).
    + intros sc' Hin. rewrite Hid1. intros [= Heq]. apply Hnotin.
      rewrite Heq. apply list_elem_of_fmap. by exists sc'.
    + done.
    + exists st2. split; [done|]. by rewrite Hflush2, <- app_assoc.
Qed.

(** X15. Tool calls streamed the way the API streams them are put back
    together. Let the fragments of a stream, in order and however they are
    spread over its chunks, be those of a list of calls with distinct ids,
    each call being a first fragment with its id, its name and no argument
    text, followed by fragments without id that carry the argument text.
    Then [collect_response] returns, without an exception, and when the
    finish reason it returns is [tool_calls], the response is exactly
    these calls, in order, each with its id, its name, and its pieces of
    argument text concatenated. *)
Theorem X15_streamed_calls (stream : list chunk) (scs : list streamed_call)
    (metrics : option Z) :
  Forall well_streamed scs → NoDup (sc_id <$> scs) →
  stream ≫= fragments_in = scs ≫= fragments_of →
  ∃ response reason,
    (collect_response stream metrics).1 = inr (response, reason)
    ∧ (reason = Some "tool_calls" → response = ToolCalls (call_of <$> scs)).
Proof.
  intros Hall Hnd Hfrags.
  destruct (on_streamed_calls scs collector_init [] Hall Hnd)
    as (st' & Hfold' & Hflush'); [done|done|].
  pose proof (same_calls_chunks stream collector_init collector_init) as Hsame.
  rewrite Hfrags, Hfold' in Hsame.
  destruct (fold_err on_chunk collector_init stream) as [e|st] eqn:Hfold.
  { by destruct Hsame. }
  specialize (Hsame ltac:(done)). simpl in Hsame.
  rewrite <- (same_calls_flush st st' Hsame) in Hflush'.
  rewrite (collect_response_intro stream metrics st _ Hfold Hflush').
  eexists _, _. split; [done|]. intros Hreason.
  by rewrite bool_decide_eq_true_2.
Qed.

(** ** Tokens *)

Lemma count_collect_sum stream tokens :
  foldl count_collect (Some tokens) stream
  = Some (tokens + foldr (λ c acc, charge c + acc) 0 stream).
Proof.
  revert tokens. induction stream as [|c stream IH]; intros tokens.
  - simpl. f_equal. lia.
  - simpl. unfold charge at 1.
    destruct (usage c) as [t|]; simpl; rewrite IH; f_equal; lia.
Qed.

Lemma count_plain_no_usage stream tokens :
  Forall (λ c, usage c = None) stream →
  foldl count_plain (Some tokens) stream = Some (tokens + Z.of_nat (length stream)).
Proof.
  intros Hall. revert tokens. induction Hall as [|c stream Hc _ IH]; intros tokens.
  - simpl. f_equal. lia.
  - assert (count_plain (Some tokens) c = Some (tokens + 1)) as Heq
      by (unfold count_plain; by rewrite Hc).
    change (foldl count_plain (Some tokens) (c :: stream))
      with (foldl count_plain (count_plain (Some tokens) c) stream).
    rewrite Heq, IH. f_equal. simpl length. lia.
Qed.

Lemma count_no_metrics stream :
  foldl count_plain None stream = None ∧ foldl count_collect None stream = None.
Proof. induction stream as [|c stream [IH1 IH2]]; [done|]. simpl. by split. Qed.

Lemma count_plain_is_Some stream tokens :
  ∃ tokens', foldl count_plain (Some tokens) stream = Some tokens'.
Proof.
  revert tokens. induction stream as [|c stream IH]; intros tokens; [by eexists|].
  simpl. destruct (usage c); apply IH.
Qed.

(** X16. The token counter after a stream, in both streaming paths.
    With tools ([collect_response]) it has grown by the sum, over the
    chunks that were read, of the usage total of a chunk that has one and
    of 1 for a chunk that has none; the chunks read are all the chunks of
    the stream when [collect_response] returns, and those up to the one it
    raises on otherwise. Without tools it is the usage total of the last
    chunk that has one, plus the number of chunks after that chunk; when no
    chunk has a usage total it has grown by the number of chunks. Without
    a metrics object there is no counter in either path. *)
Theorem X16_token_laws (stream : list chunk) (msgs : list message) (tokens : Z) :
  (∃ read rest, stream = read ++ rest
     ∧ (collect_response stream (Some tokens)).2
       = Some (tokens + foldr (λ c acc, charge c + acc) 0 read)
     ∧ (∀ r, (collect_response stream (Some tokens)).1 = inr r → rest = []))
  ∧ (∀ before c after total,
       stream = before ++ c :: after → usage c = Some total →
       Forall (λ c', usage c' = None) after →
       tokens_consumed (query_stream_plain stream msgs (Some tokens))
       = Some (total + Z.of_nat (length after)))
  ∧ (Forall (λ c, usage c = None) stream →
     tokens_consumed (query_stream_plain stream msgs (Some tokens))
     = Some (tokens + Z.of_nat (length stream)))
  ∧ (collect_response stream None).2 = None
  ∧ tokens_consumed (query_stream_plain stream msgs None) = None.
Proof.
  split; [|split; [|split; [|split]]].
  - destruct (collect_response_read stream (Some tokens))
      as (read & rest & Hs & Hm & Hr).
    exists read, rest. split; [done|]. split; [|done].
    rewrite Hm. apply count_collect_sum.
  - intros before c after total -> Hc Hafter. simpl.
    rewrite foldl_app. simpl foldl.
    destruct (count_plain_is_Some before tokens) as [t ->].
    assert (count_plain (Some t) c = Some total) as Heq
      by (unfold count_plain; by rewrite Hc).
    rewrite Heq. by apply count_plain_no_usage.
  - intros Hall. simpl. by apply count_plain_no_usage.
  - destruct (collect_response_read stream None) as (read & rest & _ & Hm & _).
    rewrite Hm. apply count_no_metrics.
  - simpl. apply count_no_metrics.
Qed.

End CollectFacts.

Lemma X13_collected_text_witness :
  (∃ response reason,
     (OAI.collect_response last_stream (Some 0)).1 = inr (response, reason))
  ∧ (OAI.collect_response last_stream (Some 0)).1
    = inr (OAI.Text "done", Some "stop").
Proof.
  split.
  - refine (proj1 (X13_collected_text last_stream [] (Some 0) None) _).
    by repeat constructor.
  - reflexivity.
Defined.

Lemma X14_first_finish_reason_witness :
  ∃ response,
    (OAI.collect_response
       ([tool_chunk None (OAI.Fragment (Some "1") (Some "echo") (Some ""))]
        ++ tool_chunk (Some "tool_calls") (OAI.Fragment None None (Some "{}"))
           :: last_stream) None).1
    = inr (response, Some "tool_calls").
Proof.
  refine (proj2 (X14_first_finish_reason
                   [tool_chunk None (OAI.Fragment (Some "1") (Some "echo") (Some ""))]
                   last_stream
                   (tool_chunk (Some "tool_calls")
                      (OAI.Fragment None None (Some "{}")))
                   None _ _) _).
  - by repeat constructor.
  - reflexivity.
  - repeat constructor; done.
Defined.

Lemma X15_streamed_calls_witness :
  ∃ response reason,
    (OAI.collect_response (stream_of "1" "echo" ++ stream_of "2" "boom") None).1
    = inr (response, reason)
    ∧ (reason = Some "tool_calls" →
       response = OAI.ToolCalls [OAI.ToolCall "1" "echo" "{}";
                                 OAI.ToolCall "2" "boom" "{}"]).
Proof.
  apply (X15_streamed_calls (stream_of "1" "echo" ++ stream_of "2" "boom")
           [ StreamedCall "1" "echo" (Some "")
               [OAI.Fragment None None (Some "{}")];
             StreamedCall "2" "boom" (Some "")
               [OAI.Fragment None None (Some "{}")] ] None).
  - repeat constructor; done.
  - simpl. apply NoDup_cons. split; [|apply NoDup_singleton].
    by intros ?%list_elem_of_singleton.
  - reflexivity.
Defined.

(** * More of the orchestrator: conversations of any length *)

(** The rounds a conversation of [n] turns that ask for tools gets to
    carry out under [call_limit]: all of them without a limit, no more
    than the limit otherwise. *)
Definition rounds_done (call_limit : option Z) (n : nat) : nat :=
  match call_limit with
  | None => n
  | Some limit => Nat.min (Z.to_nat limit) n
  end.

Section Conversations.
Import OAI.
Context {J V : Type}.
Variable format_exception : pyexc → string.
Variable json_loads : string → pyexc + J.
Variable tools : gmap string (J → pyexc + V).
Variable key_error : string → pyexc.
Variable compile_to_string : V → pyexc + string.
Variable compile_payload : error_payload → string.

Local Abbreviation parses := (parses json_loads).
Local Abbreviation round :=
  (round format_exception json_loads tools key_error compile_to_string
     compile_payload).
Local Abbreviation tool_loop :=
  (tool_loop format_exception json_loads tools key_error compile_to_string
     compile_payload).
Local Abbreviation tool_loop_stream :=
  (tool_loop_stream format_exception json_loads tools key_error compile_to_string
     compile_payload).
Local Abbreviation query_nostream :=
  (query_nostream format_exception json_loads tools key_error compile_to_string
     compile_payload).
Local Abbreviation query_stream_tools :=
  (query_stream_tools format_exception json_loads tools key_error compile_to_string
     compile_payload).

Lemma rounds_done_spend call_limit n :
  limit_ok call_limit = true →
  (rounds_done call_limit (S n) = 0%nat
   ∧ spend call_limit = inl ToolCallLimitExceeded)
  ∨ (∃ call_limit', spend call_limit = inr call_limit'
                    ∧ limit_ok call_limit' = true
                    ∧ rounds_done call_limit (S n) = S (rounds_done call_limit' n)).
Proof.
  destruct call_limit as [limit|]; simpl.
  - intros Hok%bool_decide_eq_true_1. destruct (decide (limit = 0)) as [->|Hne].
    + left. done.
    + right. exists (Some (limit - 1)). split; [apply spend_positive; lia|].
      split; [apply bool_decide_eq_true_2; lia|].
      simpl. replace (Z.to_nat limit) with (S (Z.to_nat (limit - 1))) by lia.
      done.
  - intros _. right. by exists None.
Qed.

Lemma rounds_done_le call_limit n : (rounds_done call_limit n ≤ n)%nat.
Proof. destruct call_limit; simpl; lia. Qed.

(** Any number of turns that ask for tools, then one that does not,
    under any limit. *)
Lemma tool_loop_rounds (turns : list completion) (final : completion) :
  Forall (λ r, finish_reason r = "tool_calls" ∧ parses (message_tool_calls r)) turns →
  finish_reason final ≠ "tool_calls" →
  ∀ call_limit msgs r script,
    limit_ok call_limit = true → r :: script = turns ++ [final] →
    ∃ rounds,
      Forall2 round
        (message_tool_calls <$> take (rounds_done call_limit (length turns)) turns)
        rounds
      ∧ tool_loop script r call_limit msgs
        = (msgs ++ concat rounds,
           if bool_decide (rounds_done call_limit (length turns) = length turns)
           then inr final else inl ToolCallLimitExceeded).
Proof.
  intros Hturns Hfinal.
  induction Hturns as [|t turns [Ht Hp] _ IH]; intros call_limit msgs r script Hok Heq.
  - injection Heq as -> ->. exists []. split.
    + rewrite take_nil. constructor.
    + rewrite tool_loop_done by done. simpl concat. rewrite app_nil_r.
      rewrite bool_decide_eq_true_2; [done|]. destruct call_limit; simpl; lia.
  - injection Heq as -> ->. simpl length.
    destruct (rounds_done_spend call_limit (length turns) Hok)
      as [[Hz Hs]|(call_limit' & Hs & Hok' & HS)].
    + exists []. rewrite Hz. split; [constructor|].
      rewrite (tool_loop_exceeded _ _ _ _ _ _ _ _ _ _ ToolCallLimitExceeded) by done.
      simpl concat. by rewrite app_nil_r.
    + destruct (turns ++ [final]) as [|r' script'] eqn:Hrest.
      { by destruct turns. }
      destruct (tool_loop_round format_exception json_loads tools key_error
                  compile_to_string compile_payload script' t r' call_limit
                  call_limit' msgs Ht Hs Hp) as (ms & Hround & ->).
      destruct (IH call_limit' (msgs ++ ms) r' script' Hok' eq_refl)
        as (rounds & Hrounds & ->).
      exists (ms :: rounds). rewrite HS. split.
      * rewrite firstn_cons, fmap_cons. by constructor.
      * simpl concat. rewrite <- app_assoc. f_equal.
        case_bool_decide; case_bool_decide; done || lia.
Qed.

(** X17. The non-streaming path on a conversation of any length: any
    number of turns that ask for tools, each with JSON arguments, then a
    turn that does not, under any [call_limit] that passes the assertion.
    The rounds carried out are the first [call_limit] ones, all of them
    when there is no limit or the limit is not below their number; each
    appends the assistant message and its tool messages to the
    conversation. When a round is left over, the limit error is raised,
    nothing is yielded and the counter is unchanged. Otherwise the finish
    reason of the last turn decides: [stop] and [eos] yield its content
    and add its usage total, and only its, to the counter; [length],
    [content_filter] and anything else raise, yield nothing and leave the
    counter as it was. *)
Theorem X17_nostream_conversation (turns : list completion) (final : completion)
    (call_limit : option Z) (msgs : list message) (metrics : option Z) :
  Forall (λ r, finish_reason r = "tool_calls" ∧ parses (message_tool_calls r)) turns →
  finish_reason final ≠ "tool_calls" →
  limit_ok call_limit = true →
  let run := query_nostream (turns ++ [final]) call_limit msgs metrics in
  let k := rounds_done call_limit (length turns) in
  (∃ rounds, Forall2 round (message_tool_calls <$> take k turns) rounds
             ∧ messages run = msgs ++ concat rounds)
  ∧ ((k < length turns)%nat →
     raised run = Some ToolCallLimitExceeded ∧ yielded run = []
     ∧ tokens_consumed run = metrics)
  ∧ (k = length turns →
     (finish_reason final = "stop" ∨ finish_reason final = "eos" →
      raised run = None ∧ yielded run = [message_content final]
      ∧ tokens_consumed run = (λ t, t + usage_total_tokens final) <$> metrics)
     ∧ (finish_reason final = "length" →
        raised run = Some ContextWindowExceeded ∧ yielded run = []
        ∧ tokens_consumed run = metrics)
     ∧ (finish_reason final = "content_filter" →
        raised run = Some ContentFiltered ∧ yielded run = []
        ∧ tokens_consumed run = metrics)
     ∧ (finish_reason final ∉ ["stop"; "eos"; "length"; "content_filter"] →
        raised run = Some (UnexpectedFinishReason (Some (finish_reason final)))
        ∧ yielded run = [] ∧ tokens_consumed run = metrics)).
Proof.
  intros Hturns Hfinal Hok run k. subst run.
  unfold OAI.query_nostream. rewrite Hok. simpl negb. cbv iota.
  destruct (turns ++ [final]) as [|r script] eqn:Hscript.
  { by destruct turns. }
  destruct (tool_loop_rounds turns final Hturns Hfinal call_limit msgs r script
              Hok (eq_sym Hscript)) as (rounds & Hrounds & ->).
  fold k. case_bool_decide as Hk.
  - split; [|split].
    + exists rounds. split; [done|].
      repeat case_bool_decide; done.
    + intros Hlt. lia.
    + intros _. split; [|split; [|split]].
      * intros Hstop. rewrite bool_decide_eq_false_2 by (by destruct Hstop as [-> | ->]).
        rewrite bool_decide_eq_false_2 by (by destruct Hstop as [-> | ->]).
        by rewrite bool_decide_eq_true_2.
      * intros Hl. by rewrite bool_decide_eq_true_2.
      * intros Hl. rewrite bool_decide_eq_false_2 by (by rewrite Hl).
        by rewrite bool_decide_eq_true_2.
      * intros Hnot.
        rewrite bool_decide_eq_false_2.
        2: { intros Heq. apply Hnot. rewrite Heq.
             do 2 apply list_elem_of_further. apply list_elem_of_here. }
        rewrite bool_decide_eq_false_2.
        2: { intros Heq. apply Hnot. rewrite Heq.
             do 3 apply list_elem_of_further. apply list_elem_of_here. }
        rewrite bool_decide_eq_false_2; [done|].
        intros [Heq|Heq]; apply Hnot; rewrite Heq.
        -- apply list_elem_of_here.
        -- apply list_elem_of_further, list_elem_of_here.
  - split; [|split].
    + by exists rounds.
    + done.
    + intros Heq. done.
Qed.

(** ** The streaming path with tools *)

(** A stream that [collect_response] reads as a request for the calls
    [t.2], whose arguments are JSON. *)
Definition asks_for (t : list chunk * list tool_call) : Prop :=
  (collect_response t.1 None).1 = inr (ToolCalls t.2, Some "tool_calls")
  ∧ parses t.2.

Lemma next_stream_returns (turns : list (list chunk * list tool_call))
    (final : list chunk) (last : collected * option string) s script :
  Forall asks_for turns → (collect_response final None).1 = inr last →
  s :: script = (fst <$> turns) ++ [final] →
  ∃ r, (collect_response s None).1 = inr r.
Proof.
  intros Hturns Hfinal. destruct Hturns as [|t turns [Ht _] _].
  - intros [= -> _]. by eexists.
  - rewrite fmap_cons. intros [= -> _]. by eexists.
Qed.

Lemma tool_loop_stream_rounds (turns : list (list chunk * list tool_call))
    (final : list chunk) (last : collected * option string) :
  Forall asks_for turns →
  (collect_response final None).1 = inr last → last.2 ≠ Some "tool_calls" →
  ∀ call_limit msgs metrics s script r,
    limit_ok call_limit = true → s :: script = (fst <$> turns) ++ [final] →
    (collect_response s None).1 = inr r →
    ∃ rounds,
      Forall2 round (snd <$> take (rounds_done call_limit (length turns)) turns)
        rounds
      ∧ tool_loop_stream script r.1 r.2 call_limit msgs metrics
        = (msgs ++ concat rounds,
           foldl count_collect metrics
             (concat (take (rounds_done call_limit (length turns)) script)),
           if bool_decide (rounds_done call_limit (length turns) = length turns)
           then inr last else inl ToolCallLimitExceeded).
Proof.
  intros Hturns Hfinal Hlast.
  induction Hturns as [|t turns [Ht Hp] Hturns IH];
    intros call_limit msgs metrics s script r Hok Heq Hr.
  - injection Heq as -> ->. rewrite Hfinal in Hr. injection Hr as <-.
    exists []. split.
    + rewrite take_nil. constructor.
    + rewrite tool_loop_stream_done by done. simpl concat. rewrite app_nil_r.
      rewrite take_nil. simpl.
      rewrite bool_decide_eq_true_2 by (destruct call_limit; simpl; lia).
      by destruct last.
  - rewrite fmap_cons in Heq. injection Heq as -> ->. simpl length.
    rewrite Ht in Hr. injection Hr as <-. simpl fst. simpl snd.
    destruct (rounds_done_spend call_limit (length turns) Hok)
      as [[Hz Hs]|(call_limit' & Hs & Hok' & HS)].
    + exists []. rewrite Hz. split; [constructor|].
      rewrite (tool_loop_stream_exceeded _ _ _ _ _ _ _ _ _ _ _ ToolCallLimitExceeded)
        by done.
      simpl concat. by rewrite app_nil_r.
    + destruct ((fst <$> turns) ++ [final]) as [|s' script'] eqn:Hrest.
      { by destruct turns. }
      destruct (next_stream_returns turns final last s' script' Hturns Hfinal
                  (eq_sym Hrest)) as [r' Hr'].
      destruct (tool_loop_stream_round format_exception json_loads tools key_error
                  compile_to_string compile_payload script' s' t.2
                  call_limit call_limit' msgs metrics Hs Hp)
        as (ms & Hround & ->).
      rewrite (collect_response_returns s' metrics r' Hr').
      destruct (IH call_limit' (msgs ++ ms) (foldl count_collect metrics s')
                  s' script' r' Hok' eq_refl Hr') as (rounds & Hrounds & Hloop).
      destruct r' as [response' reason']. simpl in Hloop. rewrite Hloop.
      exists (ms :: rounds). rewrite HS. split.
      * rewrite firstn_cons, fmap_cons. by constructor.
      * rewrite firstn_cons. simpl concat. rewrite foldl_app, <- app_assoc.
        f_equal. case_bool_decide; case_bool_decide; done || lia.
Qed.

(** X18. The streaming path with tools on a conversation of any
    length: any number of streams that [collect_response] reads, without
    raising, as a request for tool calls with JSON arguments, then a
    stream that it reads, without raising, with another finish reason,
    under any [call_limit] that passes the assertion. The rounds carried
    out are the first [call_limit] ones, as without streaming. The counter
    is charged for every chunk of every stream that was read, the streams
    of the turns that ask for tools included: one stream more than rounds
    were carried out. When a round is left over the limit error is raised
    and nothing is yielded; otherwise a last finish reason of [stop] or
    [eos] yields the text of the last stream, once, as a whole. *)
Theorem X18_stream_conversation (turns : list (list chunk * list tool_call))
    (final : list chunk) (last : collected * option string)
    (call_limit : option Z) (msgs : list message) (metrics : option Z) :
  Forall asks_for turns →
  (collect_response final None).1 = inr last → last.2 ≠ Some "tool_calls" →
  limit_ok call_limit = true →
  let run :=
    query_stream_tools ((fst <$> turns) ++ [final]) call_limit msgs metrics in
  let k := rounds_done call_limit (length turns) in
  (∃ rounds, Forall2 round (snd <$> take k turns) rounds
             ∧ messages run = msgs ++ concat rounds)
  ∧ tokens_consumed run
    = foldl count_collect metrics
        (concat (take (S k) ((fst <$> turns) ++ [final])))
  ∧ ((k < length turns)%nat →
     raised run = Some ToolCallLimitExceeded ∧ yielded run = [])
  ∧ (k = length turns → last.2 = Some "stop" ∨ last.2 = Some "eos" →
     raised run = None
     ∧ yielded run
       = [Some (join (or_empty <$> yielded (query_stream_plain final msgs metrics)))]).
Proof.
  intros Hturns Hfinal Hlast Hok run k. subst run.
  unfold OAI.query_stream_tools. rewrite Hok. simpl negb. cbv iota.
  destruct ((fst <$> turns) ++ [final]) as [|s script] eqn:Hscript.
  { by destruct turns. }
  destruct (next_stream_returns turns final last s script Hturns Hfinal
              (eq_sym Hscript)) as [r Hr].
  rewrite (collect_response_returns s metrics r Hr).
  destruct (tool_loop_stream_rounds turns final last Hturns Hfinal Hlast call_limit
              msgs (foldl count_collect metrics s) s script r Hok (eq_sym Hscript) Hr)
    as (rounds & Hrounds & Hloop).
  destruct r as [response0 reason0]. simpl in Hloop. rewrite Hloop. fold k.
  rewrite firstn_cons. simpl concat. rewrite foldl_app.
  destruct (decide (k = length turns)) as [Hk|Hk].
  - rewrite (bool_decide_eq_true_2 (k = length turns)) by done.
    destruct last as [response reason]. simpl in Hlast.
    pose proof (collect_text final msgs None metrics response reason Hfinal Hlast)
      as Htext.
    split; [|split; [|split]].
    + exists rounds. split; [done|]. repeat case_bool_decide; done.
    + repeat case_bool_decide; done.
    + intros Hlt. lia.
    + intros _ Hstop. simpl in Hstop.
      rewrite bool_decide_eq_false_2 by (by destruct Hstop as [-> | ->]).
      rewrite bool_decide_eq_false_2 by (by destruct Hstop as [-> | ->]).
      rewrite bool_decide_eq_true_2 by done. simpl. by rewrite Htext.
  - rewrite (bool_decide_eq_false_2 (k = length turns)) by done.
    split; [|split; [|split]].
    + by exists rounds.
    + done.
    + done.
    + intros Heq. done.
Qed.

End Conversations.

Lemma X17_nostream_conversation_witness :
  OAI.raised
    (OAI.query_nostream sample_format sample_loads sample_tools sample_key_error
       sample_compile sample_payload
       ([turn calls1; turn calls2] ++ [last_turn]) (Some 1) [] (Some 0))
  = Some OAI.ToolCallLimitExceeded
  ∧ OAI.tokens_consumed
      (OAI.query_nostream sample_format sample_loads sample_tools sample_key_error
         sample_compile sample_payload
         ([turn calls1; turn calls2] ++ [last_turn]) (Some 1) [] (Some 0))
    = Some 0.
Proof.
  assert (parses sample_loads calls1) as Hp1
    by (apply sample_parses; repeat constructor).
  assert (parses sample_loads calls2) as Hp2
    by (apply sample_parses; repeat constructor).
  pose proof (X17_nostream_conversation sample_format sample_loads sample_tools
                sample_key_error sample_compile sample_payload
                [turn calls1; turn calls2] last_turn (Some 1) [] (Some 0)) as H.
  destruct H as (_ & Hlimit & _).
  - constructor; [by split|]. constructor; [by split|constructor].
  - done.
  - reflexivity.
  - destruct Hlimit as (Hr & _ & Ht); [simpl; lia|]. by split.
Defined.

Lemma X18_stream_conversation_witness :
  OAI.yielded
    (OAI.query_stream_tools sample_format sample_loads sample_tools sample_key_error
       sample_compile sample_payload
       ((fst <$> [(stream_of "1" "echo", [OAI.ToolCall "1" "echo" "{}"]);
                  (stream_of "3" "missing", calls2)]) ++ [last_stream])
       None [] (Some 0))
  = [Some "done"]
  ∧ OAI.tokens_consumed
      (OAI.query_stream_tools sample_format sample_loads sample_tools
         sample_key_error sample_compile sample_payload
         ((fst <$> [(stream_of "1" "echo", [OAI.ToolCall "1" "echo" "{}"]);
                    (stream_of "3" "missing", calls2)]) ++ [last_stream])
         None [] (Some 0))
    = Some 5.
Proof.
  pose proof (X18_stream_conversation sample_format sample_loads sample_tools
                sample_key_error sample_compile sample_payload
                [(stream_of "1" "echo", [OAI.ToolCall "1" "echo" "{}"]);
                 (stream_of "3" "missing", calls2)] last_stream
                (OAI.Text "done", Some "stop") None [] (Some 0)) as H.
  destruct H as (_ & Htokens & _ & Hstop).
  - constructor; [split; [reflexivity|]|].
    { apply sample_parses. by repeat constructor. }
    constructor; [split; [reflexivity|]|constructor].
    apply sample_parses. by repeat constructor.
  - reflexivity.
  - done.
  - reflexivity.
  - destruct Hstop as [_ Hy]; [reflexivity|by left|].
    split; [exact Hy|exact Htokens].
Defined.

(** * providers/anthropic.py *)

Module Anthropic.

(** A chat message: a dictionary with string values. *)
Definition message : Type := gmap string string.

Inductive error :=
  | KeyError (key : string)
  | IndexError.

(** The loop of [AnthropicWrapper.query] that takes the system messages
    out of [kwargs["messages"]]:
    [for i in reversed(range(len(messages)))], with [messages[i]],
    [msg.get("role") == "system"], [system_msg.append(msg["content"])] and
    [del messages[i]]. The list is changed in place while the indices,
    fixed at the start, are walked downwards. *)
Fixpoint extract_system (indices : list nat) (messages : list message)
    (system_msg : list string) : error + (list string * list message) :=
  match indices with
  | [] => inr (system_msg, messages)
  | i :: rest =>
      match messages !! i with
      | None => inl IndexError
      | Some msg =>
          if bool_decide (msg !! "role" = Some "system") then
            match msg !! "content" with
            | None => inl (KeyError "content")
            | Some content =>
                extract_system rest (delete i messages) (system_msg ++ [content])
            end
          else extract_system rest messages system_msg
      end
  end.

(** [sep.join(l)] *)
Fixpoint join_with (sep : string) (l : list string) : string :=
  match l with
  | [] => ""
  | [s] => s
  | s :: rest => s +:+ sep +:+ join_with sep rest
  end.

(** Two line feeds. *)
Definition blank_line : string :=
  String "010"%char (String "010"%char EmptyString).

(** Lines 32-38 and the [system=] argument of lines 48 and 65: the
    system prompt handed to the client and the messages left in
    [kwargs["messages"]]. *)
Definition split_system (messages : list message)
    : error + (string * list message) :=
  match extract_system (reverse (seq 0 (length messages))) messages [] with
  | inl e => inl e
  | inr (system_msg, messages') => inr (join_with blank_line system_msg, messages')
  end.

(** A streamed event, by what [query] looks at: for [chunk.usage], when
    the chunk has that attribute, its [input_tokens] and [output_tokens]
    where it has them; [chunk.type]; [chunk.content_block.text] and
    [chunk.delta.text] where these attributes exist. *)
Record event := Event {
  ev_usage : option (option Z * option Z);
  ev_type : string;
  content_block_text : option string;
  delta_text : option string
}.

(** The local variables of the streaming loop, the counter of the
    metrics object, and what was yielded so far. *)
Record stream_state := StreamState {
  input_tokens : Z;
  output_tokens : Z;
  tokens_consumed : Z;
  yielded : list string
}.

(** The body of [async for chunk in stream] (lines 68-87). *)
Definition on_event (st : stream_state) (chunk : event) : stream_state :=
  let st1 :=
    match ev_usage chunk with
    | Some (i, o) =>
        let input := default (input_tokens st) i in
        let output := default (output_tokens st) o in
        {| input_tokens := input; output_tokens := output;
           tokens_consumed := input + output; yielded := yielded st |}
    | None => st
    end in
  if bool_decide (ev_type chunk ≠ "content_block_start"
                  ∧ ev_type chunk ≠ "content_block_delta")
  then st1
  else
    let texts :=
      (if truthy (content_block_text chunk)
       then [or_empty (content_block_text chunk)] else [])
      ++ (if truthy (delta_text chunk) then [or_empty (delta_text chunk)] else []) in
    {| input_tokens := input_tokens st1; output_tokens := output_tokens st1;
       tokens_consumed := tokens_consumed st1; yielded := yielded st1 ++ texts |}.

(** The streaming branch (lines 61-87), from the counter as it stands. *)
Definition query_stream (events : list event) (tokens : Z) : stream_state :=
  foldl on_event
    {| input_tokens := 0; output_tokens := 0; tokens_consumed := tokens;
       yielded := [] |} events.

End Anthropic.

Section AnthropicFacts.
Import Anthropic.

Definition is_system (msg : message) : Prop := msg !! "role" = Some "system".

Lemma extract_system_prefix (pre suffix : list message) (acc : list string) :
  Forall (λ msg, is_system msg → is_Some (msg !! "content")) pre →
  extract_system (reverse (seq 0 (length pre))) (pre ++ suffix) acc
  = inr (acc ++ reverse (omap (λ msg, msg !! "content") (filter is_system pre)),
         filter (λ msg, ¬ is_system msg) pre ++ suffix).
Proof.
  revert suffix acc. induction pre as [|m pre IH] using rev_ind; intros suffix acc Hall.
  - simpl. by rewrite app_nil_r.
  - apply Forall_app in Hall as [Hpre Hm]. rewrite Forall_singleton in Hm.
    rewrite length_app. simpl length. rewrite Nat.add_1_r, seq_S, reverse_app.
    simpl. rewrite <- app_assoc. simpl.
    rewrite (lookup_app_r pre) by lia. rewrite Nat.sub_diag. simpl.
    rewrite !filter_app, !filter_cons, !filter_nil.
    case_bool_decide as Hsys.
    + destruct (Hm Hsys) as [content Hc]. rewrite Hc.
      replace (delete (length pre) (pre ++ m :: suffix)) with (pre ++ suffix).
      2: { rewrite delete_middle. done. }
      rewrite IH by done.
      rewrite decide_True by done. rewrite decide_False by (by intros H; apply H).
      rewrite omap_app. simpl. rewrite Hc. simpl.
      rewrite reverse_app. simpl. rewrite app_nil_r.
      by rewrite <- app_assoc.
    + rewrite IH by done.
      rewrite decide_False by done. rewrite decide_True by done.
      rewrite !app_nil_r. by rewrite <- app_assoc.
Qed.

Lemma extract_system_missing (pre suffix : list message) (acc : list string)
    (bad : message) :
  bad ∈ pre → is_system bad → bad !! "content" = None →
  extract_system (reverse (seq 0 (length pre))) (pre ++ suffix) acc
  = inl (KeyError "content").
Proof.
  revert suffix acc. induction pre as [|m pre IH] using rev_ind;
    intros suffix acc Hin Hsys Hnone.
  - by apply not_elem_of_nil in Hin.
  - rewrite length_app. simpl length. rewrite Nat.add_1_r, seq_S, reverse_app.
    simpl. rewrite <- app_assoc. simpl.
    rewrite (lookup_app_r pre) by lia. rewrite Nat.sub_diag. simpl.
    apply elem_of_app in Hin as [Hin|Hin%list_elem_of_singleton].
    + case_bool_decide as Hm.
      * destruct (m !! "content") as [content|]; [|done].
        replace (delete (length pre) (pre ++ m :: suffix)) with (pre ++ suffix).
        2: { rewrite delete_middle. done. }
        by apply IH.
      * by apply IH.
    + subst m. rewrite bool_decide_eq_true_2 by done. by rewrite Hnone.
Qed.

(** X19. The system messages are taken out of the conversation. When
    every message with role [system] has a [content], the messages left
    for the API are the other messages, in their order, and the system
    prompt is the contents of the system messages joined by a blank line
    in reverse order, the last system message first. When a system message
    has no [content], the call ends in [KeyError]. The index error of
    [messages[i]] and [del messages[i]] never happens. *)
Theorem X19_system_messages (messages : list message) :
  (Forall (λ msg, is_system msg → is_Some (msg !! "content")) messages →
   split_system messages
   = inr (join_with blank_line
            (reverse (omap (λ msg, msg !! "content") (filter is_system messages))),
          filter (λ msg, ¬ is_system msg) messages))
  ∧ (∀ bad, bad ∈ messages → is_system bad → bad !! "content" = None →
            split_system messages = inl (KeyError "content"))
  ∧ split_system messages ≠ inl IndexError.
Proof.
  assert (Forall (λ msg, is_system msg → is_Some (msg !! "content")) messages
          ∨ ∃ bad, bad ∈ messages ∧ is_system bad ∧ bad !! "content" = None)
    as Hcases.
  { induction messages as [|m messages IH]; [left; constructor|].
    destruct IH as [IH|(bad & Hin & Hsys & Hnone)].
    - destruct (m !! "content") as [content|] eqn:Hc.
      + left. constructor; [by eexists|done].
      + destruct (decide (is_system m)) as [Hsys|Hsys].
        * right. exists m. split; [by left|done].
        * left. constructor; [done|done].
    - right. exists bad. split; [by right|done]. }
  assert (∀ bad, bad ∈ messages → is_system bad → bad !! "content" = None →
            split_system messages = inl (KeyError "content")) as Hbad.
  { intros bad Hin Hsys Hnone. unfold split_system.
    pose proof (extract_system_missing messages [] [] bad Hin Hsys Hnone) as H.
    rewrite app_nil_r in H. by rewrite H. }
  assert (Forall (λ msg, is_system msg → is_Some (msg !! "content")) messages →
          split_system messages
          = inr (join_with blank_line
                   (reverse (omap (λ msg, msg !! "content")
                               (filter is_system messages))),
                 filter (λ msg, ¬ is_system msg) messages)) as Hgood.
  { intros Hall. unfold split_system.
    pose proof (extract_system_prefix messages [] [] Hall) as H.
    rewrite !app_nil_r in H. rewrite H. done. }
  split; [done|]. split; [done|].
  destruct Hcases as [Hall|(bad & Hin & Hsys & Hnone)].
  - by rewrite Hgood.
  - by rewrite (Hbad bad Hin Hsys Hnone).
Qed.

(** ** The streaming branch *)

(** The value of a usage attribute that was reported last. *)
Definition latest (attribute : event → option Z) (events : list event) : Z :=
  default 0 (last (omap attribute events)).

Definition reported_input (chunk : event) : option Z :=
  ev_usage chunk ≫= fst.

Definition reported_output (chunk : event) : option Z :=
  ev_usage chunk ≫= snd.

(** The texts an event makes the generator yield. *)
Definition texts_of (chunk : event) : list string :=
  if bool_decide (ev_type chunk = "content_block_start"
                  ∨ ev_type chunk = "content_block_delta")
  then omap (λ t, if truthy t then t else None)
         [content_block_text chunk; delta_text chunk]
  else [].

Lemma on_event_spec st chunk :
  input_tokens (on_event st chunk) = default (input_tokens st) (reported_input chunk)
  ∧ output_tokens (on_event st chunk)
    = default (output_tokens st) (reported_output chunk)
  ∧ tokens_consumed (on_event st chunk)
    = match ev_usage chunk with
      | Some _ => input_tokens (on_event st chunk) + output_tokens (on_event st chunk)
      | None => tokens_consumed st
      end
  ∧ yielded (on_event st chunk) = yielded st ++ texts_of chunk.
Proof.
  unfold on_event, reported_input, reported_output, texts_of.
  destruct (ev_usage chunk) as [[i o]|]; simpl;
    (case_bool_decide as Ht;
     [rewrite bool_decide_eq_false_2 by (intros [?|?]; by destruct Ht)
     |rewrite bool_decide_eq_true_2
        by (destruct (decide (ev_type chunk = "content_block_start"));
            [by left|right];
            destruct (decide (ev_type chunk = "content_block_delta")); [done|];
            exfalso; by apply Ht)]);
    simpl; rewrite ?app_nil_r; try done;
    (split; [done|]; split; [done|]; split; [done|]; f_equal;
     destruct (content_block_text chunk) as [[|? ?]|];
     destruct (delta_text chunk) as [[|? ?]|]; done).
Qed.

Lemma last_default_snoc {A} (l : list A) (x : option A) (d : A) :
  default d (last (l ++ option_list x)) = default (default d (last l)) x.
Proof. destruct x as [x|]; simpl; [by rewrite last_snoc|by rewrite app_nil_r]. Qed.

Lemma stream_fold (events : list event) (st : stream_state) :
  input_tokens (foldl on_event st events)
  = default (input_tokens st) (last (omap reported_input events))
  ∧ output_tokens (foldl on_event st events)
    = default (output_tokens st) (last (omap reported_output events))
  ∧ tokens_consumed (foldl on_event st events)
    = (if bool_decide (Exists (λ chunk, is_Some (ev_usage chunk)) events)
       then input_tokens (foldl on_event st events)
            + output_tokens (foldl on_event st events)
       else tokens_consumed st)
  ∧ yielded (foldl on_event st events) = yielded st ++ (events ≫= texts_of).
Proof.
  induction events as [|chunk events IH] using rev_ind.
  - simpl. by rewrite app_nil_r.
  - rewrite foldl_app. simpl foldl.
    destruct IH as (Hi & Ho & Ht & Hy).
    destruct (on_event_spec (foldl on_event st events) chunk) as (Hi' & Ho' & Ht' & Hy').
    rewrite !omap_app, bind_app. simpl omap. simpl mbind.
    split; [|split; [|split]].
    + rewrite Hi', Hi.
      change (match reported_input chunk with Some y => [y] | None => [] end)
        with (option_list (reported_input chunk)).
      by rewrite last_default_snoc.
    + rewrite Ho', Ho.
      change (match reported_output chunk with Some y => [y] | None => [] end)
        with (option_list (reported_output chunk)).
      by rewrite last_default_snoc.
    + rewrite Ht'. destruct (ev_usage chunk) as [u|] eqn:Hu.
      * rewrite bool_decide_eq_true_2; [done|].
        apply Exists_app. right. apply Exists_cons. left. by rewrite Hu.
      * rewrite Ht, Hi', Ho'. unfold reported_input, reported_output. rewrite Hu.
        simpl. case_bool_decide as He.
        -- rewrite bool_decide_eq_true_2; [done|]. apply Exists_app. by left.
        -- rewrite bool_decide_eq_false_2; [done|].
           intros [?|Hc]%Exists_app; [done|].
           apply Exists_cons in Hc as [Hc|Hc%Exists_nil]; [|done].
           rewrite Hu in Hc. by destruct Hc.
    + rewrite Hy', Hy. rewrite app_nil_r. by rewrite <- app_assoc.
Qed.

(** X20. The streaming branch of the Anthropic wrapper. When some
    event has a usage, the counter ends as the input tokens reported last
    plus the output tokens reported last, each 0 when never reported,
    whatever the counter was before; when no event has a usage the counter
    is left as it was. What is yielded is, in order, the texts of the
    events of type [content_block_start] and [content_block_delta], the
    text of the content block before that of the delta, and never an
    empty string. *)
Theorem X20_anthropic_stream (events : list event) (tokens : Z) :
  (Exists (λ chunk, is_Some (ev_usage chunk)) events →
   tokens_consumed (query_stream events tokens)
   = latest reported_input events + latest reported_output events)
  ∧ (Forall (λ chunk, ev_usage chunk = None) events →
     tokens_consumed (query_stream events tokens) = tokens)
  ∧ yielded (query_stream events tokens) = events ≫= texts_of
  ∧ Forall (λ text, text ≠ "") (yielded (query_stream events tokens)).
Proof.
  unfold query_stream, latest.
  destruct (stream_fold events
              {| input_tokens := 0; output_tokens := 0; tokens_consumed := tokens;
                 yielded := [] |}) as (Hi & Ho & Ht & Hy).
  split; [|split; [|split]].
  - intros Hex. rewrite Ht, bool_decide_eq_true_2 by done. by rewrite Hi, Ho.
  - intros Hall. rewrite Ht, bool_decide_eq_false_2; [done|].
    intros Hex. apply Exists_exists in Hex as (chunk & Hin & Hsome).
    rewrite Forall_forall in Hall. rewrite (Hall chunk Hin) in Hsome.
    by destruct Hsome.
  - by rewrite Hy.
  - rewrite Hy. simpl. apply Forall_forall. intros text Hin.
    apply list_elem_of_bind in Hin as (chunk & Hin & _).
    unfold texts_of in Hin. case_bool_decide; [|by apply not_elem_of_nil in Hin].
    apply list_elem_of_omap in Hin as (t & _ & Ht').
    destruct t as [[|c s]|]; try done. by injection Ht' as <-.
Qed.

End AnthropicFacts.

(** Two system messages around a user message: the prompt names the
    second one first. *)
Example split_system_sample :
  Anthropic.split_system
    [ {[ "role" := "system"; "content" := "A" ]};
      {[ "role" := "user"; "content" := "hi" ]};
      {[ "role" := "system"; "content" := "B" ]} ]
  = inr ("B" +:+ Anthropic.blank_line +:+ "A",
         [ {[ "role" := "user"; "content" := "hi" ]} ]).
Proof. by vm_compute. Qed.
